(** * Paired-order risk manager: a shallow embedding of polymarket_pair_order

    The development follows the TypeScript variant of the script (the one
    with [runOneWindow], the realtime feed and the repeat loop); the plain
    JavaScript variant has the same safety loop without the feed and
    without repeat mode.

    Numbers.  A JavaScript [number] that has passed a [Number.isFinite] test
    is an exact rational ([Q]) in the model of the program: binary64
    rounding error is left out there, and the module [Binary64] evaluates
    the pricing functions on doubles where a result is checked at a given
    input.  Where the outcome of the script depends on the rounding (the
    pair-edge check, the rounding to the tick, the bound of the hedge) the
    module [Doubles] gives the code once more on doubles, and the statements
    on these three are about that module.  Values that reach the program from outside before such a test
    (order-book prices, tick sizes, command-line numbers) are of type [num],
    which keeps [NaN] and the two infinities apart from the finite values,
    with the comparisons of IEEE 754 (every comparison with [NaN] is false).
    Timestamps are integral milliseconds ([Z]), within the range of [Date].

    Effects.  The program runs in the monad [M]: a computation takes the
    state shared with the feed handler and the logical step, and yields the
    events it caused, the state it ends in, and a value, a thrown error, or
    [OutOfFuel] when a loop bound is used up.  The exchange, the clock and
    the feed are a [World] that answers each call as a function of the
    logical step.

    Argument parsing, credentials and the feed subscriptions are outside the
    model: [Config] holds the constants of [main] as parsed, and the calls
    that derive the API key and connect the feed only succeed or fail. *)

From Stdlib Require Import ZArith QArith Qround Qabs Qminmax List String Bool Lia Lqa.
From Stdlib Require PrimFloat FloatOps SpecFloat Uint63 FloatAxioms.
Import ListNotations.
Open Scope Q_scope.

(** ** Numbers *)

Module Num.

Inductive num : Type :=
| NaN
| PInf
| NInf
| Fin (q : Q).

Definition Qltb (x y : Q) : bool := negb (Qle_bool y x).

(** [x <= y] on JavaScript numbers *)
Definition leb (x y : num) : bool :=
  match x, y with
  | NaN, _ | _, NaN => false
  | NInf, _ => true
  | _, PInf => true
  | Fin a, Fin b => Qle_bool a b
  | PInf, _ => false
  | Fin _, NInf => false
  end.

(** [x >= y] *)
Definition geb (x y : num) : bool := leb y x.

End Num.
Import Num.

(** ** Pricing and sizing *)

(** The drift guard of [roundDownToTick] and the fill comparisons: [1e-9]. *)
Definition eps : Q := 1 # 1000000000.

(** [10^8], the scale of [toFixed(8)]. *)
Definition scale8 : Q := 100000000 # 1.

(** [Number(x.toFixed(d))] for the scale [s = 10^d]: the multiple of [1/s]
    nearest to [x]; a tie goes to the larger magnitude ([toFixed] formats
    [|x|] and restores the sign). *)
Definition toFixedScale (s : Q) (x : Q) : Q :=
  if Qltb x 0
  then - (inject_Z (Qfloor ((- x) * s + (1 # 2))) / s)
  else inject_Z (Qfloor (x * s + (1 # 2))) / s.

Definition toFixed8 : Q -> Q := toFixedScale scale8.

(** [roundDownToTick(x, tickSize)].  [t] is the tick size after the
    [typeof tickSize === "string" ? Number(tickSize) : tickSize] conversion. *)
Definition roundDownToTick (x : Q) (t : num) : Q :=
  match t with
  | Fin t =>
      if Qle_bool t 0 then x
      else
        let inv := 1 / t in
        let snapped := inject_Z (Qfloor (x * inv + eps)) / inv in
        toFixed8 snapped
  | _ => x
  end.

(** Errors thrown by the script, by cause. *)
Inductive Error : Type :=
| InvalidArgument      (* invalid --price, --duration-min, ..., investUsd, size *)
| InsufficientEdge     (* "Refusing: pair edge too small" *)
| UnsafeQuote          (* "Refusing: detected weird top-of-book quotes" *)
| MissingRequired      (* mustGet *)
| UnparseableIdentifier (* "Cannot parse market start from market slug" *)
| InvalidTimestamp     (* parseIsoMs *)
| ClientError.         (* an exchange-client call rejected *)

Definition scale6 : Q := 1000000 # 1.

(** [computeSizeShares(investUsd, price)] *)
Definition computeSizeShares (investUsd price : num) : Error + Q :=
  match investUsd with
  | Fin u =>
      if Qle_bool u 0 then inl InvalidArgument
      else match price with
           | Fin p =>
               if Qle_bool p 0 then inl InvalidArgument
               else inr (toFixedScale scale6 (u / p))
           | _ => inl InvalidArgument
           end
  | _ => inl InvalidArgument
  end.

(** ** The same arithmetic on binary64

    [roundDownToTick] and the pair edge once more, on the doubles the script
    computes with, to evaluate them at given inputs. *)

Module Binary64.

Import PrimFloat SpecFloat.

(** The double nearest to [n / 10^d], for [0 <= n < 2^53] and [d <= 22]: the
    value of the decimal literal. *)
Definition decimal (n : Z) (d : nat) : float :=
  div (of_uint63 (Uint63.of_Z n)) (of_uint63 (Uint63.of_Z (10 ^ Z.of_nat d))).

(** The double of an integer below [2^53] in magnitude. *)
Definition ofInt (z : Z) : float :=
  if (z <? 0)%Z then opp (of_uint63 (Uint63.of_Z (- z))) else of_uint63 (Uint63.of_Z z).

(** [Math.floor] *)
Definition floor (x : float) : float :=
  match FloatOps.Prim2SF x with
  | S754_finite s m e =>
      if (0 <=? e)%Z then x
      else
        let d := (2 ^ (- e))%Z in
        let q := (Z.pos m / d)%Z in
        if s
        then (if (Z.pos m mod d =? 0)%Z then ofInt (- q) else ofInt (- (q + 1)))
        else ofInt q
  | _ => x
  end.

(** [Number(x.toFixed(8))], for [|x| * 10^8 < 2^53]; [None] beyond. *)
Definition toFixed8 (x : float) : option float :=
  match FloatOps.Prim2SF x with
  | S754_finite s m e =>
      let n := if (0 <=? e)%Z
               then (Z.pos m * 2 ^ e * 10 ^ 8)%Z
               else ((2 * Z.pos m * 10 ^ 8 + 2 ^ (- e)) / 2 ^ (1 - e))%Z in
      if (n <? 2 ^ 53)%Z
      then Some (let r := div (ofInt n) (decimal 100000000 0) in if s then opp r else r)
      else None
  | S754_zero _ => Some x
  | _ => None
  end.

(** [roundDownToTick] on doubles. *)
Definition roundDownToTick (x t : float) : option float :=
  if negb (is_finite t) || leb t zero then Some x
  else
    let inv := div one t in
    let snapped := div (floor (add (mul x inv) (decimal 1 9))) inv in
    toFixed8 snapped.

(** [1 - 2 * PRICE] on doubles. *)
Definition pairEdge (p : float) : float := sub one (mul two p).

End Binary64.

(** ** Configuration

    The constants of [main] as they stand after the command line and the
    environment have been read (the [toNum] ones are finite by construction;
    [ON_SINGLE_FILL] is already lower-cased; numbers read with [Number(...)]
    may be [NaN]). *)

Inductive SingleFillAction : Type := Wait | Cancel | Hedge.

Record Config : Type := {
  UP_TOKEN_ID : string;
  DOWN_TOKEN_ID : string;
  PRICE : num;
  INVEST_PER_SIDE : num;
  sharesArg : option num;             (* Number(sharesArg) when --shares is given *)
  DURATION_MIN : num;
  ALIGN_15M : bool;
  ALIGN_MARKET_START : bool;
  REPEAT : bool;
  POST_ONLY : bool;
  POLL_SEC : Q;
  PAIR_GRACE_SEC : Q;
  ON_SINGLE_FILL : string;
  MIN_EDGE : Q;
  MIN_HEDGE_EDGE : Q;
  ALLOW_WEIRD_QUOTES : bool;
  USE_RTDS : bool;
  SIGNATURE_TYPE : num;
  startAtArg : option (option Z);     (* Date.parse(startAtArg); inner None: not finite *)
  MARKET_SLUG : option num            (* Number(last "-"-separated part) of a non-empty slug *)
}.

Definition parseAction (s : string) : option SingleFillAction :=
  if String.eqb s "wait" then Some Wait
  else if String.eqb s "cancel" then Some Cancel
  else if String.eqb s "hedge" then Some Hedge
  else None.

(** What the checks of [main] establish: the finite values behind [PRICE] and
    [DURATION_MIN], and the policy. *)
Record Checked : Type := {
  price : Q;
  durationMin : Q;
  action : SingleFillAction
}.

(** [1 - 2 * PRICE] *)
Definition pairEdge (p : Q) : Q := 1 - 2 * p.

(** The argument checks of [main], in source order, down to the pair-edge
    circuit breaker. *)
Definition validate (c : Config) : Error + Checked :=
  match PRICE c with
  | Fin p =>
      if Qle_bool p 0 || Qle_bool 1 p then inl InvalidArgument
      else
        match DURATION_MIN c with
        | Fin d =>
            if Qle_bool d 0 then inl InvalidArgument
            else if Qle_bool (POLL_SEC c) 0 then inl InvalidArgument
            else if Qltb (PAIR_GRACE_SEC c) 0 then inl InvalidArgument
            else
              match parseAction (ON_SINGLE_FILL c) with
              | None => inl InvalidArgument
              | Some a =>
                  match SIGNATURE_TYPE c with
                  | Fin g =>
                      if Qeq_bool g 0 || Qeq_bool g 1 || Qeq_bool g 2 then
                        if Qltb (pairEdge p) (MIN_EDGE c) then inl InsufficientEdge
                        else inr {| price := p; durationMin := d; action := a |}
                      else inl InvalidArgument
                  | _ => inl InvalidArgument
                  end
              end
        | _ => inl InvalidArgument
        end
  | _ => inl InvalidArgument
  end.

(** ** Window scheduler *)

(** The repeat period, [15 * 60 * 1000] ms. *)
Definition periodMs : Z := (15 * 60 * 1000)%Z.

(** [ceilToWindowMs(nowMs, windowMinutes)] on integral milliseconds. *)
Definition ceilToWindowMs (nowMs windowMinutes : Z) : Z :=
  let windowMs := (windowMinutes * 60 * 1000)%Z in
  (Qceiling (inject_Z nowMs / inject_Z windowMs) * windowMs)%Z.

(** [parseMarketStartFromSlugMs], from [sec = Number(last)]. *)
Definition parseMarketStartFromSlugMs (sec : num) : Error + Z :=
  match sec with
  | Fin s => if Qle_bool s 0 then inl UnparseableIdentifier
             else inr (Qfloor (s * 1000))
  | _ => inl UnparseableIdentifier
  end.

(** ** Exchange data *)

Record Level : Type := { lv_price : num; lv_size : num }.

Record OrderBookSummary : Type := {
  bids : option (list Level);
  asks : option (list Level)
}.

Record Top : Type := {
  bestBid : option num;
  bestAsk : option num;
  bidSize : option num;
  askSize : option num
}.

(** [ob.side?.length ? Number(ob.side[0].f) : null] *)
Definition topOf (side : option (list Level)) (f : Level -> num) : option num :=
  match side with
  | Some (l :: _) => Some (f l)
  | _ => None
  end.

Definition parseOrderBookTop (ob : OrderBookSummary) : Top :=
  {| bestBid := topOf (bids ob) lv_price;
     bestAsk := topOf (asks ob) lv_price;
     bidSize := topOf (bids ob) lv_size;
     askSize := topOf (asks ob) lv_size |}.

(** [isWeird] of the pre-trade check. *)
Definition isWeird (x : option num) : bool :=
  match x with
  | None => false
  | Some v => leb v (Fin 0) || geb v (Fin 1)
  end.

Definition weirdQuotes (upTop downTop : Top) : bool :=
  isWeird (bestAsk upTop) || isWeird (bestBid upTop)
  || isWeird (bestAsk downTop) || isWeird (bestBid downTop).

(** An open order as [getOrder] reports it, its two sizes after [Number()]. *)
Record OpenOrder : Type := { size_matched : num; original_size : num }.

Definition finiteOr0 (x : num) : Q :=
  match x with Fin q => q | _ => 0 end.

Definition parseMatchedShares (order : option OpenOrder) : Q :=
  match order with
  | None => 0
  | Some o => finiteOr0 (size_matched o)
  end.

Definition parseOriginalShares (order : option OpenOrder) : Q :=
  match order with
  | None => 0
  | Some o => finiteOr0 (original_size o)
  end.

(** [a || b] on numbers: [b] when [a] is zero. *)
Definition orElse (a b : Q) : Q := if Qeq_bool a 0 then b else a.

Record Market : Type := { tickSize : num; negRisk : bool }.

(** The arguments of one [createAndPostOrder] call (always a GTC buy). *)
Record OrderReq : Type := {
  r_tokenID : string;
  r_price : Q;
  r_size : Q;
  r_tickSize : num;
  r_negRisk : bool;
  r_postOnly : bool
}.

(** ** Fill classification (the pair state of one observation) *)

Record PairState : Type := {
  upMatched : Q;
  downMatched : Q;
  upOrig : Q;
  downOrig : Q
}.

Definition readPair (size : Q) (upOrder downOrder : option OpenOrder) : PairState :=
  {| upMatched := parseMatchedShares upOrder;
     downMatched := parseMatchedShares downOrder;
     upOrig := orElse (parseOriginalShares upOrder) size;
     downOrig := orElse (parseOriginalShares downOrder) size |}.

Definition upFull (p : PairState) : bool := Qle_bool (upOrig p) (upMatched p + eps).
Definition downFull (p : PairState) : bool := Qle_bool (downOrig p) (downMatched p + eps).
Definition bothFull (p : PairState) : bool := upFull p && downFull p.
Definition upSome (p : PairState) : bool := Qltb eps (upMatched p).
Definition downSome (p : PairState) : bool := Qltb eps (downMatched p).
Definition oneSome (p : PairState) : bool :=
  (upSome p && negb (downSome p)) || (negb (upSome p) && downSome p).

Inductive SideLabel : Type := UP | DOWN.

Definition filledSide (p : PairState) : SideLabel :=
  if Qltb (downMatched p) (upMatched p) then UP else DOWN.

Definition missingShares (p : PairState) : Q := Qabs (upMatched p - downMatched p).

(** ** The outside world and the effect monad

    Every interaction with the outside (a clock reading, an exchange-client
    call, a sleep) takes the next logical step [clk]; the world answers as a
    function of that step and of the request.  Calls the program awaits may
    let the realtime feed deliver a message first, which sets
    [rtdsTriggered] (the [onMessage] handler); [Date.now()] and [connect()]
    are synchronous.  Log lines are recorded without their timestamp. *)

Record World : Type := {
  now : nat -> Z;                                        (* Date.now() *)
  walletOk : bool;                                       (* new Wallet(privateKey) *)
  createOrDeriveApiKey : nat -> bool;                    (* with the three mustGet checks *)
  getMarket : nat -> string -> option Market;            (* None: rejects *)
  getOrderBook : nat -> string -> option OrderBookSummary;
  createAndPostOrder : nat -> OrderReq -> option string; (* the orderID; None: rejects *)
  getOrder : nat -> string -> option OpenOrder;
  cancelOrder : nat -> string -> bool;                   (* false: rejects *)
  rtdsConnect : nat -> bool;                             (* false: throws *)
  rtdsDisconnect : nat -> bool;
  rtdsMessage : nat -> bool          (* a clob_user message arrives during this await *)
}.

Inductive Log : Type :=
| LInitializing
| LReinitializing
| LFetchingMetadata
| LWaiting (delay : Z)
| LPlacing
| LUpOrder (id : string)
| LDownOrder (id : string)
| LWillCancel (cancelAtMs : Q)
| LRtdsInitFailed
| LBothFull (upMatched downMatched : Q)
| LSingleFill (upMatched downMatched : Q)
| LGraceElapsed (side : SideLabel) (missing : Q) (a : SingleFillAction)
| LCancelUnfilled (id : string) (ok : bool)
| LHedgeSkippedNoAsk
| LHedgeSkippedEdge (bestAsk maxOtherPrice : Q)
| LHedging (token : string) (shares hedgePrice : Q)
| LHedgePosted (id : string)
| LHedgeFailed
| LCancelling
| LCancelResult (id : string) (ok : bool)
| LDone.

Inductive Event : Type :=
| EWindow (windowStartMs : Z)        (* runOneWindow is entered *)
| ECreds
| EGetMarket (token : string)
| EGetOrderBook (token : string)
| ESleep (ms : Q)
| EPost (r : OrderReq)
| EGetOrder (id : string)
| ECancel (id : string)
| EConnect
| EDisconnect
| ELog (l : Log).

(** The state the program and the feed handler share, and the logical step. *)
Record St : Type := {
  clk : nat;
  feed : bool;            (* rtdClient is set *)
  rtdsTriggered : bool
}.

Inductive Res (A : Type) : Type :=
| Ok (a : A)
| Throw (e : Error)
| OutOfFuel.
Arguments Ok {A} a.
Arguments Throw {A} e.
Arguments OutOfFuel {A}.

(** What a computation leaves behind: the events it caused (oldest first),
    the state it ends in, and how it ended. *)
Record Out (A : Type) : Type := {
  events : list Event;
  final : St;
  result : Res A
}.
Arguments events {A} o.
Arguments final {A} o.
Arguments result {A} o.

Definition M (A : Type) : Type := St -> Out A.

Definition ret {A} (a : A) : M A :=
  fun s => {| events := []; final := s; result := Ok a |}.

Definition bind {A B} (m : M A) (f : A -> M B) : M B :=
  fun s =>
    let o := m s in
    match result o with
    | Ok a =>
        let o2 := f a (final o) in
        {| events := events o ++ events o2; final := final o2; result := result o2 |}
    | Throw e => {| events := events o; final := final o; result := Throw e |}
    | OutOfFuel => {| events := events o; final := final o; result := OutOfFuel |}
    end.

Definition throw {A} (e : Error) : M A :=
  fun s => {| events := []; final := s; result := Throw e |}.

Definition outOfFuel {A} : M A :=
  fun s => {| events := []; final := s; result := OutOfFuel |}.

Declare Scope m_scope.
Delimit Scope m_scope with M.
Notation "x <- c1 ;; c2" := (bind c1 (fun x => c2))
  (at level 61, c1 at next level, right associativity) : m_scope.
Notation "c1 ;; c2" := (bind c1 (fun _ => c2))
  (at level 61, right associativity) : m_scope.
Open Scope m_scope.

Definition emit (e : Event) : M unit :=
  fun s => {| events := [e]; final := s; result := Ok tt |}.

Definition log (l : Log) : M unit := emit (ELog l).

Definition liftE {A} (r : Error + A) : M A :=
  match r with inl e => throw e | inr a => ret a end.

Definition setFeed (b : bool) : M unit :=
  fun s => {| events := [];
              final := {| clk := clk s; feed := b; rtdsTriggered := rtdsTriggered s |};
              result := Ok tt |}.

Definition getFeed : M bool :=
  fun s => {| events := []; final := s; result := Ok (feed s) |}.

Definition getTriggered : M bool :=
  fun s => {| events := []; final := s; result := Ok (rtdsTriggered s) |}.

Definition setTriggered (b : bool) : M unit :=
  fun s => {| events := [];
              final := {| clk := clk s; feed := feed s; rtdsTriggered := b |};
              result := Ok tt |}.

Section Program.

Variable w : World.
Variable cfg : Config.
Variable chk : Checked.

(** A synchronous call answered by the world at the current step. *)
Definition call {A} (f : nat -> A) : M A :=
  fun s => {| events := [];
              final := {| clk := S (clk s); feed := feed s;
                          rtdsTriggered := rtdsTriggered s |};
              result := Ok (f (clk s)) |}.

(** An awaited call: while the program is suspended the feed, when
    connected, may deliver a message. *)
Definition await {A} (f : nat -> A) : M A :=
  fun s => {| events := [];
              final := {| clk := S (clk s); feed := feed s;
                          rtdsTriggered :=
                            rtdsTriggered s || (feed s && rtdsMessage w (clk s)) |};
              result := Ok (f (clk s)) |}.

Definition dateNow : M Z := call (now w).

Definition sleep (ms : Q) : M unit := emit (ESleep ms) ;; await (fun _ => tt).

(** An awaited client call that rejects when the world answers [None]. *)
Definition orThrow {A} (r : option A) : M A :=
  match r with Some a => ret a | None => throw ClientError end.

Definition clientGetMarket (token : string) : M Market :=
  emit (EGetMarket token) ;; r <- await (fun n => getMarket w n token) ;; orThrow r.

Definition clientGetOrderBook (token : string) : M OrderBookSummary :=
  emit (EGetOrderBook token) ;; r <- await (fun n => getOrderBook w n token) ;; orThrow r.

(** [createAndPostOrder]; [None] stands for a rejection, which the caller
    either propagates or catches. *)
Definition clientPost (r : OrderReq) : M (option string) :=
  emit (EPost r) ;; await (fun n => createAndPostOrder w n r).

(** [safeGetOrder]: a rejected read is [null]. *)
Definition safeGetOrder (orderID : string) : M (option OpenOrder) :=
  emit (EGetOrder orderID) ;; await (fun n => getOrder w n orderID).

(** [cancelBestEffort]: never throws; reports [ok]. *)
Definition cancelBestEffort (orderID : string) : M bool :=
  emit (ECancel orderID) ;; await (fun n => cancelOrder w n orderID).

(** *** One window *)

(** The constants of [runOneWindow] once both legs are placed. *)
Record Placed : Type := {
  upTickSize : num;
  downTickSize : num;
  upNegRisk : bool;
  downNegRisk : bool;
  size : Q;
  upId : string;         (* upResp.orderID *)
  downId : string;       (* downResp.orderID *)
  orderIds : list string;
  cancelAtMs : Q
}.

(** The two mutable locals of the safety loop. *)
Record Locals : Type := {
  firstSingleFillAtMs : option Z;
  actedOnSingleFill : bool
}.

Definition maxOtherPrice : Q := 1 - price chk - MIN_HEDGE_EDGE cfg.

(** The [hedge] branch. *)
Definition hedge (pl : Placed) (ps : PairState) : M unit :=
  let otherToken := match filledSide ps with UP => DOWN_TOKEN_ID cfg | DOWN => UP_TOKEN_ID cfg end in
  let otherTick := match filledSide ps with UP => downTickSize pl | DOWN => upTickSize pl end in
  let otherNegRisk := match filledSide ps with UP => downNegRisk pl | DOWN => upNegRisk pl end in
  otherBook <- clientGetOrderBook otherToken ;;
  let otherTop := parseOrderBookTop otherBook in
  match bestAsk otherTop with
  | Some (Fin a) =>
      if Qltb maxOtherPrice a then log (LHedgeSkippedEdge a maxOtherPrice)
      else
        let hedgePrice := roundDownToTick maxOtherPrice otherTick in
        log (LHedging otherToken (missingShares ps) hedgePrice) ;;
        hedgeResp <- clientPost {| r_tokenID := otherToken; r_price := hedgePrice;
                                   r_size := missingShares ps; r_tickSize := otherTick;
                                   r_negRisk := otherNegRisk; r_postOnly := false |} ;;
        match hedgeResp with
        | Some id => log (LHedgePosted id)
        | None => log LHedgeFailed
        end
  | _ => log LHedgeSkippedNoAsk
  end.

(** The body of [if (elapsed >= PAIR_GRACE_SEC)], after the latch is set. *)
Definition mitigate (pl : Placed) (ps : PairState) : M unit :=
  log (LGraceElapsed (filledSide ps) (missingShares ps) (action chk)) ;;
  match action chk with
  | Wait => ret tt
  | Cancel =>
      let unfilledOrderId := match filledSide ps with UP => downId pl | DOWN => upId pl end in
      r <- cancelBestEffort unfilledOrderId ;;
      log (LCancelUnfilled unfilledOrderId r)
  | Hedge => hedge pl ps
  end.

(** The body of [if (oneSome && !actedOnSingleFill)]. *)
Definition singleFill (pl : Placed) (ps : PairState) (ls : Locals) : M Locals :=
  first <- match firstSingleFillAtMs ls with
           | None =>
               t <- dateNow ;;
               log (LSingleFill (upMatched ps) (downMatched ps)) ;;
               ret t
           | Some t => ret t
           end ;;
  t <- dateNow ;;
  let elapsed := inject_Z (t - first) / 1000 in
  if Qle_bool (PAIR_GRACE_SEC cfg) elapsed
  then mitigate pl ps ;;
       ret {| firstSingleFillAtMs := Some first; actedOnSingleFill := true |}
  else ret {| firstSingleFillAtMs := Some first; actedOnSingleFill := actedOnSingleFill ls |}.

Inductive Ctl : Type := Break | Continue.

(** One pass through the body of [while (Date.now() < cancelAtMs)]. *)
Definition iteration (pl : Placed) (ls : Locals) : M (Ctl * Locals) :=
  connected <- getFeed ;;
  triggered <- getTriggered ;;
  if USE_RTDS cfg && connected && negb triggered
  then sleep (Qmax (POLL_SEC cfg) 3 * 1000) ;; ret (Continue, ls)
  else
    (if USE_RTDS cfg && connected then setTriggered false else ret tt) ;;
    upOrder <- safeGetOrder (upId pl) ;;
    downOrder <- safeGetOrder (downId pl) ;;
    let ps := readPair (size pl) upOrder downOrder in
    if bothFull ps
    then log (LBothFull (upMatched ps) (downMatched ps)) ;; ret (Break, ls)
    else
      ls' <- (if oneSome ps && negb (actedOnSingleFill ls)
              then singleFill pl ps ls
              else ret ls) ;;
      sleep (POLL_SEC cfg * 1000) ;;
      ret (Continue, ls').

(** The safety loop; [fuel] bounds the number of passes. *)
Fixpoint monitor (fuel : nat) (pl : Placed) (ls : Locals) : M Locals :=
  match fuel with
  | O => outOfFuel
  | S fuel' =>
      t <- dateNow ;;
      if Qltb (inject_Z t) (cancelAtMs pl)
      then
        r <- iteration pl ls ;;
        match r with
        | (Break, ls') => ret ls'
        | (Continue, ls') => monitor fuel' pl ls'
        end
      else ret ls
  end.

(** [for (const id of orderIds)] of the closing sweep. *)
Fixpoint cancelAll (ids : list string) : M unit :=
  match ids with
  | [] => ret tt
  | id :: rest =>
      r <- cancelBestEffort id ;;
      log (LCancelResult id r) ;;
      cancelAll rest
  end.

(** What follows the safety loop: disconnect, then the closing sweep. *)
Definition closing (pl : Placed) : M unit :=
  connected <- getFeed ;;
  (if connected
   then emit EDisconnect ;; _ <- call (rtdsDisconnect w) ;; ret tt
   else ret tt) ;;
  log LCancelling ;;
  cancelAll (orderIds pl).

(** [runOneWindow] from the head of the safety loop on. *)
Definition finishWindow (fuel : nat) (pl : Placed) (ls : Locals) : M unit :=
  _ <- monitor fuel pl ls ;;
  closing pl.

(** [runOneWindow] up to the start of the safety loop: metadata, prices
    and size, the quote sanity check, the wait for the window start, the
    two legs, the deadline and the feed. *)
Definition placement (windowStartMs : Z) : M Placed :=
  setFeed false ;; setTriggered false ;;   (* this window's own rtdClient, rtdsTriggered *)
  log LInitializing ;;
  emit ECreds ;;
  ok <- await (createOrDeriveApiKey w) ;;
  (if ok then ret tt else throw ClientError) ;;
  log LReinitializing ;;
  log LFetchingMetadata ;;
  upMarket <- clientGetMarket (UP_TOKEN_ID cfg) ;;
  downMarket <- clientGetMarket (DOWN_TOKEN_ID cfg) ;;
  let upPrice := roundDownToTick (price chk) (tickSize upMarket) in
  let downPrice := roundDownToTick (price chk) (tickSize downMarket) in
  sizeN <- match sharesArg cfg with
           | Some n => ret n
           | None => q <- liftE (computeSizeShares (INVEST_PER_SIDE cfg) (Fin (price chk))) ;;
                     ret (Fin q)
           end ;;
  size <- match sizeN with
          | Fin q => if Qle_bool q 0 then throw InvalidArgument else ret q
          | _ => throw InvalidArgument
          end ;;
  upBook <- clientGetOrderBook (UP_TOKEN_ID cfg) ;;
  downBook <- clientGetOrderBook (DOWN_TOKEN_ID cfg) ;;
  let upTop := parseOrderBookTop upBook in
  let downTop := parseOrderBookTop downBook in
  (if negb (ALLOW_WEIRD_QUOTES cfg) && weirdQuotes upTop downTop
   then throw UnsafeQuote else ret tt) ;;
  t <- dateNow ;;
  let delay := (windowStartMs - t)%Z in
  (if (0 <? delay)%Z then log (LWaiting delay) ;; sleep (inject_Z delay) else ret tt) ;;
  log LPlacing ;;
  let orderIds := [] in
  upResp <- clientPost {| r_tokenID := UP_TOKEN_ID cfg; r_price := upPrice; r_size := size;
                          r_tickSize := tickSize upMarket; r_negRisk := negRisk upMarket;
                          r_postOnly := POST_ONLY cfg |} ;;
  upResp <- orThrow upResp ;;
  log (LUpOrder upResp) ;;
  let orderIds := orderIds ++ [upResp] in
  downResp <- clientPost {| r_tokenID := DOWN_TOKEN_ID cfg; r_price := downPrice; r_size := size;
                            r_tickSize := tickSize downMarket; r_negRisk := negRisk downMarket;
                            r_postOnly := POST_ONLY cfg |} ;;
  downResp <- orThrow downResp ;;
  log (LDownOrder downResp) ;;
  let orderIds := orderIds ++ [downResp] in
  t <- dateNow ;;
  let cancelAtMs := inject_Z t + durationMin chk * 60 * 1000 in
  log (LWillCancel cancelAtMs) ;;
  (if USE_RTDS cfg
   then emit EConnect ;;
        ok <- call (rtdsConnect w) ;;
        if ok then setFeed true else log LRtdsInitFailed
   else ret tt) ;;
  ret {| upTickSize := tickSize upMarket; downTickSize := tickSize downMarket;
         upNegRisk := negRisk upMarket; downNegRisk := negRisk downMarket;
         size := size; upId := upResp; downId := downResp;
         orderIds := orderIds; cancelAtMs := cancelAtMs |}.

Definition initLocals : Locals :=
  {| firstSingleFillAtMs := None; actedOnSingleFill := false |}.

(** [runOneWindow({ windowStartMs })]; [fuel] bounds the safety loop. *)
Definition runOneWindow (fuel : nat) (windowStartMs : Z) : M unit :=
  emit (EWindow windowStartMs) ;;
  pl <- placement windowStartMs ;;
  finishWindow fuel pl initLocals.

(** The [while (true)] of repeat mode, for at most [windows] windows. *)
Fixpoint repeatLoop (windows fuel : nat) (firstWindowStartMs : Z) : M unit :=
  match windows with
  | O => outOfFuel
  | S n =>
      let nextStart := (firstWindowStartMs + 15 * 60 * 1000)%Z in
      runOneWindow fuel nextStart ;;
      repeatLoop n fuel nextStart
  end.

(** The choice of [firstWindowStartMs]. *)
Definition resolveStart : M Z :=
  match startAtArg cfg with
  | Some (Some ms) => ret ms
  | Some None => throw InvalidTimestamp
  | None =>
      if ALIGN_MARKET_START cfg then
        match MARKET_SLUG cfg with
        | None => throw MissingRequired
        | Some sec => liftE (parseMarketStartFromSlugMs sec)
        end
      else if ALIGN_15M cfg then t <- dateNow ;; ret (ceilToWindowMs t 15)
      else dateNow
  end.

(** [main] after its argument checks. *)
Definition mainChecked (windows fuel : nat) : M unit :=
  (if walletOk w then ret tt else throw InvalidArgument) ;;
  firstWindowStartMs <- resolveStart ;;
  if negb (REPEAT cfg)
  then runOneWindow fuel firstWindowStartMs ;; log LDone
  else repeatLoop windows fuel firstWindowStartMs.

End Program.

(** [main], from its argument checks on. *)
Definition main (w : World) (cfg : Config) (windows fuel : nat) : M unit :=
  match validate cfg with
  | inl e => throw e
  | inr chk => mainChecked w cfg chk windows fuel
  end.

Definition initSt : St :=
  {| clk := O; feed := false; rtdsTriggered := false |}.

(** ** Reading traces *)

Definition isGraceElapsed (e : Event) : bool :=
  match e with ELog (LGraceElapsed _ _ _) => true | _ => false end.

Definition isPost (e : Event) : bool :=
  match e with EPost _ => true | _ => false end.

Definition isCancelOf (id : string) (e : Event) : bool :=
  match e with ECancel i => String.eqb i id | _ => false end.

Definition count (p : Event -> bool) (l : list Event) : nat := List.length (filter p l).

(** The order ids of the cancel requests of a trace, in order. *)
Fixpoint cancelIds (l : list Event) : list string :=
  match l with
  | [] => []
  | ECancel i :: r => i :: cancelIds r
  | _ :: r => cancelIds r
  end.

(** The window starts of a trace, in order. *)
Fixpoint windowStarts (l : list Event) : list Z :=
  match l with
  | [] => []
  | EWindow z :: r => z :: windowStarts r
  | _ :: r => windowStarts r
  end.

(** ** Example inputs *)

Open Scope string_scope.

(** A configuration with the script's defaults, for a price, a policy, a
    grace period, and with or without repeat mode and the feed. *)
Definition exampleConfig (p : Q) (policy : string) (grace : Q) (repeat rtds : bool) : Config :=
  {| UP_TOKEN_ID := "UP"; DOWN_TOKEN_ID := "DOWN";
     PRICE := Fin p; INVEST_PER_SIDE := Fin 5; sharesArg := None;
     DURATION_MIN := Fin 15; ALIGN_15M := false; ALIGN_MARKET_START := false;
     REPEAT := repeat; POST_ONLY := true; POLL_SEC := 3; PAIR_GRACE_SEC := grace;
     ON_SINGLE_FILL := policy; MIN_EDGE := 5 # 1000; MIN_HEDGE_EDGE := 2 # 1000;
     ALLOW_WEIRD_QUOTES := false; USE_RTDS := rtds; SIGNATURE_TYPE := Fin 0;
     startAtArg := None; MARKET_SLUG := None |}.

Definition exampleChecked (p : Q) (a : SingleFillAction) : Checked :=
  {| price := p; durationMin := 15; action := a |}.

Definition level (p : Q) : Level := {| lv_price := Fin p; lv_size := Fin 10 |}.

Definition bookOf (bid ask : Q) : OrderBookSummary :=
  {| bids := Some [level bid]; asks := Some [level ask] |}.

Definition emptyBook : OrderBookSummary := {| bids := Some []; asks := None |}.

Definition order (matched original : Q) : OpenOrder :=
  {| size_matched := Fin matched; original_size := Fin original |}.

(** A world with tick size 0.01 on both tokens, in which every call
    succeeds: the legs get the ids U and D, any order that is not post-only
    the id H; the clock, the order reads and the books are given. *)
Definition exampleWorld (clock : nat -> Z)
    (orders : nat -> string -> option OpenOrder)
    (books : string -> OrderBookSummary) : World :=
  {| now := clock;
     walletOk := true;
     createOrDeriveApiKey := fun _ => true;
     getMarket := fun _ _ => Some {| tickSize := Fin (1 # 100); negRisk := false |};
     getOrderBook := fun _ token => Some (books token);
     createAndPostOrder := fun _ r =>
       Some (if r_postOnly r
             then (if String.eqb (r_tokenID r) "UP" then "U" else "D")
             else "H");
     getOrder := orders;
     cancelOrder := fun _ _ => true;
     rtdsConnect := fun _ => true;
     rtdsDisconnect := fun _ => true;
     rtdsMessage := fun _ => false |}.

(** A clock that stays at [1000] ms for the first [n] steps and is past any
    15-minute deadline afterwards. *)
Definition clockUntil (n : nat) : nat -> Z :=
  fun k => if Nat.ltb k n then 1000%Z else 2000000%Z.

(** A clock that advances 1000 seconds per step. *)
Definition fastClock : nat -> Z := fun k => (Z.of_nat k * 1000000)%Z.

(** UP has 5 of 10 shares matched from the start, DOWN none. *)
Definition upHalfFilled : nat -> string -> option OpenOrder :=
  fun _ id => if String.eqb id "U" then Some (order 5 10) else Some (order 0 10).


Definition noOrders : nat -> string -> option OpenOrder := fun _ _ => None.

(** A placed pair of 10 shares a leg with the ids U and D and the deadline at
    901 s. *)
Definition examplePlaced : Placed :=
  {| upTickSize := Fin (1 # 100); downTickSize := Fin (1 # 100);
     upNegRisk := false; downNegRisk := false;
     size := 10; upId := "U"; downId := "D"; orderIds := ["U"; "D"];
     cancelAtMs := 901000 |}.

(** Both legs are fully filled. *)
Definition bothFilled : nat -> string -> option OpenOrder :=
  fun _ _ => Some (order 10 10).

(** The ids of the hedge orders a trace reports as posted, in order. *)
Fixpoint hedgeIds (l : list Event) : list string :=
  match l with
  | [] => []
  | ELog (LHedgePosted i) :: r => i :: hedgeIds r
  | _ :: r => hedgeIds r
  end.

(** * Vocabulary of the statements *)

(** The tick count [k] that [roundDownToTick] selects: [floor(x * (1/t) + 1e-9)]. *)
Definition tickIndex (x t : Q) : Z := Qfloor (x * (1 / t) + eps).

(** Every event a computation causes satisfies [P], from any state. *)
Definition Emits {A} (P : Event -> Prop) (m : M A) : Prop :=
  forall s, Forall P (events (m s)).

Definition notWindow (e : Event) : Prop :=
  match e with EWindow _ => False | _ => True end.

(** Neither a grace-elapsed line, nor an order, nor a cancel request. *)
Definition quiet (e : Event) : Prop :=
  match e with
  | ELog (LGraceElapsed _ _ _) | EPost _ | ECancel _ | EWindow _ => False
  | _ => True
  end.

(** As [quiet], cancel requests allowed. *)
Definition closingOnly (e : Event) : Prop :=
  match e with
  | ELog (LGraceElapsed _ _ _) | EPost _ | EWindow _ => False
  | _ => True
  end.

Definition isCancel (e : Event) : bool :=
  match e with ECancel _ => true | _ => false end.

(** The mitigations still allowed: one until the latch is set, none after. *)
Definition budget (ls : Locals) : nat := if actedOnSingleFill ls then 0 else 1.

(** [Latch g a post m].  [g] is the number of times the mitigation block
    may still run and [a] the number of actions (orders, cancel requests)
    still allowed; each run of the block allows one action.  [m] stays
    within [g] and [a], and when it returns [x] it leaves [post x] for what
    follows. *)
Definition Latch {A} (g a : nat) (post : A -> nat * nat) (m : M A) : Prop :=
  forall s,
    let G := count isGraceElapsed (events (m s)) in
    let N := (count isPost (events (m s)) + count isCancel (events (m s)))%nat in
    let left := match result (m s) with Ok x => post x | _ => (O, O) end in
    (G + fst left <= g)%nat /\ (N + snd left <= a + G)%nat.

(** Neither a window start nor a grace-elapsed line. *)
Definition plain (e : Event) : Prop :=
  match e with
  | EWindow _ | ELog (LGraceElapsed _ _ _) => False
  | _ => True
  end.

(** The start of the window with index [k] (from 0), one period per window
    after the anchor. *)
Definition startOf (anchor : Z) (k : nat) : Z :=
  (anchor + (Z.of_nat k + 1) * periodMs)%Z.

(** [Graces n m]: [m] runs the mitigation block at most [n] times. *)
Definition Graces {A} (n : nat) (m : M A) : Prop :=
  forall s, (count isGraceElapsed (events (m s)) <= n)%nat.

(** [o] with the events [ev] put in front. *)
Definition andThen {A} (ev : list Event) (o : Out A) : Out A :=
  {| events := ev ++ events o; final := final o; result := result o |}.

(** [m] never turns the logical clock back and does not run out of fuel. *)
Definition Ticks {A} (m : M A) : Prop :=
  forall s, (clk s <= clk (final (m s)))%nat /\ result (m s) <> OutOfFuel.

Section Vocabulary.

Variable w : World.
Variable cfg : Config.
Variable chk : Checked.

(** The pair state that a pass of the loop entered at state [s] reads. *)
Definition observed (pl : Placed) (s : St) : PairState :=
  readPair (size pl) (getOrder w (S (clk s)) (upId pl))
                     (getOrder w (S (S (clk s))) (downId pl)).

(** What the single-fill branch entered at state [s] uses as the start of
    the grace period: the recorded one, or the clock now. *)
Definition graceStart (ls : Locals) (s : St) : Z :=
  match firstSingleFillAtMs ls with
  | Some t => t
  | None => now w (clk s)
  end.

(** The step at which that branch reads the clock for [elapsed]. *)
Definition elapsedStep (ls : Locals) (s : St) : nat :=
  match firstSingleFillAtMs ls with
  | Some _ => clk s
  | None => S (clk s)
  end.

Definition elapsedAt (ls : Locals) (s : St) : Q :=
  inject_Z (now w (elapsedStep ls s) - graceStart ls s) / 1000.

(** The line that starts the grace timer, when it is not yet running. *)
Definition timerLine (ls : Locals) (ps : PairState) : list Event :=
  match firstSingleFillAtMs ls with
  | Some _ => []
  | None => [ELog (LSingleFill (upMatched ps) (downMatched ps))]
  end.

Definition otherTokenOf (ps : PairState) : string :=
  match filledSide ps with UP => DOWN_TOKEN_ID cfg | DOWN => UP_TOKEN_ID cfg end.

Definition otherTickOf (pl : Placed) (ps : PairState) : num :=
  match filledSide ps with UP => downTickSize pl | DOWN => upTickSize pl end.

Definition otherNegRiskOf (pl : Placed) (ps : PairState) : bool :=
  match filledSide ps with UP => downNegRisk pl | DOWN => upNegRisk pl end.

(** The order the hedge branch submits. *)
Definition hedgeOrder (pl : Placed) (ps : PairState) : OrderReq :=
  {| r_tokenID := otherTokenOf ps;
     r_price := roundDownToTick (1 - price chk - MIN_HEDGE_EDGE cfg) (otherTickOf pl ps);
     r_size := Qabs (upMatched ps - downMatched ps);
     r_tickSize := otherTickOf pl ps;
     r_negRisk := otherNegRiskOf pl ps;
     r_postOnly := false |}.

(** The size [runOneWindow] asks for, before its [size > 0] check. *)
Definition requestedSize : Error + num :=
  match sharesArg cfg with
  | Some n => inr n
  | None =>
      match computeSizeShares (INVEST_PER_SIDE cfg) (Fin (price chk)) with
      | inl e => inl e
      | inr q => inr (Fin q)
      end
  end.

End Vocabulary.

(** * The command line

    [getArgValue] on its own, over the argument vector; [Config] still holds
    the constants of [main] as they stand once the arguments are read. *)

(** [argv.indexOf(flag)]: the first position holding [flag]. *)
Fixpoint indexOf (flag : string) (argv : list string) : option nat :=
  match argv with
  | [] => None
  | a :: rest =>
      if String.eqb a flag then Some O
      else match indexOf flag rest with
           | Some i => Some (S i)
           | None => None
           end
  end.

(** [getArgValue(flag)], with [process.argv] as [argv]. *)
Definition getArgValue (argv : list string) (flag : string) : option string :=
  match indexOf flag argv with
  | None => None
  | Some idx =>
      match nth_error argv (idx + 1) with
      | None => None
      | Some val => if String.prefix "--" val then None else Some val
      end
  end.

(** * Further vocabulary *)

(** Every value [m] returns satisfies [Q]. *)
Definition Returns {A} (Q : A -> Prop) (m : M A) : Prop :=
  forall s a, result (m s) = Ok a -> Q a.

(** The loop's locals [ls'] carry on from [ls]: a running timer keeps its
    start and a set latch stays set. *)
Definition carriesOn (ls ls' : Locals) : Prop :=
  (forall t, firstSingleFillAtMs ls = Some t -> firstSingleFillAtMs ls' = Some t)
  /\ (actedOnSingleFill ls = true -> actedOnSingleFill ls' = true).


(** The steps [placement] entered at [s] takes before it submits the UP
    leg: the key, the two markets, the two books and the clock, and one
    more for the sleep when the window start lies ahead. *)
Definition stepsToPlacing (w : World) (windowStartMs : Z) (s : St) : nat :=
  if (0 <? windowStartMs - now w (5 + clk s))%Z then 7 else 6.

(** [wd], except that the exchange rejects every order for [token]. *)
Definition rejectingOrdersFor (token : string) (wd : World) : World :=
  {| now := now wd;
     walletOk := walletOk wd;
     createOrDeriveApiKey := createOrDeriveApiKey wd;
     getMarket := getMarket wd;
     getOrderBook := getOrderBook wd;
     createAndPostOrder := fun n r =>
       if String.eqb (r_tokenID r) token then None else createAndPostOrder wd n r;
     getOrder := getOrder wd;
     cancelOrder := cancelOrder wd;
     rtdsConnect := rtdsConnect wd;
     rtdsDisconnect := rtdsDisconnect wd;
     rtdsMessage := rtdsMessage wd |}.

Definition isDone (e : Event) : bool :=
  match e with ELog LDone => true | _ => false end.

(** The state [n] logical steps after [s]. *)
Definition later (n : nat) (s : St) : St :=
  {| clk := n + clk s; feed := feed s; rtdsTriggered := rtdsTriggered s |}.

(** [wd], except that the exchange rejects every book read. *)
Definition withoutBooks (wd : World) : World :=
  {| now := now wd;
     walletOk := walletOk wd;
     createOrDeriveApiKey := createOrDeriveApiKey wd;
     getMarket := getMarket wd;
     getOrderBook := fun _ _ => None;
     createAndPostOrder := createAndPostOrder wd;
     getOrder := getOrder wd;
     cancelOrder := cancelOrder wd;
     rtdsConnect := rtdsConnect wd;
     rtdsDisconnect := rtdsDisconnect wd;
     rtdsMessage := rtdsMessage wd |}.

(** * The JavaScript variant's repeat loop

    The plain JavaScript variant with the feed has the [runOneWindow] of the
    TypeScript one, up to the types (a tick size given as text is not
    converted there, so it is not a finite number for [roundDownToTick]:
    the world's [tickSize] is the number the snapping sees); its repeat loop
    takes every window start from the clock. *)

(** [while (true) { const nextStart = ceilToWindowMs(Date.now(), 15); await
    runOneWindow({ windowStartMs: nextStart }); }], for at most [windows]
    windows. *)
Fixpoint repeatLoopAligned (w : World) (cfg : Config) (chk : Checked)
    (windows fuel : nat) : M unit :=
  match windows with
  | O => outOfFuel
  | S n =>
      t <- dateNow w ;;
      let nextStart := ceilToWindowMs t 15 in
      runOneWindow w cfg chk fuel nextStart ;;
      repeatLoopAligned w cfg chk n fuel
  end.

(** [m] never turns the logical clock back. *)
Definition Forward {A} (m : M A) : Prop :=
  forall s, (clk s <= clk (final (m s)))%nat.

(** The steps [ks] come one after another, the first not before [lo]. *)
Fixpoint inOrderFrom (lo : nat) (ks : list nat) : Prop :=
  match ks with
  | [] => True
  | k :: rest => (lo <= k)%nat /\ inOrderFrom (S k) rest
  end.

(** * Fetching a user's activity

    The script that fetches the missing user activities pages through the
    data API until it meets a REDEEM transaction.  A request is answered as
    a function of its offset (the loop asks for every offset once). *)

Module UserActivity.

(** An element of the array the API answers with; [type] is its [type]
    property when that is a string.  A [null] element has no properties:
    reading its [type] throws. *)
Inductive Transaction : Type :=
| NullEntry
| Entry (type : option string).

(** What [makeRequest] yields. *)
Inductive Response : Type :=
| Rejected                                 (* a status outside 2xx, a network error *)
| NotArray                                 (* a body that is not a JSON array *)
| Batch (transactions : list Transaction).

Record Fetched : Type := {
  transactions : list Transaction;
  totalCount : nat;
  foundRedeem : bool
}.

Inductive Outcome : Type :=
| Returned (r : Fetched)
| Failed            (* throws "Error fetching user activity: ..." *)
| StillFetching.    (* the bound on the number of requests is used up *)

Definition limit : nat := 1000.

(** [t.type === 'REDEEM'] *)
Definition isRedeem (t : Transaction) : bool :=
  match t with
  | Entry (Some ty) => String.eqb ty "REDEEM"
  | _ => false
  end.

(** The [while (true)] of [fetchUserActivityUntilRedeem] from [offset] on,
    [allTransactions] being what is collected so far, for at most [fuel]
    requests; the result starts with the offsets that were requested.  The
    half-second pause between two requests is left out. *)
Fixpoint fetchFrom (api : nat -> Response) (fuel offset : nat)
    (allTransactions : list Transaction) : list nat * Outcome :=
  match fuel with
  | O => ([], StillFetching)
  | S fuel' =>
      let stop (all : list Transaction) (found : bool) :=
        ([offset], Returned {| transactions := all; totalCount := List.length all;
                               foundRedeem := found |}) in
      match api offset with
      | Rejected => ([offset], Failed)
      | NotArray => stop allTransactions false
      | Batch [] => stop allTransactions false
      | Batch transactions =>
          let allTransactions := (allTransactions ++ transactions)%list in
          match last transactions NullEntry with
          | NullEntry => ([offset], Failed)
          | lastTransaction =>
              if isRedeem lastTransaction then stop allTransactions true
              else if (List.length transactions <? limit)%nat then stop allTransactions false
              else
                let (requested, outcome) :=
                  fetchFrom api fuel' (offset + limit) allTransactions in
                (offset :: requested, outcome)
          end
      end
  end.

Definition fetchUserActivityUntilRedeem (api : nat -> Response) (fuel : nat)
    : list nat * Outcome :=
  fetchFrom api fuel 0 [].

(** The transactions of the page at [offset]. *)
Definition pageAt (api : nat -> Response) (offset : nat) : list Transaction :=
  match api offset with
  | Batch transactions => transactions
  | _ => []
  end.

(** The page at [offset] makes the loop go on to the next one: it is full
    and its last element is a transaction other than a REDEEM. *)
Definition goesOn (api : nat -> Response) (offset : nat) : bool :=
  match api offset with
  | Batch transactions =>
      match last transactions NullEntry with
      | NullEntry => false
      | lastTransaction =>
          negb (isRedeem lastTransaction) && (limit <=? List.length transactions)%nat
      end
  | _ => false
  end.

(** What [processFile] reports for one file. *)
Record FileResult : Type := { success : bool; skipped : bool }.

Record Summary : Type := {
  total : nat;
  successful : nat;
  skippedCount : nat;
  failed : nat;
  details : list FileResult
}.

(** One pass of the [for] loop of [main] over the files to process. *)
Definition tally (results : Summary) (result : FileResult) : Summary :=
  let results := {| total := total results; successful := successful results;
                    skippedCount := skippedCount results; failed := failed results;
                    details := (details results ++ [result])%list |} in
  if skipped result then
    {| total := total results; successful := successful results;
       skippedCount := S (skippedCount results); failed := failed results;
       details := details results |}
  else if success result then
    {| total := total results; successful := S (successful results);
       skippedCount := skippedCount results; failed := failed results;
       details := details results |}
  else
    {| total := total results; successful := successful results;
       skippedCount := skippedCount results; failed := S (failed results);
       details := details results |}.

(** The summary of [main], from what [processFile] reports for each file. *)
Definition summarize (reports : list FileResult) : Summary :=
  fold_left tally reports
    {| total := List.length reports; successful := 0; skippedCount := 0; failed := 0;
       details := [] |}.

End UserActivity.

(** * Further vocabulary: the feed flag *)

(** [m] does not clear the feed flag. *)
Definition KeepsTrigger {A} (m : M A) : Prop :=
  forall s, rtdsTriggered s = true -> rtdsTriggered (final (m s)) = true.

(** [m] does not set the feed flag by itself. *)
Definition StaysIdle {A} (m : M A) : Prop :=
  forall s, rtdsTriggered s = false -> rtdsTriggered (final (m s)) = false.

(** * The number-sensitive parts on binary64

    Above, finite JavaScript numbers are exact rationals.  Three places of
    the script compare or round a computed number, and there the doubles
    decide: the pair-edge circuit breaker of [main], [roundDownToTick], and
    the single-fill branch with its hedge.  They are given here once more on
    doubles, statement by statement.  A number that comes from outside
    (a command-line argument, a price or a size of the exchange) is the
    double nearest to its decimal value, as [Number(...)] yields it. *)

Module Doubles.

Import PrimFloat.

(** The double nearest to [q], for a numerator and a denominator below
    [2^53] in magnitude: the correctly rounded quotient of two exact
    doubles. *)
Definition ofQ (q : Q) : float :=
  div (Binary64.ofInt (Qnum q)) (Binary64.ofInt (Z.pos (Qden q))).

(** [Number(...)] of an outside value. *)
Definition ofNum (x : num) : float :=
  match x with
  | NaN => nan
  | PInf => infinity
  | NInf => neg_infinity
  | Fin q => ofQ q
  end.

(** The exact value of a finite double, [(-1)^s * m * 2^e]; [0] for a zero.
    It is what a log line or an order records ([0] also stands for a value
    that is not finite; none arises from arguments that pass the checks of
    [main]). *)
Definition valueOf (x : float) : Q :=
  match FloatOps.Prim2SF x with
  | SpecFloat.S754_finite s m e =>
      let v := inject_Z (Z.pos m) * Qpower 2 e in
      if s then - v else v
  | _ => 0
  end.

(** The literal [1e-9]. *)
Definition eps : float := Binary64.decimal 1 9.

(** [Number(x.toFixed(8))].  From [2^53 / 10^8] on, neighbouring doubles are
    more than [1e-8] apart and the digits read back as [x]; so do [NaN] and
    the infinities. *)
Definition toFixed8 (x : float) : float :=
  match Binary64.toFixed8 x with
  | Some r => r
  | None => x
  end.

(** [roundDownToTick(x, tickSize)], with [t = Number(tickSize)]. *)
Definition roundDownToTick (x t : float) : float :=
  if negb (is_finite t) || leb t zero then x
  else
    let inv := div one t in
    let snapped := div (Binary64.floor (add (mul x inv) eps)) inv in
    toFixed8 snapped.

(** [1 - 2 * PRICE] *)
Definition pairEdge (p : float) : float := sub one (mul two p).

(** The argument checks of [main], in source order, down to the pair-edge
    circuit breaker; what they establish is recorded with the exact values
    of the doubles. *)
Definition validate (c : Config) : Error + Checked :=
  let P := ofNum (PRICE c) in
  let D := ofNum (DURATION_MIN c) in
  let poll := ofQ (POLL_SEC c) in
  let grace := ofQ (PAIR_GRACE_SEC c) in
  let sigType := ofNum (SIGNATURE_TYPE c) in
  if negb (is_finite P) || leb P zero || leb one P then inl InvalidArgument
  else if negb (is_finite D) || leb D zero then inl InvalidArgument
  else if negb (is_finite poll) || leb poll zero then inl InvalidArgument
  else if negb (is_finite grace) || ltb grace zero then inl InvalidArgument
  else
    match parseAction (ON_SINGLE_FILL c) with
    | None => inl InvalidArgument
    | Some a =>
        if eqb sigType zero || eqb sigType one || eqb sigType two then
          if ltb (pairEdge P) (ofQ (MIN_EDGE c)) then inl InsufficientEdge
          else inr {| price := valueOf P; durationMin := valueOf D; action := a |}
        else inl InvalidArgument
    end.

(** [main], from its argument checks on. *)
Definition main (w : World) (cfg : Config) (windows fuel : nat) : M unit :=
  match validate cfg with
  | inl e => throw e
  | inr chk => mainChecked w cfg chk windows fuel
  end.

(** [parseMatchedShares] *)
Definition parseMatchedShares (order : option OpenOrder) : float :=
  match order with
  | None => zero
  | Some o => let m := ofNum (size_matched o) in if is_finite m then m else zero
  end.

(** [upSome], [downSome] and [oneSome] of one pass of the safety loop. *)
Definition someMatched (matched : float) : bool := ltb eps matched.

Definition oneSome (up down : float) : bool :=
  (someMatched up && negb (someMatched down)) || (negb (someMatched up) && someMatched down).

Definition filledSide (up down : float) : SideLabel :=
  if ltb down up then UP else DOWN.

Definition missingShares (up down : float) : float := abs (sub up down).

Section Program.

Variable w : World.
Variable cfg : Config.
Variable chk : Checked.

Definition maxOtherPrice : float :=
  sub (sub one (ofNum (PRICE cfg))) (ofQ (MIN_HEDGE_EDGE cfg)).

(** The [hedge] branch; [up] and [down] are [upMatched] and [downMatched]. *)
Definition hedge (pl : Placed) (up down : float) : M unit :=
  let otherToken := match filledSide up down with UP => DOWN_TOKEN_ID cfg | DOWN => UP_TOKEN_ID cfg end in
  let otherTick := match filledSide up down with UP => downTickSize pl | DOWN => upTickSize pl end in
  let otherNegRisk := match filledSide up down with UP => downNegRisk pl | DOWN => upNegRisk pl end in
  otherBook <- clientGetOrderBook w otherToken ;;
  let otherTop := parseOrderBookTop otherBook in
  let bestAsk := match bestAsk otherTop with Some a => ofNum a | None => nan end in
  if negb (is_finite bestAsk) then log LHedgeSkippedNoAsk
  else if ltb maxOtherPrice bestAsk
  then log (LHedgeSkippedEdge (valueOf bestAsk) (valueOf maxOtherPrice))
  else
    let hedgePrice := roundDownToTick maxOtherPrice (ofNum otherTick) in
    log (LHedging otherToken (valueOf (missingShares up down)) (valueOf hedgePrice)) ;;
    hedgeResp <- clientPost w {| r_tokenID := otherToken; r_price := valueOf hedgePrice;
                                 r_size := valueOf (missingShares up down);
                                 r_tickSize := otherTick;
                                 r_negRisk := otherNegRisk; r_postOnly := false |} ;;
    match hedgeResp with
    | Some id => log (LHedgePosted id)
    | None => log LHedgeFailed
    end.

(** The body of [if (elapsed >= PAIR_GRACE_SEC)], after the latch is set. *)
Definition mitigate (pl : Placed) (up down : float) : M unit :=
  log (LGraceElapsed (filledSide up down) (valueOf (missingShares up down)) (action chk)) ;;
  match action chk with
  | Wait => ret tt
  | Cancel =>
      let unfilledOrderId := match filledSide up down with UP => downId pl | DOWN => upId pl end in
      r <- cancelBestEffort w unfilledOrderId ;;
      log (LCancelUnfilled unfilledOrderId r)
  | Hedge => hedge pl up down
  end.

(** The body of [if (oneSome && !actedOnSingleFill)]. *)
Definition singleFill (pl : Placed) (up down : float) (ls : Locals) : M Locals :=
  first <- match firstSingleFillAtMs ls with
           | None =>
               t <- dateNow w ;;
               log (LSingleFill (valueOf up) (valueOf down)) ;;
               ret t
           | Some t => ret t
           end ;;
  t <- dateNow w ;;
  let elapsed := div (Binary64.ofInt (t - first)) (Binary64.ofInt 1000) in
  if leb (ofQ (PAIR_GRACE_SEC cfg)) elapsed
  then mitigate pl up down ;;
       ret {| firstSingleFillAtMs := Some first; actedOnSingleFill := true |}
  else ret {| firstSingleFillAtMs := Some first; actedOnSingleFill := actedOnSingleFill ls |}.

(** [elapsed] as the single-fill branch entered at state [s] computes it. *)
Definition elapsedAt (ls : Locals) (s : St) : float :=
  div (Binary64.ofInt (now w (elapsedStep ls s) - graceStart w ls s)) (Binary64.ofInt 1000).

(** The line that starts the grace timer, when it is not yet running. *)
Definition timerLine (ls : Locals) (up down : float) : list Event :=
  match firstSingleFillAtMs ls with
  | Some _ => []
  | None => [ELog (LSingleFill (valueOf up) (valueOf down))]
  end.

End Program.


End Doubles.

(** The orders of a trace, in order. *)
Fixpoint posted (l : list Event) : list OrderReq :=
  match l with
  | [] => []
  | EPost r :: t => r :: posted t
  | _ :: t => posted t
  end.

(** [exampleConfig] under the hedge policy with the grace period at zero,
    for a price, a minimum edge and a minimum hedge edge. *)
Definition hedgeConfig (p minEdge minHedgeEdge : Q) : Config :=
  {| UP_TOKEN_ID := "UP"; DOWN_TOKEN_ID := "DOWN";
     PRICE := Fin p; INVEST_PER_SIDE := Fin 5; sharesArg := None;
     DURATION_MIN := Fin 15; ALIGN_15M := false; ALIGN_MARKET_START := false;
     REPEAT := false; POST_ONLY := true; POLL_SEC := 3; PAIR_GRACE_SEC := 0;
     ON_SINGLE_FILL := "hedge"; MIN_EDGE := minEdge; MIN_HEDGE_EDGE := minHedgeEdge;
     ALLOW_WEIRD_QUOTES := false; USE_RTDS := false; SIGNATURE_TYPE := Fin 0;
     startAtArg := None; MARKET_SLUG := None |}.

(** DOWN has 5 of 10 shares matched from the start, UP none. *)
Definition downHalfFilled : nat -> string -> option OpenOrder :=
  fun _ id => if String.eqb id "D" then Some (order 5 10) else Some (order 0 10).

(** * Facts *)

(** ** Comparisons *)

Lemma Qltb_lt (x y : Q) : Qltb x y = true <-> x < y.
Proof.
  unfold Qltb. rewrite negb_true_iff.
  split; intro H.
  - apply Qnot_le_lt. intro L. apply Qle_bool_iff in L. congruence.
  - destruct (Qle_bool y x) eqn:E; [|reflexivity].
    apply Qle_bool_iff in E. apply Qle_not_lt in E. contradiction.
Qed.

Lemma Qltb_ge (x y : Q) : Qltb x y = false <-> y <= x.
Proof.
  unfold Qltb. rewrite negb_false_iff. apply Qle_bool_iff.
Qed.

Lemma Qle_bool_gt (x y : Q) : Qle_bool x y = false <-> y < x.
Proof.
  rewrite <- Qltb_lt. unfold Qltb. rewrite negb_true_iff. tauto.
Qed.

(** Rounding to the grid [1/s]: the result is within half a grid step. *)
Lemma toFixedScale_near (s x : Q) :
  0 < s -> Qabs (toFixedScale s x - x) <= (1 # 2) / s.
Proof.
  intros Hs. unfold toFixedScale.
  assert (Hs' : ~ s == 0) by (intro E; rewrite E in Hs; discriminate).
  destruct (Qltb x 0) eqn:Ex.
  - set (y := (- x) * s + (1 # 2)).
    pose proof (Qfloor_le y) as H1. pose proof (Qlt_floor y) as H2.
    rewrite inject_Z_plus in H2. change (inject_Z 1) with 1 in H2.
    set (k := inject_Z (Qfloor y)) in *.
    apply Qabs_Qle_condition. 
    assert (E : - (k / s) - x == (- k + (- x) * s) / s) by (field; exact Hs').
    rewrite E. unfold y in *.
    split.
    + apply Qle_shift_div_l; [exact Hs|]. 
      assert (F : - ((1 # 2) / s) * s == - (1#2)) by (field; exact Hs'). rewrite F. lra.
    + apply Qle_shift_div_r; [exact Hs|].
      assert (F : (1 # 2) / s * s == (1#2)) by (field; exact Hs'). rewrite F. lra.
  - set (y := x * s + (1 # 2)).
    pose proof (Qfloor_le y) as H1. pose proof (Qlt_floor y) as H2.
    rewrite inject_Z_plus in H2. change (inject_Z 1) with 1 in H2.
    set (k := inject_Z (Qfloor y)) in *.
    apply Qabs_Qle_condition. 
    assert (E : k / s - x == (k - x * s) / s) by (field; exact Hs').
    rewrite E. unfold y in *.
    split.
    + apply Qle_shift_div_l; [exact Hs|]. 
      assert (F : - ((1 # 2) / s) * s == - (1#2)) by (field; exact Hs'). rewrite F. lra.
    + apply Qle_shift_div_r; [exact Hs|].
      assert (F : (1 # 2) / s * s == (1#2)) by (field; exact Hs'). rewrite F. lra.
Qed.

(** ** Pricing *)

Lemma Qfloor_half (m : Z) : Qfloor (inject_Z m + (1 # 2)) = m.
Proof.
  symmetry. apply Z.le_antisymm.
  - rewrite <- (Qfloor_Z m) at 1. apply Qfloor_resp_le. lra.
  - apply Z.lt_succ_r. rewrite Zlt_Qlt.
    eapply Qle_lt_trans; [apply Qfloor_le|].
    unfold Z.succ. rewrite inject_Z_plus. change (inject_Z 1) with 1. lra.
Qed.

Lemma toFixedScale_exact (s x : Q) (m : Z) :
  0 < s -> x * s == inject_Z m -> toFixedScale s x == x.
Proof.
  intros Hs Hm. unfold toFixedScale.
  assert (Hs' : ~ s == 0) by (intro E; rewrite E in Hs; discriminate).
  destruct (Qltb x 0).
  - assert (E : (- x) * s + (1 # 2) == inject_Z (- m) + (1 # 2)).
    { rewrite inject_Z_opp. lra. }
    rewrite E, Qfloor_half, inject_Z_opp, <- Hm. field. exact Hs'.
  - rewrite Hm, Qfloor_half, <- Hm. field. exact Hs'.
Qed.

Lemma roundDownToTick_pos (x t : Q) :
  0 < t -> roundDownToTick x (Fin t) = toFixed8 (inject_Z (tickIndex x t) / (1 / t)).
Proof.
  intros Ht. unfold roundDownToTick.
  destruct (Qle_bool t 0) eqn:E; [|reflexivity].
  apply Qle_bool_iff in E. lra.
Qed.

Lemma snapped_bounds (x t : Q) :
  0 < t ->
  inject_Z (tickIndex x t) * t <= x + eps * t /\
  x + eps * t - t < inject_Z (tickIndex x t) * t.
Proof.
  intros Ht. unfold tickIndex.
  assert (Ht' : ~ t == 0) by (intro E; rewrite E in Ht; discriminate).
  set (y := x * (1 / t) + eps).
  pose proof (Qfloor_le y) as H1. pose proof (Qlt_floor y) as H2.
  rewrite inject_Z_plus in H2. change (inject_Z 1) with 1 in H2.
  set (k := inject_Z (Qfloor y)) in *.
  assert (Ey : y * t == x + eps * t) by (unfold y; field; exact Ht').
  split.
  - rewrite <- Ey. apply Qmult_le_compat_r; lra.
  - assert (L : y * t < (k + 1) * t) by (apply Qmult_lt_compat_r; lra).
    lra.
Qed.

(** Away from the next tick multiple by more than the drift guard, the
    selected multiple is the one at or below the price. *)
Lemma tickIndex_below (p q : Q) :
  0 < q ->
  p * (1 / q) + eps < inject_Z (Qfloor (p * (1 / q))) + 1 ->
  inject_Z (tickIndex p q) * q <= p.
Proof.
  intros Hq Hfar.
  assert (Hq' : ~ q == 0) by (intro E; rewrite E in Hq; discriminate).
  assert (K : tickIndex p q = Qfloor (p * (1 / q))).
  { unfold tickIndex. apply Z.le_antisymm.
    - apply Z.lt_succ_r. rewrite Zlt_Qlt.
      eapply Qle_lt_trans; [apply Qfloor_le|].
      unfold Z.succ. rewrite inject_Z_plus. change (inject_Z 1) with 1. exact Hfar.
    - apply Qfloor_resp_le. unfold eps. lra. }
  rewrite K.
  assert (E : p == p * (1 / q) * q) by (field; exact Hq').
  rewrite E at 2. apply Qmult_le_compat_r; [apply Qfloor_le | lra].
Qed.

(** On a tick that is a whole number of 1e-8 units the result is the
    selected multiple of the tick, exactly. *)
Lemma roundDownToTick_exact (p q : Q) (m : Z) :
  0 < q -> q * scale8 == inject_Z m ->
  roundDownToTick p (Fin q) == inject_Z (tickIndex p q) * q.
Proof.
  intros Hq Hm.
  assert (Hq' : ~ q == 0) by (intro E; rewrite E in Hq; discriminate).
  assert (Es : inject_Z (tickIndex p q) / (1 / q) == inject_Z (tickIndex p q) * q)
    by (field; exact Hq').
  rewrite roundDownToTick_pos by exact Hq. unfold toFixed8. rewrite <- Es.
  apply (toFixedScale_exact scale8 _ (tickIndex p q * m)); [reflexivity|].
  rewrite Es, inject_Z_mult, <- Hm. ring.
Qed.

(** In exact arithmetic: for a finite tick size [q > 0],
    [roundDownToTick p q] is within half of 1e-8 of the multiple [k * q] of the tick,
    [k = floor(p / q + 1e-9)], and equal to it when the tick is a whole
    number of 1e-8 units; that multiple is at most [p + 1e-9 * q], so the
    result is at most [p + 1e-9 * q + 0.5e-8]; it is at most [p] when [p]
    is more than 1e-9 ticks away from the next multiple of such a tick.
    With a tick size that is not a finite positive number the price comes
    back unchanged. *)
Theorem roundDownToTick_snaps_down (p : Q) (t : num) :
  (forall q, t = Fin q -> 0 < q ->
     let k := tickIndex p q in
     Qabs (roundDownToTick p t - inject_Z k * q) <= (1 # 2) / scale8
     /\ inject_Z k * q <= p + eps * q
     /\ roundDownToTick p t <= p + eps * q + (1 # 2) / scale8
     /\ (forall m : Z, q * scale8 == inject_Z m ->
           roundDownToTick p t == inject_Z k * q
           /\ (p * (1 / q) + eps < inject_Z (Qfloor (p * (1 / q))) + 1 ->
               roundDownToTick p t <= p)))
  /\ ((forall q, t = Fin q -> q <= 0) -> roundDownToTick p t = p).
Proof.
  split.
  - intros q -> Hq k.
    assert (Hq' : ~ q == 0) by (intro E; rewrite E in Hq; discriminate).
    assert (Es : inject_Z k / (1 / q) == inject_Z k * q) by (field; exact Hq').
    assert (Hs : 0 < scale8) by reflexivity.
    pose proof (toFixedScale_near scale8 (inject_Z k / (1 / q)) Hs) as Hn.
    pose proof (snapped_bounds p q Hq) as [Hb _]. fold k in Hb.
    rewrite roundDownToTick_pos by exact Hq. fold k. unfold toFixed8.
    set (T := toFixedScale scale8 (inject_Z k / (1 / q))) in *.
    apply Qabs_Qle_condition in Hn. destruct Hn as [Hn1 Hn2].
    repeat split.
    + apply Qabs_Qle_condition. split; lra.
    + exact Hb.
    + lra.
    + unfold T, k. rewrite <- roundDownToTick_pos by exact Hq.
      exact (roundDownToTick_exact p q m Hq H).
    + intros Hfar. unfold T, k. rewrite <- roundDownToTick_pos by exact Hq.
      rewrite (roundDownToTick_exact p q m Hq H).
      exact (tickIndex_below p q Hq Hfar).
  - intros H. destruct t as [| | |q]; try reflexivity.
    simpl. specialize (H q eq_refl). apply Qle_bool_iff in H. rewrite H. reflexivity.
Qed.

Lemma roundDownToTick_snaps_down_witness :
  roundDownToTick (489999999999 # 1000000000000) (Fin (1 # 100)) == 49 # 100
  /\ roundDownToTick (495 # 1000) (Fin (1 # 100)) == 49 # 100
  /\ roundDownToTick (49 # 100) NaN = 49 # 100.
Proof.
  pose proof (roundDownToTick_snaps_down (489999999999 # 1000000000000) (Fin (1 # 100))) as [H1 _].
  pose proof (roundDownToTick_snaps_down (495 # 1000) (Fin (1 # 100))) as [H2 _].
  pose proof (roundDownToTick_snaps_down (49 # 100) NaN) as [_ H3].
  specialize (H1 (1 # 100) eq_refl eq_refl). cbv zeta in H1.
  specialize (H2 (1 # 100) eq_refl eq_refl). cbv zeta in H2.
  destruct H1 as (_ & _ & _ & H1). destruct H2 as (_ & _ & _ & H2).
  split; [|split].
  - rewrite (proj1 (H1 1000000%Z eq_refl)). reflexivity.
  - rewrite (proj1 (H2 1000000%Z eq_refl)). reflexivity.
  - apply H3. intros q E. discriminate E.
Defined.


(** A price on the tick grid is submitted as it is. *)
Lemma roundDownToTick_on_grid (k m : Z) (t : Q) :
  0 < t -> t * scale8 == inject_Z m ->
  roundDownToTick (inject_Z k * t) (Fin t) == inject_Z k * t.
Proof.
  intros Ht Hm.
  rewrite (roundDownToTick_exact (inject_Z k * t) t m Ht Hm). unfold tickIndex.
  assert (E : inject_Z k * t * (1 / t) + eps == inject_Z k + eps).
  { field. intro Z0. rewrite Z0 in Ht. discriminate Ht. }
  rewrite E.
  assert (F : Qfloor (inject_Z k + eps) = k).
  { symmetry. apply Z.le_antisymm.
    - rewrite <- (Qfloor_Z k) at 1. apply Qfloor_resp_le. unfold eps. lra.
    - apply Z.lt_succ_r. rewrite Zlt_Qlt.
      eapply Qle_lt_trans; [apply Qfloor_le|].
      unfold Z.succ. rewrite inject_Z_plus. change (inject_Z 1) with 1. unfold eps. lra. }
  rewrite F. reflexivity.
Qed.

(** In exact arithmetic: with arguments that pass the earlier checks,
    [main] refuses with InsufficientEdge exactly when [1 - 2 * PRICE < MIN_EDGE], and it does so
    before anything else happens (no event, the state untouched); otherwise
    the checks pass. *)
Theorem pair_edge_check
  (w : World) (c : Config) (windows fuel : nat) (s : St)
  (p d g : Q) (a : SingleFillAction)
  (Hprice : PRICE c = Fin p) (Hp : 0 < p /\ p < 1)
  (Hdur : DURATION_MIN c = Fin d) (Hd : 0 < d)
  (Hpoll : 0 < POLL_SEC c) (Hgrace : 0 <= PAIR_GRACE_SEC c)
  (Hact : parseAction (ON_SINGLE_FILL c) = Some a)
  (Hsig : SIGNATURE_TYPE c = Fin g) (Hg : g == 0 \/ g == 1 \/ g == 2) :
  (pairEdge p < MIN_EDGE c ->
     validate c = inl InsufficientEdge
     /\ main w c windows fuel s
        = {| events := []; final := s; result := Throw InsufficientEdge |})
  /\ (MIN_EDGE c <= pairEdge p ->
     validate c = inr {| price := p; durationMin := d; action := a |}).
Proof.
  assert (V : validate c =
              if Qltb (pairEdge p) (MIN_EDGE c) then inl InsufficientEdge
              else inr {| price := p; durationMin := d; action := a |}).
  { unfold validate. rewrite Hprice, Hdur, Hact, Hsig.
    destruct Hp as [Hp0 Hp1].
    apply Qle_bool_gt in Hp0, Hp1, Hd, Hpoll. apply Qltb_ge in Hgrace.
    rewrite Hp0, Hp1, Hd, Hpoll, Hgrace. simpl.
    assert (G : Qeq_bool g 0 || Qeq_bool g 1 || Qeq_bool g 2 = true).
    { destruct Hg as [G | [G | G]]; apply Qeq_bool_iff in G; rewrite G;
        rewrite ?orb_true_r; reflexivity. }
    rewrite G. reflexivity. }
  split; intros H.
  - apply Qltb_lt in H. rewrite H in V. split; [exact V|].
    unfold main. rewrite V. reflexivity.
  - apply Qltb_ge in H. rewrite H in V. exact V.
Qed.

(** Whatever the arguments, [main] refuses with InsufficientEdge only below
    the minimum edge. *)
Lemma insufficient_edge_only_below_min_edge (c : Config) :
  validate c = inl InsufficientEdge ->
  exists p, PRICE c = Fin p /\ pairEdge p < MIN_EDGE c.
Proof.
  unfold validate. intros H.
  destruct (PRICE c) as [| | |p]; try discriminate H.
  exists p. split; [reflexivity|].
  destruct (Qle_bool p 0 || Qle_bool 1 p); [discriminate H|].
  destruct (DURATION_MIN c) as [| | |d]; try discriminate H.
  destruct (Qle_bool d 0); [discriminate H|].
  destruct (Qle_bool (POLL_SEC c) 0); [discriminate H|].
  destruct (Qltb (PAIR_GRACE_SEC c) 0); [discriminate H|].
  destruct (parseAction (ON_SINGLE_FILL c)); [|discriminate H].
  destruct (SIGNATURE_TYPE c) as [| | |g]; try discriminate H.
  destruct (Qeq_bool g 0 || Qeq_bool g 1 || Qeq_bool g 2); [|discriminate H].
  destruct (Qltb (pairEdge p) (MIN_EDGE c)) eqn:E; [|discriminate H].
  apply Qltb_lt. exact E.
Qed.

Lemma pair_edge_check_witness :
  validate (exampleConfig (49 # 100) "hedge" 10 false false)
  = inr (exampleChecked (49 # 100) Hedge)
  /\ pairEdge (49 # 100) == 2 # 100
  /\ validate (exampleConfig (499 # 1000) "hedge" 10 false false) = inl InsufficientEdge
  /\ pairEdge (499 # 1000) == 2 # 1000
  /\ main (exampleWorld fastClock noOrders (fun _ => emptyBook))
          (exampleConfig (499 # 1000) "hedge" 10 false false) 1 5 initSt
     = {| events := []; final := initSt; result := Throw InsufficientEdge |}
  /\ PrimFloat.ltb (Binary64.pairEdge (Binary64.decimal 49 2)) (Binary64.decimal 5 3) = false
  /\ PrimFloat.ltb (Binary64.pairEdge (Binary64.decimal 499 3)) (Binary64.decimal 5 3) = true.
Proof.
  assert (G : 0 <= 10) by discriminate.
  assert (P1 : MIN_EDGE (exampleConfig (49 # 100) "hedge" 10 false false)
               <= pairEdge (49 # 100)) by discriminate.
  pose proof (pair_edge_check (exampleWorld fastClock noOrders (fun _ => emptyBook))
                (exampleConfig (49 # 100) "hedge" 10 false false) 1 5 initSt
                (49 # 100) 15 0 Hedge eq_refl (conj eq_refl eq_refl) eq_refl eq_refl
                eq_refl G eq_refl eq_refl (or_introl eq_refl)) as [_ H1].
  pose proof (pair_edge_check (exampleWorld fastClock noOrders (fun _ => emptyBook))
                (exampleConfig (499 # 1000) "hedge" 10 false false) 1 5 initSt
                (499 # 1000) 15 0 Hedge eq_refl (conj eq_refl eq_refl) eq_refl eq_refl
                eq_refl G eq_refl eq_refl (or_introl eq_refl)) as [H2 _].
  destruct (H2 eq_refl) as [H2a H2b].
  split; [exact (H1 P1)|]. split; [reflexivity|]. split; [exact H2a|].
  split; [reflexivity|]. split; [exact H2b|].
  split; vm_compute; reflexivity.
Defined.

(** ** Computations and their events *)

Lemma Emits_ret {A} P (a : A) : Emits P (ret a).
Proof. intros s. constructor. Qed.

Lemma Emits_throw {A} P e : Emits P (@throw A e).
Proof. intros s. constructor. Qed.

Lemma Emits_outOfFuel {A} P : Emits P (@outOfFuel A).
Proof. intros s. constructor. Qed.

Lemma Emits_emit P e : P e -> Emits P (emit e).
Proof. intros H s. simpl. constructor; [exact H | constructor]. Qed.

Lemma Emits_bind {A B} P (m : M A) (f : A -> M B) :
  Emits P m -> (forall a, Emits P (f a)) -> Emits P (bind m f).
Proof.
  intros Hm Hf s. unfold bind. specialize (Hm s).
  destruct (result (m s)); simpl; try exact Hm.
  apply Forall_app. split; [exact Hm | apply Hf].
Qed.

Lemma Emits_liftE {A} P (r : Error + A) : Emits P (liftE r).
Proof. destruct r; [apply Emits_throw | apply Emits_ret]. Qed.

Lemma Emits_silent {A} P (m : M A) :
  (forall s, events (m s) = []) -> Emits P m.
Proof. intros H s. rewrite H. constructor. Qed.

Lemma Emits_weaken {A} (P Q : Event -> Prop) (m : M A) :
  (forall e, P e -> Q e) -> Emits P m -> Emits Q m.
Proof. intros H Hm s. eapply Forall_impl; [exact H | apply Hm]. Qed.

Lemma count_app p (l1 l2 : list Event) : count p (l1 ++ l2) = (count p l1 + count p l2)%nat.
Proof. unfold count. rewrite filter_app, length_app. reflexivity. Qed.

Lemma count_none p (l : list Event) : Forall (fun e => p e = false) l -> count p l = O.
Proof.
  unfold count. induction 1 as [|e l He _ IH]; simpl; [reflexivity|].
  rewrite He. exact IH.
Qed.

Lemma windowStarts_app (l1 l2 : list Event) :
  windowStarts (l1 ++ l2) = (windowStarts l1 ++ windowStarts l2)%list.
Proof.
  induction l1 as [|e l1 IH]; simpl; [reflexivity|].
  destruct e; simpl; rewrite IH; reflexivity.
Qed.

Lemma cancelIds_app (l1 l2 : list Event) :
  cancelIds (l1 ++ l2) = (cancelIds l1 ++ cancelIds l2)%list.
Proof.
  induction l1 as [|e l1 IH]; simpl; [reflexivity|].
  destruct e; simpl; rewrite IH; reflexivity.
Qed.

Lemma windowStarts_none (l : list Event) : Forall notWindow l -> windowStarts l = [].
Proof.
  induction 1 as [|e l He _ IH]; simpl; [reflexivity|].
  destruct e; simpl in *; try exact IH. contradiction.
Qed.

Section ProgramFacts.

Variable w : World.
Variable cfg : Config.
Variable chk : Checked.

Lemma Emits_call {A} P (f : nat -> A) : Emits P (call f).
Proof. intros s. constructor. Qed.

Lemma Emits_await {A} P (f : nat -> A) : Emits P (await w f).
Proof. intros s. constructor. Qed.

Lemma Emits_orThrow {A} P (r : option A) : Emits P (orThrow r).
Proof. destruct r; [apply Emits_ret | apply Emits_throw]. Qed.

End ProgramFacts.

(** Splits a computation along its binds and case distinctions. *)
Ltac emits_step :=
  first
    [ apply Emits_ret | apply Emits_throw | apply Emits_outOfFuel | apply Emits_liftE
    | apply Emits_call | apply Emits_await | apply Emits_orThrow
    | apply Emits_silent; intros; reflexivity
    | solve [ match goal with H : _ |- _ => apply H end ]
    | apply Emits_emit; simpl; exact I
    | apply Emits_bind; [| intros ?]
    | match goal with
      | |- Emits _ (match ?x with _ => _ end) => destruct x
      end ].

Ltac emits := repeat emits_step.

(** ** The safety loop: the latch *)

Lemma quiet_counts (l : list Event) :
  Forall quiet l ->
  count isGraceElapsed l = O /\ count isPost l = O /\ count isCancel l = O.
Proof.
  intros H. repeat split; apply count_none; eapply Forall_impl; try exact H;
    intros [] Hq; simpl in *; try reflexivity; try contradiction;
    destruct l0; simpl in *; try reflexivity; contradiction.
Qed.

Lemma count_one p e : count p [e] = if p e then 1%nat else O.
Proof. unfold count. simpl. destruct (p e); reflexivity. Qed.

Lemma Latch_ret {A} (g a : nat) (post : A -> nat * nat) (x : A) :
  (fst (post x) <= g)%nat -> (snd (post x) <= a)%nat -> Latch g a post (ret x).
Proof. intros H1 H2 s. simpl. unfold count. simpl. split; lia. Qed.

Lemma Latch_bind {A B} (g a : nat) (mid : A -> nat * nat) (post : B -> nat * nat)
    (m : M A) (f : A -> M B) :
  Latch g a mid m ->
  (forall x, Latch (fst (mid x)) (snd (mid x)) post (f x)) ->
  Latch g a post (bind m f).
Proof.
  intros Hm Hf s. unfold bind. destruct (Hm s) as (H1 & H2).
  destruct (result (m s)) as [x| |]; simpl in *.
  - destruct (Hf x (final (m s))) as (G1 & G2).
    rewrite !count_app. split; lia.
  - split; lia.
  - split; lia.
Qed.

Lemma Latch_quiet {A} (g a : nat) (post : A -> nat * nat) (m : M A) :
  Emits quiet m ->
  (forall x, fst (post x) <= g /\ snd (post x) <= a)%nat ->
  Latch g a post m.
Proof.
  intros Hm Hp s. destruct (quiet_counts _ (Hm s)) as (H1 & H2 & H3).
  rewrite H1, H2, H3. simpl.
  destruct (result (m s)) as [x| |]; simpl; try (split; lia).
  destruct (Hp x). split; lia.
Qed.

(** A quiet step that keeps the allowances as they are. *)
Lemma Latch_skip {A} (g a : nat) (m : M A) :
  Emits quiet m -> Latch g a (fun _ => (g, a)) m.
Proof. intros H. apply Latch_quiet; [exact H | intros; simpl; split; lia]. Qed.

(** Splits on what the computation's outermost case distinction examines. *)
Ltac split_if :=
  match goal with
  | |- Latch _ _ _ (match ?c with _ => _ end) => destruct c eqn:?
  | |- Emits _ (match ?c with _ => _ end) => destruct c eqn:?
  end.

Section LatchFacts.

Variable w : World.
Variable cfg : Config.
Variable chk : Checked.

Lemma sleep_quiet ms : Emits quiet (sleep w ms).
Proof. unfold sleep. emits. Qed.

Lemma safeGetOrder_quiet id : Emits quiet (safeGetOrder w id).
Proof. unfold safeGetOrder. emits. Qed.

Lemma clientGetOrderBook_quiet token : Emits quiet (clientGetOrderBook w token).
Proof. unfold clientGetOrderBook. emits. Qed.

Lemma log_quiet l :
  match l with LGraceElapsed _ _ _ => False | _ => True end -> Emits quiet (log l).
Proof. intros H. apply Emits_emit. destruct l; simpl in *; auto. Qed.

(** An order uses up the one action allowed. *)
Lemma clientPost_latch r : Latch 0 1 (fun _ => (O, O)) (clientPost w r).
Proof. intros s. unfold clientPost, bind. simpl. unfold count. simpl. split; lia. Qed.

(** So does a cancel request. *)
Lemma cancelBestEffort_latch id : Latch 0 1 (fun _ => (O, O)) (cancelBestEffort w id).
Proof. intros s. unfold cancelBestEffort, bind. simpl. unfold count. simpl. split; lia. Qed.

(** The grace-elapsed line uses up the latch and allows one action. *)
Lemma graceElapsed_latch side missing act :
  Latch 1 0 (fun _ => (O, 1%nat)) (log (LGraceElapsed side missing act)).
Proof. intros s. cbn [fst snd]. unfold count. simpl. split; lia. Qed.

Lemma hedge_latch pl ps : Latch 0 1 (fun _ => (O, O)) (hedge w cfg chk pl ps).
Proof.
  unfold hedge. cbv zeta.
  apply Latch_bind with (mid := fun _ => (O, 1%nat)).
  { apply Latch_skip. apply clientGetOrderBook_quiet. }
  intros otherBook. cbn [fst snd].
  split_if; [|apply Latch_quiet; [apply log_quiet; exact I | intros; simpl; split; lia]].
  split_if;
    try (apply Latch_quiet; [apply log_quiet; exact I | intros; simpl; split; lia]).
  split_if.
  { apply Latch_quiet; [apply log_quiet; exact I | intros; simpl; split; lia]. }
  apply Latch_bind with (mid := fun _ => (O, 1%nat)).
  { apply Latch_skip. apply log_quiet. exact I. }
  intros _. cbn [fst snd].
  apply Latch_bind with (mid := fun _ => (O, O)).
  { apply clientPost_latch. }
  intros [id|];
    (apply Latch_quiet; [apply log_quiet; exact I | intros; simpl; split; lia]).
Qed.

Lemma mitigate_latch pl ps : Latch 1 0 (fun _ => (O, O)) (mitigate w cfg chk pl ps).
Proof.
  unfold mitigate.
  apply Latch_bind with (mid := fun _ => (O, 1%nat)).
  { apply graceElapsed_latch. }
  intros _. cbn [fst snd].
  split_if.
  - apply Latch_ret; simpl; lia.
  - apply Latch_bind with (mid := fun _ => (O, O)).
    { apply cancelBestEffort_latch. }
    intros r. cbn [fst snd].
    apply Latch_quiet; [apply log_quiet; exact I | intros; simpl; split; lia].
  - apply hedge_latch.
Qed.

Lemma singleFill_latch pl ps ls :
  Latch 1 0 (fun ls' => (budget ls', O)) (singleFill w cfg chk pl ps ls).
Proof.
  unfold singleFill.
  apply Latch_bind with (mid := fun _ => (1%nat, O)).
  { apply Latch_skip. unfold dateNow. pose proof log_quiet. emits. }
  intros first. cbn [fst snd].
  apply Latch_bind with (mid := fun _ => (1%nat, O)).
  { apply Latch_skip. unfold dateNow. emits. }
  intros t. cbv zeta. cbn [fst snd].
  split_if.
  - apply Latch_bind with (mid := fun _ => (O, O)).
    + apply mitigate_latch.
    + intros _. apply Latch_ret; unfold budget; simpl; lia.
  - apply Latch_ret; simpl; [|lia].
    unfold budget. simpl. destruct (actedOnSingleFill ls); lia.
Qed.

Lemma iteration_latch pl ls :
  Latch (budget ls) 0 (fun r => (budget (snd r), O)) (iteration w cfg chk pl ls).
Proof.
  unfold iteration.
  apply Latch_bind with (mid := fun _ => (budget ls, O)).
  { apply Latch_skip. emits. }
  intros connected. cbn [fst snd].
  apply Latch_bind with (mid := fun _ => (budget ls, O)).
  { apply Latch_skip. emits. }
  intros triggered. cbn [fst snd].
  split_if.
  { apply Latch_bind with (mid := fun _ => (budget ls, O)).
    - apply Latch_skip. apply sleep_quiet.
    - intros _. apply Latch_ret; simpl; lia. }
  apply Latch_bind with (mid := fun _ => (budget ls, O)).
  { apply Latch_skip. emits. }
  intros _. cbn [fst snd].
  apply Latch_bind with (mid := fun _ => (budget ls, O)).
  { apply Latch_skip. apply safeGetOrder_quiet. }
  intros upOrder. cbn [fst snd].
  apply Latch_bind with (mid := fun _ => (budget ls, O)).
  { apply Latch_skip. apply safeGetOrder_quiet. }
  intros downOrder. cbv zeta. cbn [fst snd].
  split_if.
  { apply Latch_bind with (mid := fun _ => (budget ls, O)).
    - apply Latch_skip. apply log_quiet. exact I.
    - intros _. apply Latch_ret; simpl; lia. }
  apply Latch_bind with (mid := fun ls' => (budget ls', O)).
  { destruct (oneSome _ && negb (actedOnSingleFill ls)) eqn:E.
    - apply andb_true_iff in E. destruct E as [_ E]. apply negb_true_iff in E.
      unfold budget at 1. rewrite E. apply singleFill_latch.
    - apply Latch_ret; simpl; lia. }
  intros ls'. cbn [fst snd].
  apply Latch_bind with (mid := fun _ => (budget ls', O)).
  { apply Latch_skip. apply sleep_quiet. }
  intros _. apply Latch_ret; simpl; lia.
Qed.

Lemma monitor_latch fuel pl : forall ls,
  Latch (budget ls) 0 (fun ls' => (budget ls', O)) (monitor w cfg chk fuel pl ls).
Proof.
  induction fuel as [|fuel IH]; intros ls; simpl.
  - intros s. simpl. unfold count. simpl. split; lia.
  - apply Latch_bind with (mid := fun _ => (budget ls, O)).
    { apply Latch_skip. unfold dateNow. emits. }
    intros t. cbn [fst snd].
    split_if.
    + apply Latch_bind with (mid := fun r => (budget (snd r), O)).
      { apply iteration_latch. }
      intros [[] ls']; cbn [fst snd].
      * apply Latch_ret; simpl; lia.
      * apply IH.
    + apply Latch_ret; simpl; lia.
Qed.

End LatchFacts.

(** ** Whole windows *)

Lemma plain_counts (l : list Event) :
  Forall plain l -> count isGraceElapsed l = O /\ windowStarts l = [].
Proof.
  induction 1 as [|e l He _ [IH1 IH2]]; [split; reflexivity|].
  change (e :: l) with ([e] ++ l)%list.
  rewrite count_app, windowStarts_app, IH1, IH2, count_one.
  destruct e; simpl in *; try contradiction; try (split; reflexivity).
  destruct l0; simpl in *; try contradiction; split; reflexivity.
Qed.

Lemma closingOnly_plain e : closingOnly e -> plain e.
Proof. destruct e; simpl; auto. Qed.

Lemma closingOnly_counts (l : list Event) :
  Forall closingOnly l -> count isGraceElapsed l = O /\ count isPost l = O.
Proof.
  induction 1 as [|e l He _ [IH1 IH2]]; [split; reflexivity|].
  change (e :: l) with ([e] ++ l)%list.
  rewrite !count_app, IH1, IH2, !count_one.
  destruct e; simpl in *; try contradiction; try (split; reflexivity).
  destruct l0; simpl in *; try contradiction; split; reflexivity.
Qed.

Lemma events_bind {A B} (m : M A) (f : A -> M B) s :
  events (bind m f s)
  = (events (m s)
       ++ match result (m s) with
          | Ok a => events (f a (final (m s)))
          | _ => []
          end)%list.
Proof.
  unfold bind. destruct (result (m s)); simpl; rewrite ?app_nil_r; reflexivity.
Qed.

Lemma result_bind {A B} (m : M A) (f : A -> M B) s :
  result (bind m f s)
  = match result (m s) with
    | Ok a => result (f a (final (m s)))
    | Throw e => Throw e
    | OutOfFuel => OutOfFuel
    end.
Proof. unfold bind. destruct (result (m s)); reflexivity. Qed.

Lemma final_bind {A B} (m : M A) (f : A -> M B) s :
  final (bind m f s)
  = match result (m s) with
    | Ok a => final (f a (final (m s)))
    | _ => final (m s)
    end.
Proof. unfold bind. destruct (result (m s)); reflexivity. Qed.

Section WindowFacts.

Variable w : World.
Variable cfg : Config.
Variable chk : Checked.

Lemma cancelAll_closingOnly ids : Emits closingOnly (cancelAll w ids).
Proof.
  induction ids as [|id ids IH]; simpl; [apply Emits_ret|].
  unfold cancelBestEffort, log. emits.
Qed.

Lemma closing_closingOnly pl : Emits closingOnly (closing w pl).
Proof.
  unfold closing, log. pose proof (cancelAll_closingOnly (orderIds pl)). emits.
Qed.

Lemma placement_plain start : Emits plain (placement w cfg chk start).
Proof.
  unfold placement, clientGetMarket, clientGetOrderBook, clientPost, sleep, dateNow, log.
  emits.
Qed.

Lemma mitigate_notWindow pl ps : Emits notWindow (mitigate w cfg chk pl ps).
Proof.
  unfold mitigate, hedge, cancelBestEffort, clientGetOrderBook, clientPost, log. emits.
Qed.

Lemma iteration_notWindow pl ls : Emits notWindow (iteration w cfg chk pl ls).
Proof.
  unfold iteration, singleFill, safeGetOrder, sleep, dateNow, log.
  pose proof (mitigate_notWindow pl). emits.
Qed.

Lemma monitor_notWindow fuel pl : forall ls, Emits notWindow (monitor w cfg chk fuel pl ls).
Proof.
  induction fuel as [|fuel IH]; intros ls; simpl; [apply Emits_outOfFuel|].
  unfold dateNow. pose proof (iteration_notWindow pl ls). emits.
Qed.

(** A window records its start once, first. *)
Lemma runOneWindow_starts fuel start s :
  windowStarts (events (runOneWindow w cfg chk fuel start s)) = [start].
Proof.
  unfold runOneWindow. rewrite events_bind. cbn [emit events result final].
  rewrite windowStarts_app. cbn [windowStarts app]. f_equal.
  apply windowStarts_none.
  assert (H : Emits notWindow
                (pl <- placement w cfg chk start ;; finishWindow w cfg chk fuel pl initLocals)).
  { apply Emits_bind.
    - eapply Emits_weaken; [|apply placement_plain]. intros []; simpl; auto.
    - intros pl. unfold finishWindow. apply Emits_bind.
      + apply monitor_notWindow.
      + intros _. eapply Emits_weaken; [|apply closing_closingOnly].
        intros []; simpl; auto. }
  apply H.
Qed.

End WindowFacts.

(** ** Repeat mode *)

Section RepeatFacts.

Variable w : World.
Variable cfg : Config.
Variable chk : Checked.

Lemma repeatLoop_starts fuel windows : forall first s,
  exists n,
    (n <= windows)%nat
    /\ windowStarts (events (repeatLoop w cfg chk windows fuel first s))
       = map (startOf first) (seq 0 n)
    /\ ((forall start s', result (runOneWindow w cfg chk fuel start s') = Ok tt) ->
        n = windows).
Proof.
  induction windows as [|windows IH]; intros first s.
  - exists O. simpl. repeat split; auto.
  - cbn [repeatLoop]. cbv zeta.
    set (next := (first + 15 * 60 * 1000)%Z).
    rewrite events_bind, windowStarts_app, runOneWindow_starts.
    destruct (result (runOneWindow w cfg chk fuel next s)) as [[]| |] eqn:R.
    + destruct (IH next (final (runOneWindow w cfg chk fuel next s))) as (n & Hn & E & C).
      exists (S n). split; [lia|]. split.
      * rewrite E. cbn [seq map app]. f_equal.
        rewrite <- seq_shift, map_map. apply map_ext.
        intros k. unfold startOf, next, periodMs. lia.
      * intros H. rewrite (C H). reflexivity.
    + exists 1%nat. split; [lia|]. split.
      * reflexivity.
      * intros H. rewrite H in R. discriminate R.
    + exists 1%nat. split; [lia|]. split.
      * reflexivity.
      * intros H. rewrite H in R. discriminate R.
Qed.

Lemma resolveStart_silent s : events (resolveStart w cfg s) = [].
Proof.
  unfold resolveStart, dateNow, liftE.
  repeat match goal with
         | |- context [match ?x with _ => _ end] => destruct x
         end; reflexivity.
Qed.

Lemma mainChecked_repeat_starts windows fuel s anchor :
  REPEAT cfg = true ->
  walletOk w = true ->
  result (resolveStart w cfg s) = Ok anchor ->
  exists n,
    (n <= windows)%nat
    /\ windowStarts (events (mainChecked w cfg chk windows fuel s))
       = map (startOf anchor) (seq 0 n)
    /\ ((forall start s', result (runOneWindow w cfg chk fuel start s') = Ok tt) ->
        n = windows).
Proof.
  intros Hrep Hwal Hres. unfold mainChecked. rewrite Hwal, Hrep.
  rewrite events_bind. cbn [ret events result final app negb].
  rewrite events_bind, Hres, resolveStart_silent. cbn [app].
  apply repeatLoop_starts.
Qed.

End RepeatFacts.

Lemma main_repeat_starts w cfg chk windows fuel s anchor :
  validate cfg = inr chk ->
  REPEAT cfg = true ->
  walletOk w = true ->
  result (resolveStart w cfg s) = Ok anchor ->
  exists n,
    (n <= windows)%nat
    /\ windowStarts (events (main w cfg windows fuel s)) = map (startOf anchor) (seq 0 n)
    /\ ((forall start s', result (runOneWindow w cfg chk fuel start s') = Ok tt) ->
        n = windows).
Proof.
  intros Hval. unfold main. rewrite Hval. apply mainChecked_repeat_starts.
Qed.

(** C8: in repeat mode the window starts are the anchor plus one, two, three,
    ... whole 15-minute periods, each start being the previous one plus the
    period, whatever the clock reads; and as many windows run as the
    repeat loop is given, when every window returns. *)
Theorem repeat_windows_one_period_apart w cfg chk windows fuel s anchor
  (Hval : validate cfg = inr chk)
  (Hrep : REPEAT cfg = true)
  (Hwal : walletOk w = true)
  (Hres : result (resolveStart w cfg s) = Ok anchor) :
  let starts := windowStarts (events (main w cfg windows fuel s)) in
  (forall i z, nth_error starts i = Some z ->
     z = (anchor + (Z.of_nat i + 1) * (15 * 60 * 1000))%Z)
  /\ (forall i z z', nth_error starts i = Some z -> nth_error starts (S i) = Some z' ->
        z' = (z + 15 * 60 * 1000)%Z)
  /\ (List.length starts <= windows)%nat
  /\ ((forall start s', result (runOneWindow w cfg chk fuel start s') = Ok tt) ->
      List.length starts = windows).
Proof.
  destruct (main_repeat_starts w cfg chk windows fuel s anchor Hval Hrep Hwal Hres)
    as (n & Hn & E & C).
  cbv zeta. rewrite E.
  assert (N : forall i z, nth_error (map (startOf anchor) (seq 0 n)) i = Some z ->
                          z = startOf anchor i).
  { intros i z H. rewrite nth_error_map, nth_error_seq in H.
    destruct (Nat.ltb i n); simpl in H; [|discriminate H].
    injection H as <-. reflexivity. }
  repeat split.
  - intros i z H. rewrite (N i z H). reflexivity.
  - intros i z z' H H'. rewrite (N i z H), (N (S i) z' H').
    unfold startOf, periodMs. lia.
  - rewrite length_map, length_seq. exact Hn.
  - intros H. rewrite length_map, length_seq. exact (C H).
Qed.

Lemma repeat_windows_one_period_apart_witness :
  let w := exampleWorld fastClock noOrders (fun _ => bookOf (48 # 100) (50 # 100)) in
  let cfg := exampleConfig (49 # 100) "hedge" 10 true false in
  let starts := windowStarts (events (main w cfg 10 5 initSt)) in
  starts = [900000; 1800000; 2700000; 3600000; 4500000;
            5400000; 6300000; 7200000; 8100000; 9000000]%Z
  /\ (forall i z z', nth_error starts i = Some z -> nth_error starts (S i) = Some z' ->
        z' = (z + 15 * 60 * 1000)%Z).
Proof.
  split; [vm_compute; reflexivity|].
  exact (proj1 (proj2
    (repeat_windows_one_period_apart
       (exampleWorld fastClock noOrders (fun _ => bookOf (48 # 100) (50 # 100)))
       (exampleConfig (49 # 100) "hedge" 10 true false)
       (exampleChecked (49 # 100) Hedge) 10 5 initSt 0%Z
       eq_refl eq_refl eq_refl eq_refl))).
Defined.

(** C10: in repeat mode no window starts at the resolved first start itself:
    every window starts after it, and the first window that runs starts
    exactly one 15-minute period after it. *)
Theorem repeat_skips_resolved_start w cfg chk windows fuel s anchor
  (Hval : validate cfg = inr chk)
  (Hrep : REPEAT cfg = true)
  (Hwal : walletOk w = true)
  (Hres : result (resolveStart w cfg s) = Ok anchor) :
  let starts := windowStarts (events (main w cfg windows fuel s)) in
  ~ In anchor starts
  /\ Forall (fun z => (anchor + 15 * 60 * 1000 <= z)%Z) starts
  /\ ((1 <= windows)%nat -> hd_error starts = Some (anchor + 15 * 60 * 1000)%Z).
Proof.
  destruct (main_repeat_starts w cfg chk windows fuel s anchor Hval Hrep Hwal Hres)
    as (n & Hn & E & _).
  cbv zeta.
  assert (F : Forall (fun z => (anchor + 15 * 60 * 1000 <= z)%Z)
                (windowStarts (events (main w cfg windows fuel s)))).
  { rewrite E. apply Forall_forall. intros z Hz. apply in_map_iff in Hz.
    destruct Hz as (k & <- & _). unfold startOf, periodMs. lia. }
  split; [|split].
  - intros Hin. rewrite Forall_forall in F. specialize (F anchor Hin). lia.
  - exact F.
  - intros Hw. 
    assert (P : (1 <= n)%nat).
    { destruct n as [|n]; [|lia]. exfalso.
      (* the loop has entered its first window *)
      revert E. unfold main. rewrite Hval. unfold mainChecked. rewrite Hwal, Hrep.
      rewrite events_bind. cbn [ret events result final app negb].
      rewrite events_bind, Hres, resolveStart_silent. cbn [app].
      destruct windows as [|windows]; [lia|].
      cbn [repeatLoop]. cbv zeta.
      rewrite events_bind, windowStarts_app, runOneWindow_starts. discriminate. }
    rewrite E. destruct n as [|n]; [lia|]. cbn [seq map hd_error].
    f_equal.
Qed.

Lemma repeat_skips_resolved_start_witness :
  let w := exampleWorld fastClock noOrders (fun _ => bookOf (48 # 100) (50 # 100)) in
  let cfg := exampleConfig (49 # 100) "hedge" 10 true false in
  result (resolveStart w cfg initSt) = Ok 0%Z
  /\ hd_error (windowStarts (events (main w cfg 3 5 initSt))) = Some 900000%Z
  /\ ~ In 0%Z (windowStarts (events (main w cfg 3 5 initSt))).
Proof.
  pose proof (repeat_skips_resolved_start
       (exampleWorld fastClock noOrders (fun _ => bookOf (48 # 100) (50 # 100)))
       (exampleConfig (49 # 100) "hedge" 10 true false)
       (exampleChecked (49 # 100) Hedge) 3 5 initSt 0%Z
       eq_refl eq_refl eq_refl eq_refl) as (H1 & _ & H3).
  split; [reflexivity|]. split; [|exact H1].
  apply H3. lia.
Defined.

(** ** One mitigation per window *)

Lemma Graces_bind {A B} (n1 n2 : nat) (m : M A) (f : A -> M B) :
  Graces n1 m -> (forall a, Graces n2 (f a)) -> Graces (n1 + n2) (bind m f).
Proof.
  intros Hm Hf s. rewrite events_bind, count_app. specialize (Hm s).
  destruct (result (m s)) as [a| |].
  - specialize (Hf a (final (m s))). lia.
  - unfold count at 2. simpl. lia.
  - unfold count at 2. simpl. lia.
Qed.

Lemma Graces_plain {A} (m : M A) : Emits plain m -> Graces 0 m.
Proof. intros H s. destruct (plain_counts _ (H s)) as [E _]. rewrite E. lia. Qed.

(** C2: in the safety loop the mitigation block (its grace-elapsed line, then
    wait, cancel or hedge) runs at most once, and not at all once
    [actedOnSingleFill] is set; orders and cancel requests are issued only
    by that block, one at most, so the loop submits at most one hedge order;
    a run of the block leaves [actedOnSingleFill] set; and a whole window
    runs the block at most once. *)
Theorem at_most_one_mitigation w cfg chk fuel :
  (forall pl ls s,
     let evs := events (monitor w cfg chk fuel pl ls s) in
     (count isGraceElapsed evs <= if actedOnSingleFill ls then 0 else 1)%nat
     /\ (count isPost evs + count isCancel evs <= count isGraceElapsed evs)%nat)
  /\ (forall pl ps ls s ls',
     result (singleFill w cfg chk pl ps ls s) = Ok ls' ->
     (1 <= count isGraceElapsed (events (singleFill w cfg chk pl ps ls s)))%nat ->
     actedOnSingleFill ls' = true)
  /\ (forall start s,
     (count isGraceElapsed (events (runOneWindow w cfg chk fuel start s)) <= 1)%nat).
Proof.
  split; [|split].
  - intros pl ls s. cbv zeta.
    destruct (monitor_latch w cfg chk fuel pl ls s) as [H1 H2].
    cbv zeta in *. fold (budget ls). split; lia.
  - intros pl ps ls s ls' R G.
    destruct (singleFill_latch w cfg chk pl ps ls s) as [H1 _].
    cbv zeta in H1. rewrite R in H1. cbn [fst] in H1.
    unfold budget in H1. destruct (actedOnSingleFill ls'); [reflexivity | lia].
  - intros start s.
    assert (G : Graces (0 + (0 + (1 + 0))) (runOneWindow w cfg chk fuel start)).
    { unfold runOneWindow. apply Graces_bind.
      { intros s'. unfold count. simpl. lia. }
      intros _. apply Graces_bind.
      { apply Graces_plain. apply placement_plain. }
      intros pl. unfold finishWindow. apply Graces_bind.
      { intros s'. destruct (monitor_latch w cfg chk fuel pl initLocals s') as [H1 _].
        cbv zeta in H1. unfold budget in H1. simpl in H1. lia. }
      intros _. apply Graces_plain.
      eapply Emits_weaken; [|apply closing_closingOnly]. apply closingOnly_plain. }
    apply G.
Qed.

(** ** Running a computation step by step *)

Lemma Out_eta {A} (o : Out A) :
  {| events := events o; final := final o; result := result o |} = o.
Proof. destruct o; reflexivity. Qed.

Lemma andThen_nil {A} (o : Out A) : andThen [] o = o.
Proof. unfold andThen. simpl. apply Out_eta. Qed.

Lemma andThen_andThen {A} ev1 ev2 (o : Out A) :
  andThen ev1 (andThen ev2 o) = andThen (ev1 ++ ev2) o.
Proof. unfold andThen. simpl. rewrite app_assoc. reflexivity. Qed.

Lemma bind_ret {A B} (a : A) (f : A -> M B) s : bind (ret a) f s = f a s.
Proof. unfold bind, ret. simpl. apply Out_eta. Qed.

Lemma bind_throw {A B} e (f : A -> M B) s :
  bind (throw e) f s = {| events := []; final := s; result := Throw e |}.
Proof. reflexivity. Qed.

Lemma bind_emit {B} e (f : unit -> M B) s : bind (emit e) f s = andThen [e] (f tt s).
Proof. reflexivity. Qed.

Lemma bind_getFeed {B} (f : bool -> M B) s : bind getFeed f s = f (feed s) s.
Proof. unfold bind, getFeed. simpl. apply Out_eta. Qed.

Lemma bind_getTriggered {B} (f : bool -> M B) s :
  bind getTriggered f s = f (rtdsTriggered s) s.
Proof. unfold bind, getTriggered. simpl. apply Out_eta. Qed.

Lemma bind_setTriggered {B} b (f : unit -> M B) s :
  bind (setTriggered b) f s
  = f tt {| clk := clk s; feed := feed s; rtdsTriggered := b |}.
Proof. unfold bind, setTriggered. simpl. apply Out_eta. Qed.

Lemma bind_setFeed {B} b (f : unit -> M B) s :
  bind (setFeed b) f s
  = f tt {| clk := clk s; feed := b; rtdsTriggered := rtdsTriggered s |}.
Proof. unfold bind, setFeed. simpl. apply Out_eta. Qed.

Lemma bind_call {A B} (g : nat -> A) (f : A -> M B) s :
  bind (call g) f s
  = f (g (clk s)) {| clk := S (clk s); feed := feed s; rtdsTriggered := rtdsTriggered s |}.
Proof. unfold bind, call. simpl. apply Out_eta. Qed.

Lemma bind_await {A B} w (g : nat -> A) (f : A -> M B) s :
  bind (await w g) f s
  = f (g (clk s))
      {| clk := S (clk s); feed := feed s;
         rtdsTriggered := rtdsTriggered s || (feed s && rtdsMessage w (clk s)) |}.
Proof. unfold bind, await. simpl. apply Out_eta. Qed.

Lemma bind_bind {A B C} (m : M A) (f : A -> M B) (g : B -> M C) s :
  bind (bind m f) g s = bind m (fun a => bind (f a) g) s.
Proof.
  unfold bind. destruct (result (m s)) as [a| |]; simpl; try reflexivity.
  destruct (result (f a (final (m s)))); simpl; rewrite ?app_assoc; reflexivity.
Qed.

Lemma bind_ret_r {A} (m : M A) s : bind m ret s = m s.
Proof.
  unfold bind. destruct (m s) as [ev fs [a| |]]; simpl; rewrite ?app_nil_r; reflexivity.
Qed.

(** Runs the leading steps of a computation applied to a state. *)
Ltac run :=
  repeat (rewrite ?bind_bind, ?bind_ret, ?bind_emit, ?bind_getFeed, ?bind_getTriggered,
            ?bind_setTriggered, ?bind_setFeed, ?bind_call, ?bind_await, ?bind_throw,
            ?andThen_andThen;
          cbv beta iota;
          cbn [clk feed rtdsTriggered app]).

Section ObservationFacts.

Variable w : World.
Variable cfg : Config.
Variable chk : Checked.

Lemma monitor_bothFull fuel pl ls s :
  Qltb (inject_Z (now w (clk s))) (cancelAtMs pl) = true ->
  USE_RTDS cfg && feed s && negb (rtdsTriggered s) = false ->
  bothFull (observed w pl s) = true ->
  events (monitor w cfg chk (S fuel) pl ls s)
  = [EGetOrder (upId pl); EGetOrder (downId pl);
     ELog (LBothFull (upMatched (observed w pl s)) (downMatched (observed w pl s)))]
  /\ result (monitor w cfg chk (S fuel) pl ls s) = Ok ls.
Proof.
  intros Hopen Hpoll Hfull. unfold observed in *.
  cbn [monitor]. unfold dateNow. run. rewrite Hopen.
  unfold iteration, safeGetOrder, log. run. rewrite Hpoll. run.
  destruct (USE_RTDS cfg && feed s); run; rewrite Hfull; run; split; reflexivity.
Qed.

Lemma hedge_events pl ps s book :
  getOrderBook w (clk s) (otherTokenOf cfg ps) = Some book ->
  events (hedge w cfg chk pl ps s)
  = EGetOrderBook (otherTokenOf cfg ps)
    :: match bestAsk (parseOrderBookTop book) with
       | Some (Fin a) =>
           if Qltb (maxOtherPrice cfg chk) a
           then [ELog (LHedgeSkippedEdge a (maxOtherPrice cfg chk))]
           else
             [ELog (LHedging (otherTokenOf cfg ps) (missingShares ps)
                      (r_price (hedgeOrder cfg chk pl ps)));
              EPost (hedgeOrder cfg chk pl ps);
              ELog match createAndPostOrder w (S (clk s)) (hedgeOrder cfg chk pl ps) with
                   | Some id => LHedgePosted id
                   | None => LHedgeFailed
                   end]
       | _ => [ELog LHedgeSkippedNoAsk]
       end.
Proof.
  intros Hbook. unfold hedge.
  fold (otherTokenOf cfg ps) (otherTickOf pl ps) (otherNegRiskOf pl ps).
  unfold clientGetOrderBook, clientPost, log. run.
  rewrite Hbook. unfold orThrow. run.
  destruct (bestAsk (parseOrderBookTop book)) as [[| | |a]|]; try reflexivity.
  destruct (Qltb (maxOtherPrice cfg chk) a); [reflexivity|].
  run.
  change {| r_tokenID := otherTokenOf cfg ps;
            r_price := roundDownToTick (maxOtherPrice cfg chk) (otherTickOf pl ps);
            r_size := missingShares ps;
            r_tickSize := otherTickOf pl ps;
            r_negRisk := otherNegRiskOf pl ps;
            r_postOnly := false |} with (hedgeOrder cfg chk pl ps).
  destruct (createAndPostOrder w (S (clk s)) (hedgeOrder cfg chk pl ps)); reflexivity.
Qed.

(** The single-fill branch with the grace period over, under the hedge
    policy. *)
Lemma singleFill_hedge pl ps ls s :
  action chk = Hedge ->
  Qle_bool (PAIR_GRACE_SEC cfg) (elapsedAt w ls s) = true ->
  events (singleFill w cfg chk pl ps ls s)
  = (timerLine ls ps
       ++ ELog (LGraceElapsed (filledSide ps) (missingShares ps) Hedge)
       :: events (hedge w cfg chk pl ps
                    {| clk := S (elapsedStep ls s); feed := feed s;
                       rtdsTriggered := rtdsTriggered s |}))%list.
Proof.
  intros Hpol Hgrace.
  unfold singleFill, mitigate, elapsedAt, elapsedStep, graceStart, timerLine in *.
  rewrite Hpol.
  destruct (firstSingleFillAtMs ls) as [t0|]; unfold dateNow, log; run;
    rewrite Hgrace; run; cbn [andThen events result final app];
    rewrite events_bind;
    destruct (result (hedge w cfg chk pl ps _));
    cbn [andThen events result final app ret]; rewrite ?app_nil_r; reflexivity.
Qed.

(** C3: a pass of the safety loop that reads both legs as fully filled (each
    matched + 1e-9 >= original) logs it and leaves the loop at once, with no
    sleep and no further read, whatever the latch and the timer are; what
    remains of the window is the closing sweep, so from that pass on the
    window runs no mitigation block and submits no order. *)
Theorem both_full_stops_monitoring fuel pl ls s
  (Hopen : Qltb (inject_Z (now w (clk s))) (cancelAtMs pl) = true)
  (Hpoll : USE_RTDS cfg && feed s && negb (rtdsTriggered s) = false)
  (Hfull : bothFull (observed w pl s) = true) :
  let seen := [EGetOrder (upId pl); EGetOrder (downId pl);
               ELog (LBothFull (upMatched (observed w pl s)) (downMatched (observed w pl s)))] in
  events (monitor w cfg chk (S fuel) pl ls s) = seen
  /\ result (monitor w cfg chk (S fuel) pl ls s) = Ok ls
  /\ exists sweep,
       events (finishWindow w cfg chk (S fuel) pl ls s) = (seen ++ sweep)%list
       /\ count isGraceElapsed (seen ++ sweep) = O
       /\ count isPost (seen ++ sweep) = O.
Proof.
  destruct (monitor_bothFull fuel pl ls s Hopen Hpoll Hfull) as [He Hr].
  cbv zeta. split; [exact He|]. split; [exact Hr|].
  exists (events (closing w pl (final (monitor w cfg chk (S fuel) pl ls s)))).
  unfold finishWindow. rewrite events_bind, Hr, He.
  split; [reflexivity|].
  destruct (closingOnly_counts _ (closing_closingOnly w pl
              (final (monitor w cfg chk (S fuel) pl ls s)))) as [G P].
  rewrite !count_app, G, P, !Nat.add_0_r.
  split; reflexivity.
Qed.

(** In exact arithmetic: under the hedge policy, once the grace period is
    over, the manager takes [maxOtherPrice = 1 - PRICE - MIN_HEDGE_EDGE] and reads the book of
    the other leg; with no finite best ask, or with a best ask above
    [maxOtherPrice], it only logs that the hedge is skipped; otherwise it
    submits one buy order that is not post-only, for the difference of the
    matched shares, at [roundDownToTick(maxOtherPrice, tick of the other leg)]. *)
Theorem hedge_policy pl ps ls s book
  (Hpol : action chk = Hedge)
  (Hgrace : Qle_bool (PAIR_GRACE_SEC cfg) (elapsedAt w ls s) = true)
  (Hbook : getOrderBook w (S (elapsedStep ls s)) (otherTokenOf cfg ps) = Some book) :
  let maxOther := 1 - price chk - MIN_HEDGE_EDGE cfg in
  let order := {| r_tokenID := otherTokenOf cfg ps;
                  r_price := roundDownToTick maxOther (otherTickOf pl ps);
                  r_size := Qabs (upMatched ps - downMatched ps);
                  r_tickSize := otherTickOf pl ps;
                  r_negRisk := otherNegRiskOf pl ps;
                  r_postOnly := false |} in
  let evs := events (singleFill w cfg chk pl ps ls s) in
  let head := (timerLine ls ps
                 ++ [ELog (LGraceElapsed (filledSide ps) (missingShares ps) Hedge);
                     EGetOrderBook (otherTokenOf cfg ps)])%list in
  (forall a, bestAsk (parseOrderBookTop book) = Some (Fin a) -> a <= maxOther ->
     exists outcome,
       evs = (head ++ [ELog (LHedging (otherTokenOf cfg ps) (r_size order) (r_price order));
                       EPost order; ELog outcome])%list
       /\ (outcome = LHedgeFailed \/ exists id, outcome = LHedgePosted id))
  /\ (forall a, bestAsk (parseOrderBookTop book) = Some (Fin a) -> maxOther < a ->
        evs = (head ++ [ELog (LHedgeSkippedEdge a maxOther)])%list)
  /\ ((forall a, bestAsk (parseOrderBookTop book) <> Some (Fin a)) ->
        evs = (head ++ [ELog LHedgeSkippedNoAsk])%list).
Proof.
  cbv zeta. rewrite (singleFill_hedge pl ps ls s Hpol Hgrace).
  rewrite (hedge_events pl ps
             {| clk := S (elapsedStep ls s); feed := feed s;
                rtdsTriggered := rtdsTriggered s |} book Hbook).
  fold (maxOtherPrice cfg chk). fold (missingShares ps). fold (hedgeOrder cfg chk pl ps).
  cbn [clk].
  split; [|split].
  - intros a Ha Hle. rewrite Ha. apply Qltb_ge in Hle. rewrite Hle.
    eexists. rewrite <- app_assoc. split; [reflexivity|].
    destruct (createAndPostOrder w _ _) as [id|];
      [right; exists id; reflexivity | left; reflexivity].
  - intros a Ha Hlt. rewrite Ha. apply Qltb_lt in Hlt. rewrite Hlt.
    rewrite <- app_assoc. reflexivity.
  - intros Hno. rewrite <- app_assoc.
    destruct (bestAsk (parseOrderBookTop book)) as [[| | |a]|]; try reflexivity.
    exfalso. apply (Hno a). reflexivity.
Qed.

End ObservationFacts.

Lemma both_full_stops_monitoring_witness :
  events (monitor (exampleWorld (clockUntil 30) bothFilled (fun _ => bookOf (48 # 100) (50 # 100)))
                  (exampleConfig (49 # 100) "hedge" 10 false false)
                  (exampleChecked (49 # 100) Hedge) 1 examplePlaced initLocals initSt)
  = [EGetOrder "U"; EGetOrder "D"; ELog (LBothFull 10 10)].
Proof.
  exact (proj1 (both_full_stops_monitoring
    (exampleWorld (clockUntil 30) bothFilled (fun _ => bookOf (48 # 100) (50 # 100)))
    (exampleConfig (49 # 100) "hedge" 10 false false)
    (exampleChecked (49 # 100) Hedge) 0 examplePlaced initLocals initSt
    eq_refl eq_refl eq_refl)).
Defined.

Lemma hedge_policy_witness :
  exists outcome,
    events (singleFill (exampleWorld (clockUntil 30) upHalfFilled (fun _ => bookOf (48 # 100) (50 # 100)))
                       (exampleConfig (49 # 100) "hedge" 0 false false)
                       (exampleChecked (49 # 100) Hedge) examplePlaced
                       (readPair 10 (Some (order 5 10)) (Some (order 0 10)))
                       initLocals initSt)
    = [ELog (LSingleFill 5 0); ELog (LGraceElapsed UP (Qabs (5 - 0)) Hedge);
       EGetOrderBook "DOWN";
       ELog (LHedging "DOWN" (Qabs (5 - 0))
               (roundDownToTick (1 - (49 # 100) - (2 # 1000)) (Fin (1 # 100))));
       EPost {| r_tokenID := "DOWN";
                r_price := roundDownToTick (1 - (49 # 100) - (2 # 1000)) (Fin (1 # 100));
                r_size := Qabs (5 - 0); r_tickSize := Fin (1 # 100);
                r_negRisk := false; r_postOnly := false |};
       ELog outcome].
Proof.
  assert (Hle : (50 # 100) <= 1 - (49 # 100) - (2 # 1000)) by (vm_compute; discriminate).
  destruct (proj1 (hedge_policy
    (exampleWorld (clockUntil 30) upHalfFilled (fun _ => bookOf (48 # 100) (50 # 100)))
    (exampleConfig (49 # 100) "hedge" 0 false false)
    (exampleChecked (49 # 100) Hedge) examplePlaced
    (readPair 10 (Some (order 5 10)) (Some (order 0 10)))
    initLocals initSt (bookOf (48 # 100) (50 # 100))
    eq_refl eq_refl eq_refl) (50 # 100) eq_refl Hle) as (outcome & E & _).
  exists outcome. exact E.
Defined.

(** ** Failed reads *)


Section FailedReadFacts.

Variable w : World.
Variable cfg : Config.
Variable chk : Checked.



End FailedReadFacts.


(** ** The quote sanity check *)

Section PlacementFacts.

Variable w : World.
Variable cfg : Config.
Variable chk : Checked.

Lemma isWeird_iff (x : option num) :
  isWeird x = true <->
  exists v, x = Some v /\ (leb v (Fin 0) = true \/ geb v (Fin 1) = true).
Proof.
  destruct x as [v|]; simpl.
  - rewrite orb_true_iff. split.
    + intros H. exists v. split; [reflexivity | exact H].
    + intros (v' & E & H). injection E as <-. exact H.
  - split; [discriminate|]. intros (v & E & _). discriminate E.
Qed.

(** C9: the sanity check rejects a quote only when it is present and at or
    outside (0, 1); a null best bid or ask is not weird, so with both books
    empty the check passes without the override and the legs are placed:
    the UP order is submitted. *)
Theorem empty_book_passes_sanity_check start s um dm ub db sz
  (Hkey : createOrDeriveApiKey w (clk s) = true)
  (Hum : getMarket w (S (clk s)) (UP_TOKEN_ID cfg) = Some um)
  (Hdm : getMarket w (S (S (clk s))) (DOWN_TOKEN_ID cfg) = Some dm)
  (Hreq : requestedSize cfg chk = inr (Fin sz))
  (Hsz : 0 < sz)
  (Hub : getOrderBook w (S (S (S (clk s)))) (UP_TOKEN_ID cfg) = Some ub)
  (Hdb : getOrderBook w (S (S (S (S (clk s))))) (DOWN_TOKEN_ID cfg) = Some db)
  (Hue : bestBid (parseOrderBookTop ub) = None /\ bestAsk (parseOrderBookTop ub) = None)
  (Hde : bestBid (parseOrderBookTop db) = None /\ bestAsk (parseOrderBookTop db) = None) :
  (forall x, isWeird x = true <->
     exists v, x = Some v /\ (leb v (Fin 0) = true \/ geb v (Fin 1) = true))
  /\ weirdQuotes (parseOrderBookTop ub) (parseOrderBookTop db) = false
  /\ result (placement w cfg chk start s) <> Throw UnsafeQuote
  /\ exists pre post,
       events (placement w cfg chk start s)
       = (pre ++ ELog LPlacing
              :: EPost {| r_tokenID := UP_TOKEN_ID cfg;
                          r_price := roundDownToTick (price chk) (tickSize um);
                          r_size := sz;
                          r_tickSize := tickSize um;
                          r_negRisk := negRisk um;
                          r_postOnly := POST_ONLY cfg |}
              :: post)%list.
Proof.
  destruct Hue as [Hub1 Hub2]. destruct Hde as [Hdb1 Hdb2].
  assert (Hweird : weirdQuotes (parseOrderBookTop ub) (parseOrderBookTop db) = false).
  { unfold weirdQuotes. rewrite Hub1, Hub2, Hdb1, Hdb2. reflexivity. }
  split; [exact isWeird_iff|]. split; [exact Hweird|].
  assert (Hnw : negb (ALLOW_WEIRD_QUOTES cfg)
                 && weirdQuotes (parseOrderBookTop ub) (parseOrderBookTop db) = false).
  { rewrite Hweird. apply andb_false_r. }
  apply Qle_bool_gt in Hsz.
  assert (Hrun : exists pre rest,
            placement w cfg chk start s
            = andThen
                (pre ++ [ELog LPlacing;
                         EPost {| r_tokenID := UP_TOKEN_ID cfg;
                                  r_price := roundDownToTick (price chk) (tickSize um);
                                  r_size := sz;
                                  r_tickSize := tickSize um;
                                  r_negRisk := negRisk um;
                                  r_postOnly := POST_ONLY cfg |}])
                rest
            /\ result rest <> Throw UnsafeQuote).
  { unfold requestedSize in Hreq.
    unfold placement, clientGetMarket, clientGetOrderBook, clientPost, sleep, dateNow, log.
    run. rewrite Hkey. run. rewrite Hum. unfold orThrow at 1. run.
    rewrite Hdm. unfold orThrow at 1. run.
    assert (Hn : exists n, sharesArg cfg = Some n /\ n = Fin sz
                           \/ sharesArg cfg = None
                              /\ computeSizeShares (INVEST_PER_SIDE cfg) (Fin (price chk)) = inr sz).
    { destruct (sharesArg cfg) as [n|].
      - exists n. left. split; [reflexivity|]. injection Hreq as ->. reflexivity.
      - exists NaN. right. split; [reflexivity|].
        destruct (computeSizeShares _ _) as [e|q]; [discriminate Hreq|].
        injection Hreq as ->. reflexivity. }
    destruct Hn as (n & [[Hs ->] | [Hs Hc]]); rewrite Hs; try rewrite Hc; unfold liftE; run;
      rewrite Hsz; run; rewrite Hub; unfold orThrow at 1; run;
      rewrite Hdb; unfold orThrow at 1; run; rewrite Hnw; run.
    all: destruct (0 <? start - now w (S (S (S (S (S (clk s)))))))%Z; run.
    all: match goal with
         | |- context [ELog (LWaiting ?d)] =>
             exists [ELog LInitializing; ECreds; ELog LReinitializing; ELog LFetchingMetadata;
                     EGetMarket (UP_TOKEN_ID cfg); EGetMarket (DOWN_TOKEN_ID cfg);
                     EGetOrderBook (UP_TOKEN_ID cfg); EGetOrderBook (DOWN_TOKEN_ID cfg);
                     ELog (LWaiting d); ESleep (inject_Z d)]
         | |- _ =>
             exists [ELog LInitializing; ECreds; ELog LReinitializing; ELog LFetchingMetadata;
                     EGetMarket (UP_TOKEN_ID cfg); EGetMarket (DOWN_TOKEN_ID cfg);
                     EGetOrderBook (UP_TOKEN_ID cfg); EGetOrderBook (DOWN_TOKEN_ID cfg)]
         end.
    all: eexists; split; [reflexivity|].
    all: repeat first
           [ progress run
           | progress cbn [andThen result]
           | discriminate
           | match goal with
             | |- context [orThrow ?x] => destruct x; unfold orThrow at 1
             | |- context [if ?c then _ else _] => destruct c
             end ]. }
  destruct Hrun as (pre & rest & Hrun & Hrest).
  rewrite Hrun. cbn [andThen events result]. split; [exact Hrest|].
  exists pre, (events rest). rewrite <- app_assoc. reflexivity.
Qed.

End PlacementFacts.

Lemma empty_book_passes_sanity_check_witness :
  weirdQuotes (parseOrderBookTop emptyBook) (parseOrderBookTop emptyBook) = false
  /\ result (placement (exampleWorld fastClock noOrders (fun _ => emptyBook))
                       (exampleConfig (49 # 100) "hedge" 10 false false)
                       (exampleChecked (49 # 100) Hedge) 0 initSt)
     <> Throw UnsafeQuote.
Proof.
  destruct (empty_book_passes_sanity_check
              (exampleWorld fastClock noOrders (fun _ => emptyBook))
              (exampleConfig (49 # 100) "hedge" 10 false false)
              (exampleChecked (49 # 100) Hedge) 0 initSt
              {| tickSize := Fin (1 # 100); negRisk := false |}
              {| tickSize := Fin (1 # 100); negRisk := false |}
              emptyBook emptyBook (toFixedScale scale6 (5 / (49 # 100)))
              eq_refl eq_refl eq_refl eq_refl eq_refl eq_refl eq_refl
              (conj eq_refl eq_refl) (conj eq_refl eq_refl)) as (_ & H1 & H2 & _).
  split; [exact H1 | exact H2].
Defined.

(** ** The closing sweep *)

Lemma cancelAll_cancelIds w ids : forall s,
  cancelIds (events (cancelAll w ids s)) = ids.
Proof.
  induction ids as [|id ids IH]; intros s; [reflexivity|].
  cbn [cancelAll]. unfold cancelBestEffort, log. run.
  cbn [andThen events cancelIds app]. rewrite IH. reflexivity.
Qed.

(** The sweep requests one cancellation for each id of [orderIds], in order,
    whatever the answers. *)
Lemma closing_cancels_orderIds w pl s :
  cancelIds (events (closing w pl s)) = orderIds pl.
Proof.
  unfold closing, log. run.
  destruct (feed s); run; cbn [andThen events cancelIds app];
    apply cancelAll_cancelIds.
Qed.

Section SweepFacts.

Variable w : World.
Variable cfg : Config.
Variable chk : Checked.

(** The ids the sweep will go through are those of the two legs. *)
Lemma placement_orderIds start s :
  match result (placement w cfg chk start s) with
  | Ok pl => orderIds pl = [upId pl; downId pl]
  | _ => True
  end.
Proof.
  unfold placement, clientGetMarket, clientGetOrderBook, clientPost, sleep, dateNow, log,
    liftE.
  repeat first
    [ progress run
    | progress cbn [andThen result orderIds upId downId]
    | exact I
    | reflexivity
    | match goal with
      | |- context [orThrow ?x] => destruct x; unfold orThrow at 1
      | |- context [if ?c then _ else _] => destruct c
      | |- context [match sharesArg cfg with _ => _ end] => destruct (sharesArg cfg)
      | |- context [match computeSizeShares ?a ?b with _ => _ end] =>
          destruct (computeSizeShares a b)
      | |- context [match ?n with Fin _ => _ | _ => _ end] => is_var n; destruct n
      end ].
Qed.

(** In a window that gets past placement, the cancel requests of the sweep
    are exactly one for the UP leg and one for the DOWN leg. *)
Lemma sweep_covers_the_two_legs start s pl s' :
  result (placement w cfg chk start s) = Ok pl ->
  cancelIds (events (closing w pl s')) = [upId pl; downId pl].
Proof.
  intros H. rewrite closing_cancels_orderIds.
  pose proof (placement_orderIds start s) as P. rewrite H in P. exact P.
Qed.

End SweepFacts.

(** C1, the failing run: UP has 5 of 10 shares matched, DOWN none, the
    grace period is zero and the policy is hedge.  The hedge order H is
    posted, the window runs to its deadline and returns, and the closing
    sweep requests the cancellation of U and D only: H gets no cancel
    attempt. *)
Theorem hedge_order_escapes_closing_sweep :
  let o := main (exampleWorld (clockUntil 30) upHalfFilled
                              (fun _ => bookOf (48 # 100) (50 # 100)))
                (exampleConfig (49 # 100) "hedge" 0 false false) 0 50 initSt in
  result o = Ok tt
  /\ hedgeIds (events o) = ["H"]
  /\ cancelIds (events o) = ["U"; "D"]
  /\ count (isCancelOf "H") (events o) = O.
Proof. vm_compute. repeat split. Qed.

(** ** The safety loop returns *)

Lemma Ticks_ret {A} (a : A) : Ticks (ret a).
Proof. intros s. split; [apply Nat.le_refl | discriminate]. Qed.

Lemma Ticks_throw {A} e : Ticks (@throw A e).
Proof. intros s. split; [apply Nat.le_refl | discriminate]. Qed.

Lemma Ticks_bind {A B} (m : M A) (f : A -> M B) :
  Ticks m -> (forall a, Ticks (f a)) -> Ticks (bind m f).
Proof.
  intros Hm Hf s. rewrite final_bind, result_bind. destruct (Hm s) as [H1 H2].
  destruct (result (m s)) as [a| |].
  - destruct (Hf a (final (m s))) as [G1 G2]. split; [lia | exact G2].
  - split; [exact H1 | discriminate].
  - contradiction.
Qed.

Lemma Ticks_steady {A} (m : M A) :
  (forall s, clk (final (m s)) = clk s /\ exists a, result (m s) = Ok a) -> Ticks m.
Proof.
  intros H s. destruct (H s) as [E [a R]]. rewrite E, R.
  split; [apply Nat.le_refl | discriminate].
Qed.

Lemma Ticks_call {A} (g : nat -> A) : Ticks (call g).
Proof. intros s. simpl. split; [lia | discriminate]. Qed.

Lemma Ticks_await {A} w (g : nat -> A) : Ticks (await w g).
Proof. intros s. simpl. split; [lia | discriminate]. Qed.

(** Splits a computation along its binds and case distinctions. *)
Ltac ticks_step :=
  first
    [ apply Ticks_ret | apply Ticks_throw
    | apply Ticks_call | apply Ticks_await
    | apply Ticks_steady; intros; split; [reflexivity | eexists; reflexivity]
    | solve [ match goal with H : _ |- _ => apply H end ]
    | apply Ticks_bind; [| intros ?]
    | match goal with
      | |- Ticks (match ?x with _ => _ end) => destruct x
      end ].

Ltac ticks := repeat ticks_step.

Section ReturnFacts.

Variable w : World.
Variable cfg : Config.
Variable chk : Checked.

Lemma iteration_ticks pl ls : Ticks (iteration w cfg chk pl ls).
Proof.
  unfold iteration, singleFill, mitigate, hedge, safeGetOrder, cancelBestEffort,
    clientGetOrderBook, clientPost, orThrow, sleep, dateNow, log.
  ticks.
Qed.

(** When the clock is at or past the deadline from step [n] on, the loop
    returns or throws within [n - clk + 1] passes: it does not run out of
    fuel. *)
Lemma monitor_returns n pl : forall fuel ls s,
  (forall k, (n <= k)%nat -> inject_Z (now w k) >= cancelAtMs pl) ->
  (n - clk s + 1 <= fuel)%nat ->
  result (monitor w cfg chk fuel pl ls s) <> OutOfFuel.
Proof.
  intros fuel. induction fuel as [|fuel IH]; intros ls s Hn Hfuel; [lia|].
  cbn [monitor]. unfold dateNow. rewrite bind_call.
  destruct (Qltb (inject_Z (now w (clk s))) (cancelAtMs pl)) eqn:E.
  - assert (L : (clk s < n)%nat).
    { destruct (Nat.lt_ge_cases (clk s) n) as [L|L]; [exact L|].
      apply Qltb_lt in E. specialize (Hn (clk s) L). lra. }
    set (s1 := {| clk := S (clk s); feed := feed s; rtdsTriggered := rtdsTriggered s |}).
    rewrite result_bind.
    destruct (iteration_ticks pl ls s1) as [T R]. cbn [s1 clk] in T. fold s1 in T.
    destruct (result (iteration w cfg chk pl ls s1)) as [[[] ls']| |];
      cbn [ret result]; try discriminate; try contradiction.
    apply IH; [exact Hn | lia].
  - discriminate.
Qed.

End ReturnFacts.

(** * Further properties of the script *)

(** ** The window boundary *)

(** X1: for a positive window length, [ceilToWindowMs] returns the first
    window boundary at or after the given time: a multiple of the window
    length, not before the time and less than one window after it; a time
    on a boundary is returned as it is. *)
Theorem ceilToWindowMs_next_boundary (nowMs windowMinutes : Z)
  (Hw : (0 < windowMinutes)%Z) :
  let windowMs := (windowMinutes * 60 * 1000)%Z in
  let r := ceilToWindowMs nowMs windowMinutes in
  (r mod windowMs = 0)%Z
  /\ (nowMs <= r < nowMs + windowMs)%Z
  /\ ((nowMs mod windowMs = 0)%Z -> r = nowMs).
Proof.
  cbv zeta. unfold ceilToWindowMs.
  set (W := (windowMinutes * 60 * 1000)%Z).
  assert (HW : (0 < W)%Z) by (unfold W; lia).
  assert (HWq : 0 < inject_Z W).
  { change 0 with (inject_Z 0). rewrite <- Zlt_Qlt. exact HW. }
  assert (HW' : ~ inject_Z W == 0) by (intro E; rewrite E in HWq; discriminate).
  set (c := Qceiling (inject_Z nowMs / inject_Z W)).
  pose proof (Qle_ceiling (inject_Z nowMs / inject_Z W)) as H1.
  pose proof (Qceiling_lt (inject_Z nowMs / inject_Z W)) as H2.
  fold c in H1, H2.
  assert (E : inject_Z nowMs / inject_Z W * inject_Z W == inject_Z nowMs)
    by (field; exact HW').
  assert (L : (nowMs <= c * W)%Z).
  { rewrite Zle_Qle, inject_Z_mult, <- E.
    apply Qmult_le_compat_r; [exact H1 | apply Qlt_le_weak; exact HWq]. }
  assert (U : (c * W < nowMs + W)%Z).
  { rewrite Zlt_Qlt, inject_Z_mult, inject_Z_plus.
    assert (U' : (inject_Z c - 1) * inject_Z W < inject_Z nowMs).
    { rewrite <- E. apply Qmult_lt_compat_r; [exact HWq|].
      unfold Z.sub in H2. rewrite inject_Z_plus, inject_Z_opp in H2.
      change (inject_Z 1) with 1 in H2. lra. }
    lra. }
  split; [apply Z.mod_mul; lia|]. split; [lia|].
  intros Hm. apply Z.mod_divide in Hm; [|lia]. destruct Hm as [b Hb].
  clearbody c W. subst nowMs.
  assert (B1 : (b <= c)%Z) by (apply (Z.mul_le_mono_pos_r _ _ W); lia).
  assert (B2 : (c < b + 1)%Z) by (apply (Z.mul_lt_mono_pos_r W); lia).
  f_equal. lia.
Qed.

Lemma ceilToWindowMs_next_boundary_witness :
  (1767224123456 <= ceilToWindowMs 1767224123456 15 < 1767224123456 + 15 * 60 * 1000)%Z
  /\ ceilToWindowMs 1767224700000 15 = 1767224700000%Z.
Proof.
  pose proof (ceilToWindowMs_next_boundary 1767224123456 15 eq_refl) as (_ & R & _).
  pose proof (ceilToWindowMs_next_boundary 1767224700000 15 eq_refl) as (_ & _ & H).
  split; [exact R | exact (H eq_refl)].
Defined.

(** ** Sizing *)



(** ** Snapping prices *)

Lemma tickIndex_grid (k : Z) (x t : Q) :
  0 < t -> x == inject_Z k * t -> tickIndex x t = k.
Proof.
  intros Ht Hx. unfold tickIndex.
  assert (E : x * (1 / t) + eps == inject_Z k + eps).
  { rewrite Hx. field. intro Z0. rewrite Z0 in Ht. discriminate Ht. }
  rewrite E. symmetry. apply Z.le_antisymm.
  - rewrite <- (Qfloor_Z k) at 1. apply Qfloor_resp_le. unfold eps. lra.
  - apply Z.lt_succ_r. rewrite Zlt_Qlt.
    eapply Qle_lt_trans; [apply Qfloor_le|].
    unfold Z.succ. rewrite inject_Z_plus. change (inject_Z 1) with 1. unfold eps. lra.
Qed.

(** X3: on a tick size that is a positive whole number of 1e-8 units,
    [roundDownToTick] is idempotent (a snapped price snaps to itself), it
    lowers a price by less than one tick, and it is monotone in the price. *)
Theorem roundDownToTick_idempotent (p t : Q) (m : Z)
  (Ht : 0 < t) (Hm : t * scale8 == inject_Z m) :
  roundDownToTick (roundDownToTick p (Fin t)) (Fin t) == roundDownToTick p (Fin t)
  /\ p - t < roundDownToTick p (Fin t)
  /\ (forall p', p <= p' -> roundDownToTick p (Fin t) <= roundDownToTick p' (Fin t)).
Proof.
  pose proof (roundDownToTick_exact p t m Ht Hm) as E.
  split; [|split].
  - rewrite (roundDownToTick_exact (roundDownToTick p (Fin t)) t m Ht Hm).
    rewrite (tickIndex_grid (tickIndex p t) _ t Ht E). symmetry. exact E.
  - rewrite E. pose proof (snapped_bounds p t Ht) as [_ H].
    assert (0 < eps * t) by (apply Qmult_lt_0_compat; [reflexivity | exact Ht]).
    lra.
  - intros p' Hp. rewrite E, (roundDownToTick_exact p' t m Ht Hm).
    apply Qmult_le_compat_r; [|lra].
    rewrite <- Zle_Qle. unfold tickIndex. apply Qfloor_resp_le.
    assert (0 <= 1 / t) by (apply Qle_shift_div_l; lra).
    assert (p * (1 / t) <= p' * (1 / t)) by (apply Qmult_le_compat_r; assumption).
    lra.
Qed.

Lemma roundDownToTick_idempotent_witness :
  roundDownToTick (roundDownToTick (495 # 1000) (Fin (1 # 100))) (Fin (1 # 100))
  == roundDownToTick (495 # 1000) (Fin (1 # 100))
  /\ (495 # 1000) - (1 # 100) < roundDownToTick (495 # 1000) (Fin (1 # 100)).
Proof.
  assert (Ht : 0 < 1 # 100) by reflexivity.
  assert (Hm : (1 # 100) * scale8 == inject_Z 1000000) by reflexivity.
  destruct (roundDownToTick_idempotent (495 # 1000) (1 # 100) 1000000 Ht Hm) as (H1 & H2 & _).
  split; [exact H1 | exact H2].
Defined.

(** ** The command line *)

Lemma indexOf_absent flag argv : ~ In flag argv -> indexOf flag argv = None.
Proof.
  induction argv as [|a argv IH]; intros H; [reflexivity|].
  simpl. destruct (String.eqb a flag) eqn:E.
  - apply String.eqb_eq in E. exfalso. apply H. left. exact E.
  - rewrite IH; [reflexivity|]. intro I. apply H. right. exact I.
Qed.

Lemma indexOf_first flag pre rest :
  ~ In flag pre -> indexOf flag (pre ++ flag :: rest) = Some (List.length pre).
Proof.
  induction pre as [|a pre IH]; intros H; simpl.
  - rewrite String.eqb_refl. reflexivity.
  - destruct (String.eqb a flag) eqn:E.
    + apply String.eqb_eq in E. exfalso. apply H. left. exact E.
    + rewrite IH; [reflexivity|]. intro I. apply H. right. exact I.
Qed.

(** X4: [getArgValue] reads the argument that follows the first occurrence
    of the flag: it is undefined when the flag is absent, when the flag is
    the last argument, or when the argument that follows starts with two
    dashes; later occurrences of the flag are not looked at, and a value it
    returns never starts with two dashes. *)
Theorem getArgValue_first_occurrence (argv : list string) (flag : string) :
  (~ In flag argv -> getArgValue argv flag = None)
  /\ (forall pre, ~ In flag pre -> argv = (pre ++ [flag])%list ->
        getArgValue argv flag = None)
  /\ (forall pre val rest, ~ In flag pre -> argv = (pre ++ flag :: val :: rest)%list ->
        getArgValue argv flag = if String.prefix "--" val then None else Some val)
  /\ (forall val, getArgValue argv flag = Some val ->
        String.prefix "--" val = false /\ In val argv).
Proof.
  unfold getArgValue. split; [|split; [|split]].
  - intros H. rewrite (indexOf_absent _ _ H). reflexivity.
  - intros pre H ->. rewrite (indexOf_first _ _ _ H).
    rewrite nth_error_app2 by lia.
    replace (List.length pre + 1 - List.length pre)%nat with 1%nat by lia. reflexivity.
  - intros pre val rest H ->. rewrite (indexOf_first _ _ _ H).
    rewrite nth_error_app2 by lia.
    replace (List.length pre + 1 - List.length pre)%nat with 1%nat by lia. reflexivity.
  - intros val H. destruct (indexOf flag argv) as [idx|]; [|discriminate H].
    destruct (nth_error argv (idx + 1)) as [v|] eqn:N; [|discriminate H].
    destruct (String.prefix "--" v) eqn:P; [discriminate H|].
    injection H as <-. split; [exact P | exact (nth_error_In _ _ N)].
Qed.

(** ** The single-fill branch *)

Lemma oneSome_filledSide (ps : PairState) :
  oneSome ps = true ->
  filledSide ps = (if upSome ps then UP else DOWN) /\ 0 < missingShares ps.
Proof.
  unfold oneSome, upSome, downSome, filledSide, missingShares.
  destruct (Qltb eps (upMatched ps)) eqn:U, (Qltb eps (downMatched ps)) eqn:D;
    cbn [andb orb negb]; try discriminate; intros _.
  - apply Qltb_lt in U. apply Qltb_ge in D.
    assert (L : downMatched ps < upMatched ps) by lra.
    apply Qltb_lt in L. rewrite L. split; [reflexivity|].
    apply Qltb_lt in L. apply Qabs_case; intros; lra.
  - apply Qltb_ge in U. apply Qltb_lt in D.
    assert (L : upMatched ps <= downMatched ps) by lra.
    apply Qltb_ge in L. rewrite L. split; [reflexivity|].
    apply Qltb_ge in L. apply Qabs_case; intros; lra.
Qed.

Section SingleFillFacts.

Variable w : World.
Variable cfg : Config.
Variable chk : Checked.

(** The single-fill branch, step by step: the timer line when the timer
    starts, then the mitigation block when the grace period is over. *)
Lemma singleFill_run pl ps ls s :
  let s' := {| clk := S (elapsedStep ls s); feed := feed s;
               rtdsTriggered := rtdsTriggered s |} in
  singleFill w cfg chk pl ps ls s
  = andThen (timerLine ls ps)
      (if Qle_bool (PAIR_GRACE_SEC cfg) (elapsedAt w ls s)
       then (mitigate w cfg chk pl ps ;;
             ret {| firstSingleFillAtMs := Some (graceStart w ls s);
                    actedOnSingleFill := true |}) s'
       else ret {| firstSingleFillAtMs := Some (graceStart w ls s);
                   actedOnSingleFill := actedOnSingleFill ls |} s').
Proof.
  cbv zeta. unfold singleFill, elapsedAt, elapsedStep, graceStart, timerLine.
  destruct (firstSingleFillAtMs ls) as [t0|]; unfold dateNow, log; run.
  - rewrite andThen_nil.
    destruct (Qle_bool (PAIR_GRACE_SEC cfg) (inject_Z (now w (clk s) - t0) / 1000));
      reflexivity.
  - destruct (Qle_bool (PAIR_GRACE_SEC cfg)
                (inject_Z (now w (S (clk s)) - now w (clk s)) / 1000)); reflexivity.
Qed.

Lemma mitigate_cancel pl ps s :
  action chk = Cancel ->
  let id := match filledSide ps with UP => downId pl | DOWN => upId pl end in
  mitigate w cfg chk pl ps s
  = {| events := [ELog (LGraceElapsed (filledSide ps) (missingShares ps) Cancel);
                  ECancel id;
                  ELog (LCancelUnfilled id (cancelOrder w (clk s) id))];
       final := {| clk := S (clk s); feed := feed s;
                   rtdsTriggered := rtdsTriggered s || (feed s && rtdsMessage w (clk s)) |};
       result := Ok tt |}.
Proof.
  intros Hpol. cbv zeta. unfold mitigate. rewrite Hpol.
  unfold cancelBestEffort, log. run. reflexivity.
Qed.

Lemma mitigate_wait pl ps s :
  action chk = Wait ->
  mitigate w cfg chk pl ps s
  = {| events := [ELog (LGraceElapsed (filledSide ps) (missingShares ps) Wait)];
       final := s; result := Ok tt |}.
Proof.
  intros Hpol. unfold mitigate. rewrite Hpol. unfold log. run. reflexivity.
Qed.

(** X5: when exactly one leg has matched shares, the side the mitigation
    block treats as filled is that leg, the missing share count is
    positive, and the hedge order is for the token of the other leg. *)
Theorem mitigation_targets_unfilled_leg pl (ps : PairState)
  (Hone : oneSome ps = true) :
  0 < missingShares ps
  /\ 0 < r_size (hedgeOrder cfg chk pl ps)
  /\ (upSome ps = true ->
        filledSide ps = UP
        /\ r_tokenID (hedgeOrder cfg chk pl ps) = DOWN_TOKEN_ID cfg
        /\ r_tickSize (hedgeOrder cfg chk pl ps) = downTickSize pl)
  /\ (downSome ps = true ->
        filledSide ps = DOWN
        /\ r_tokenID (hedgeOrder cfg chk pl ps) = UP_TOKEN_ID cfg
        /\ r_tickSize (hedgeOrder cfg chk pl ps) = upTickSize pl).
Proof.
  destruct (oneSome_filledSide ps Hone) as [F M].
  split; [exact M|]. split; [exact M|].
  unfold hedgeOrder, otherTokenOf, otherTickOf. cbn [r_tokenID r_tickSize].
  split; intros H.
  - rewrite H in F. rewrite F. repeat split.
  - assert (U : upSome ps = false).
    { unfold oneSome in Hone. rewrite H in Hone.
      destruct (upSome ps); [discriminate Hone | reflexivity]. }
    rewrite U in F. rewrite F. repeat split.
Qed.

(** X6: under the cancel policy, once the grace period is over with exactly
    one leg filled, the branch requests one cancellation, for the order of
    the leg without matched shares, and submits nothing; a rejected
    cancellation is only logged, and either way the branch returns with the
    latch set and the timer kept. *)
Theorem cancel_policy pl ps ls s
  (Hpol : action chk = Cancel)
  (Hone : oneSome ps = true)
  (Hgrace : PAIR_GRACE_SEC cfg <= elapsedAt w ls s) :
  let unfilled := if upSome ps then downId pl else upId pl in
  let ok := cancelOrder w (S (elapsedStep ls s)) unfilled in
  events (singleFill w cfg chk pl ps ls s)
  = (timerLine ls ps
       ++ [ELog (LGraceElapsed (filledSide ps) (missingShares ps) Cancel);
           ECancel unfilled;
           ELog (LCancelUnfilled unfilled ok)])%list
  /\ result (singleFill w cfg chk pl ps ls s)
     = Ok {| firstSingleFillAtMs := Some (graceStart w ls s);
             actedOnSingleFill := true |}.
Proof.
  cbv zeta. apply Qle_bool_iff in Hgrace.
  pose proof (singleFill_run pl ps ls s) as R. cbv zeta in R. rewrite R, Hgrace.
  destruct (oneSome_filledSide ps Hone) as [F _].
  unfold bind. rewrite (mitigate_cancel pl ps _ Hpol). cbn [result events final andThen ret].
  rewrite F. destruct (upSome ps); cbn [clk]; rewrite app_nil_r; split; reflexivity.
Qed.

(** X7: while the grace period has not elapsed the single-fill branch does
    nothing but start the timer: it logs the detection when the timer was
    not running, sends nothing to the exchange, leaves the latch as it is,
    and keeps the timer at the time of the first detection. *)
Theorem grace_period_defers_mitigation pl ps ls s
  (Hearly : elapsedAt w ls s < PAIR_GRACE_SEC cfg) :
  events (singleFill w cfg chk pl ps ls s) = timerLine ls ps
  /\ result (singleFill w cfg chk pl ps ls s)
     = Ok {| firstSingleFillAtMs := Some (graceStart w ls s);
             actedOnSingleFill := actedOnSingleFill ls |}
  /\ (forall t, firstSingleFillAtMs ls = Some t ->
        events (singleFill w cfg chk pl ps ls s) = [] /\ graceStart w ls s = t).
Proof.
  apply Qle_bool_gt in Hearly.
  pose proof (singleFill_run pl ps ls s) as R. cbv zeta in R. rewrite R, Hearly.
  cbn [andThen ret events result]. rewrite app_nil_r.
  split; [reflexivity|]. split; [reflexivity|].
  intros t Ht. unfold timerLine, graceStart. rewrite Ht. split; reflexivity.
Qed.

End SingleFillFacts.

Lemma mitigation_targets_unfilled_leg_witness :
  filledSide (readPair 10 (Some (order 0 10)) (Some (order 4 10))) = DOWN
  /\ r_tokenID (hedgeOrder (exampleConfig (49 # 100) "hedge" 10 false false)
                           (exampleChecked (49 # 100) Hedge) examplePlaced
                           (readPair 10 (Some (order 0 10)) (Some (order 4 10))))
     = "UP".
Proof.
  destruct (mitigation_targets_unfilled_leg
              (exampleConfig (49 # 100) "hedge" 10 false false)
              (exampleChecked (49 # 100) Hedge) examplePlaced
              (readPair 10 (Some (order 0 10)) (Some (order 4 10))) eq_refl)
    as (_ & _ & _ & H).
  destruct (H eq_refl) as (H1 & H2 & _). split; [exact H1 | exact H2].
Defined.

Lemma cancel_policy_witness :
  events (singleFill (exampleWorld (clockUntil 30) upHalfFilled (fun _ => emptyBook))
                     (exampleConfig (49 # 100) "cancel" 0 false false)
                     (exampleChecked (49 # 100) Cancel) examplePlaced
                     (readPair 10 (Some (order 5 10)) (Some (order 0 10)))
                     initLocals initSt)
  = [ELog (LSingleFill 5 0); ELog (LGraceElapsed UP (Qabs (5 - 0)) Cancel);
     ECancel "D"; ELog (LCancelUnfilled "D" true)].
Proof.
  assert (G : 0 <= elapsedAt (exampleWorld (clockUntil 30) upHalfFilled (fun _ => emptyBook))
                             initLocals initSt) by (vm_compute; discriminate).
  exact (proj1 (cancel_policy
    (exampleWorld (clockUntil 30) upHalfFilled (fun _ => emptyBook))
    (exampleConfig (49 # 100) "cancel" 0 false false)
    (exampleChecked (49 # 100) Cancel) examplePlaced
    (readPair 10 (Some (order 5 10)) (Some (order 0 10)))
    initLocals initSt eq_refl eq_refl G)).
Defined.

Lemma grace_period_defers_mitigation_witness :
  events (singleFill (exampleWorld (clockUntil 30) upHalfFilled (fun _ => emptyBook))
                     (exampleConfig (49 # 100) "hedge" 10 false false)
                     (exampleChecked (49 # 100) Hedge) examplePlaced
                     (readPair 10 (Some (order 5 10)) (Some (order 0 10)))
                     initLocals initSt)
  = [ELog (LSingleFill 5 0)].
Proof.
  assert (G : elapsedAt (exampleWorld (clockUntil 30) upHalfFilled (fun _ => emptyBook))
                        initLocals initSt < 10) by (vm_compute; reflexivity).
  exact (proj1 (grace_period_defers_mitigation
    (exampleWorld (clockUntil 30) upHalfFilled (fun _ => emptyBook))
    (exampleConfig (49 # 100) "hedge" 10 false false)
    (exampleChecked (49 # 100) Hedge) examplePlaced
    (readPair 10 (Some (order 5 10)) (Some (order 0 10)))
    initLocals initSt G)).
Defined.

(** ** The safety loop as a whole *)

(** As [emits], with [tac] for the events themselves. *)
Ltac emits_with tac :=
  repeat first
    [ apply Emits_ret | apply Emits_throw | apply Emits_outOfFuel | apply Emits_liftE
    | apply Emits_call | apply Emits_await | apply Emits_orThrow
    | apply Emits_silent; intros; reflexivity
    | solve [ match goal with H : _ |- _ => apply H end ]
    | apply Emits_emit; solve [tac]
    | apply Emits_bind; [| intros ?]
    | match goal with
      | |- Emits _ (match ?x with _ => _ end) => destruct x
      end ].

Lemma Returns_ret {A} (Q : A -> Prop) (a : A) : Q a -> Returns Q (ret a).
Proof. intros H s a' E. injection E as <-. exact H. Qed.

Lemma Returns_bind {A B} (P : A -> Prop) (Q : B -> Prop) (m : M A) (f : A -> M B) :
  Returns P m -> (forall a, P a -> Returns Q (f a)) -> Returns Q (bind m f).
Proof.
  intros Hm Hf s b. rewrite result_bind.
  destruct (result (m s)) as [a| |] eqn:E; try discriminate.
  apply (Hf a (Hm s a E)).
Qed.

Lemma Returns_any {A} (m : M A) : Returns (fun _ => True) m.
Proof. intros s a _. exact I. Qed.

Lemma carriesOn_refl ls : carriesOn ls ls.
Proof. split; auto. Qed.

Lemma carriesOn_trans ls1 ls2 ls3 :
  carriesOn ls1 ls2 -> carriesOn ls2 ls3 -> carriesOn ls1 ls3.
Proof. intros [A1 A2] [B1 B2]. split; auto. Qed.



Section LoopFacts.

Variable w : World.
Variable cfg : Config.
Variable chk : Checked.

(** What holds of the events of the mitigation block and of every event
    that is neither an order, a cancel request nor a grace-elapsed line
    holds of the events of the loop. *)
Lemma iteration_emits (P : Event -> Prop) pl ls :
  (forall e, quiet e -> P e) ->
  (forall ps, Emits P (mitigate w cfg chk pl ps)) ->
  Emits P (iteration w cfg chk pl ls).
Proof.
  intros Hq Hm.
  unfold iteration, singleFill, safeGetOrder, sleep, dateNow, log.
  emits_with ltac:(apply Hq; exact I).
Qed.

Lemma monitor_emits (P : Event -> Prop) fuel pl :
  (forall e, quiet e -> P e) ->
  (forall ps, Emits P (mitigate w cfg chk pl ps)) ->
  forall ls, Emits P (monitor w cfg chk fuel pl ls).
Proof.
  intros Hq Hm.
  induction fuel as [|fuel IH]; intros ls; simpl; [apply Emits_outOfFuel|].
  unfold dateNow. pose proof (iteration_emits P pl ls Hq Hm). emits.
Qed.

Lemma mitigate_noPost pl ps :
  action chk <> Hedge -> Emits (fun e => isPost e = false) (mitigate w cfg chk pl ps).
Proof.
  intros H. unfold mitigate, cancelBestEffort, log.
  destruct (action chk); [| |contradiction]; emits_with ltac:(simpl; reflexivity).
Qed.

Lemma mitigate_noCancel pl ps :
  action chk <> Cancel -> Emits (fun e => isCancel e = false) (mitigate w cfg chk pl ps).
Proof.
  intros H. unfold mitigate, hedge, clientGetOrderBook, clientPost, log.
  destruct (action chk); [|contradiction|]; emits_with ltac:(simpl; reflexivity).
Qed.

Lemma quiet_noPost e : quiet e -> isPost e = false.
Proof. destruct e; simpl; intros H; try reflexivity; contradiction. Qed.

Lemma quiet_noCancel e : quiet e -> isCancel e = false.
Proof. destruct e; simpl; intros H; try reflexivity; contradiction. Qed.

(** X8: what the safety loop sends to the exchange is bounded by the
    policy: under wait it submits no order and requests no cancellation,
    under cancel it submits no order, and under hedge it requests no
    cancellation. *)
Theorem policy_limits_actions fuel pl ls s :
  let evs := events (monitor w cfg chk fuel pl ls s) in
  (action chk = Wait -> count isPost evs = O /\ count isCancel evs = O)
  /\ (action chk = Cancel -> count isPost evs = O)
  /\ (action chk = Hedge -> count isCancel evs = O).
Proof.
  cbv zeta.
  assert (NP : action chk <> Hedge -> count isPost (events (monitor w cfg chk fuel pl ls s)) = O).
  { intros H. apply count_none.
    apply (monitor_emits (fun e => isPost e = false) fuel pl quiet_noPost
             (fun ps => mitigate_noPost pl ps H) ls s). }
  assert (NC : action chk <> Cancel -> count isCancel (events (monitor w cfg chk fuel pl ls s)) = O).
  { intros H. apply count_none.
    apply (monitor_emits (fun e => isCancel e = false) fuel pl quiet_noCancel
             (fun ps => mitigate_noCancel pl ps H) ls s). }
  split; [|split]; intros H.
  - split; [apply NP | apply NC]; rewrite H; discriminate.
  - apply NP. rewrite H. discriminate.
  - apply NC. rewrite H. discriminate.
Qed.




(** *** The timer and the latch *)

Lemma singleFill_carriesOn pl ps ls :
  Returns (carriesOn ls) (singleFill w cfg chk pl ps ls).
Proof.
  intros s ls' R. pose proof (singleFill_run w cfg chk pl ps ls s) as E.
  cbv zeta in E. rewrite E in R. cbn [andThen result] in R.
  assert (G : forall t, firstSingleFillAtMs ls = Some t -> graceStart w ls s = t).
  { intros t Ht. unfold graceStart. rewrite Ht. reflexivity. }
  destruct (Qle_bool (PAIR_GRACE_SEC cfg) (elapsedAt w ls s)).
  - rewrite result_bind in R.
    destruct (result (mitigate w cfg chk pl ps _)); try discriminate R.
    injection R as <-. split; cbn; [intros t Ht; rewrite (G t Ht)|]; reflexivity.
  - injection R as <-. split; cbn; [intros t Ht; rewrite (G t Ht); reflexivity | auto].
Qed.

Lemma iteration_carriesOn pl ls :
  Returns (fun r => carriesOn ls (snd r)) (iteration w cfg chk pl ls).
Proof.
  unfold iteration.
  apply (Returns_bind (fun _ => True)); [apply Returns_any | intros connected _].
  apply (Returns_bind (fun _ => True)); [apply Returns_any | intros triggered _].
  destruct (USE_RTDS cfg && connected && negb triggered).
  - apply (Returns_bind (fun _ => True)); [apply Returns_any | intros _ _].
    apply Returns_ret. apply carriesOn_refl.
  - apply (Returns_bind (fun _ => True)); [apply Returns_any | intros _ _].
    apply (Returns_bind (fun _ => True)); [apply Returns_any | intros upOrder _].
    apply (Returns_bind (fun _ => True)); [apply Returns_any | intros downOrder _].
    cbv zeta. destruct (bothFull _).
    + apply (Returns_bind (fun _ => True)); [apply Returns_any | intros _ _].
      apply Returns_ret. apply carriesOn_refl.
    + apply (Returns_bind (carriesOn ls)).
      * destruct (oneSome _ && negb (actedOnSingleFill ls)).
        -- apply singleFill_carriesOn.
        -- apply Returns_ret. apply carriesOn_refl.
      * intros ls' H.
        apply (Returns_bind (fun _ => True)); [apply Returns_any | intros _ _].
        apply Returns_ret. exact H.
Qed.

Lemma monitor_carriesOn fuel pl : forall ls,
  Returns (carriesOn ls) (monitor w cfg chk fuel pl ls).
Proof.
  induction fuel as [|fuel IH]; intros ls; cbn [monitor].
  - intros s a R. discriminate R.
  - apply (Returns_bind (fun _ => True)); [apply Returns_any | intros t _].
    destruct (Qltb (inject_Z t) (cancelAtMs pl)).
    + apply (Returns_bind (fun r => carriesOn ls (snd r))); [apply iteration_carriesOn|].
      intros [[] ls'] H; cbn [snd] in H.
      * apply Returns_ret. exact H.
      * intros s a R. apply (carriesOn_trans ls ls' a H). exact (IH ls' s a R).
    + apply Returns_ret. apply carriesOn_refl.
Qed.

(** X10: across the safety loop the grace timer is never restarted and the
    latch is never cleared: when the loop returns, a timer that was running
    at its entry still holds the same start time, and a latch that was set
    is still set. *)
Theorem grace_timer_never_restarts fuel pl ls s ls'
  (Hres : result (monitor w cfg chk fuel pl ls s) = Ok ls') :
  (forall t, firstSingleFillAtMs ls = Some t -> firstSingleFillAtMs ls' = Some t)
  /\ (actedOnSingleFill ls = true -> actedOnSingleFill ls' = true).
Proof. exact (monitor_carriesOn fuel pl ls s ls' Hres). Qed.

(** *** The feed gate *)

(** X11: with the realtime feed connected, the safety loop reads the orders
    only after a feed message: while no message arrives every pass only
    sleeps [max(POLL_SEC, 3)] seconds, so the loop reads no order, runs no
    mitigation and leaves its locals as they are until the deadline. *)
Theorem silent_feed_blocks_polling fuel pl ls
  (Hrtds : USE_RTDS cfg = true)
  (Hsilent : forall n, rtdsMessage w n = false) :
  forall s, feed s = true -> rtdsTriggered s = false ->
  Forall (fun e => e = ESleep (Qmax (POLL_SEC cfg) 3 * 1000))
         (events (monitor w cfg chk fuel pl ls s))
  /\ (forall ls', result (monitor w cfg chk fuel pl ls s) = Ok ls' -> ls' = ls).
Proof.
  induction fuel as [|fuel IH]; intros s Hfeed Htrig.
  - split; [constructor | intros ls' R; discriminate R].
  - cbn [monitor]. unfold dateNow. run.
    destruct (Qltb (inject_Z (now w (clk s))) (cancelAtMs pl)).
    + unfold iteration, sleep. run. rewrite Hrtds, Hfeed, Htrig. cbn [andb negb]. run.
      rewrite Hsilent. cbn [andb orb].
      destruct (IH {| clk := S (S (clk s)); feed := true; rtdsTriggered := false |}
                  eq_refl eq_refl) as [E R].
      cbn [andThen events result]. split.
      * constructor; [reflexivity | exact E].
      * exact R.
    + split; [constructor | intros ls' R; injection R as <-; reflexivity].
Qed.

(** *** The deadline *)

(** X12: the safety loop ends at the deadline: a loop entered when the
    clock is at or past [cancelAtMs] returns at once, having read nothing,
    and when the clock is at or past the deadline from some step on, the
    loop does not go on for ever. *)
Theorem safety_loop_stops_at_deadline n pl fuel ls s
  (Hlate : forall k, (n <= k)%nat -> cancelAtMs pl <= inject_Z (now w k))
  (Hfuel : (n - clk s + 1 <= fuel)%nat) :
  result (monitor w cfg chk fuel pl ls s) <> OutOfFuel
  /\ ((n <= clk s)%nat ->
      events (monitor w cfg chk fuel pl ls s) = []
      /\ result (monitor w cfg chk fuel pl ls s) = Ok ls).
Proof.
  split.
  - apply (monitor_returns w cfg chk n pl fuel ls s); [|exact Hfuel].
    intros k Hk. exact (Hlate k Hk).
  - intros Hn. destruct fuel as [|fuel]; [lia|].
    cbn [monitor]. unfold dateNow. run.
    assert (E : Qltb (inject_Z (now w (clk s))) (cancelAtMs pl) = false)
      by (apply Qltb_ge; apply Hlate; exact Hn).
    rewrite E. split; reflexivity.
Qed.

End LoopFacts.

Lemma grace_timer_never_restarts_witness :
  result (monitor (exampleWorld (clockUntil 31) upHalfFilled (fun _ => emptyBook))
                  (exampleConfig (49 # 100) "hedge" 10 false false)
                  (exampleChecked (49 # 100) Hedge) 50 examplePlaced
                  {| firstSingleFillAtMs := Some 500%Z; actedOnSingleFill := false |} initSt)
  = Ok {| firstSingleFillAtMs := Some 500%Z; actedOnSingleFill := true |}
  /\ firstSingleFillAtMs {| firstSingleFillAtMs := Some 500%Z; actedOnSingleFill := true |}
     = Some 500%Z.
Proof.
  assert (R : result (monitor (exampleWorld (clockUntil 31) upHalfFilled (fun _ => emptyBook))
                        (exampleConfig (49 # 100) "hedge" 10 false false)
                        (exampleChecked (49 # 100) Hedge) 50 examplePlaced
                        {| firstSingleFillAtMs := Some 500%Z; actedOnSingleFill := false |}
                        initSt)
              = Ok {| firstSingleFillAtMs := Some 500%Z; actedOnSingleFill := true |})
    by (vm_compute; reflexivity).
  split; [exact R|].
  exact (proj1 (grace_timer_never_restarts
    (exampleWorld (clockUntil 31) upHalfFilled (fun _ => emptyBook))
    (exampleConfig (49 # 100) "hedge" 10 false false)
    (exampleChecked (49 # 100) Hedge) 50 examplePlaced
    {| firstSingleFillAtMs := Some 500%Z; actedOnSingleFill := false |} initSt
    {| firstSingleFillAtMs := Some 500%Z; actedOnSingleFill := true |} R) 500%Z eq_refl).
Defined.

Lemma silent_feed_blocks_polling_witness :
  Forall (fun e => e = ESleep (Qmax 3 3 * 1000))
    (events (monitor (exampleWorld (clockUntil 4) upHalfFilled (fun _ => emptyBook))
                     (exampleConfig (49 # 100) "hedge" 0 false true)
                     (exampleChecked (49 # 100) Hedge) 50 examplePlaced initLocals
                     {| clk := O; feed := true; rtdsTriggered := false |}))
  /\ List.length
       (events (monitor (exampleWorld (clockUntil 4) upHalfFilled (fun _ => emptyBook))
                        (exampleConfig (49 # 100) "hedge" 0 false true)
                        (exampleChecked (49 # 100) Hedge) 50 examplePlaced initLocals
                        {| clk := O; feed := true; rtdsTriggered := false |})) = 2%nat.
Proof.
  split; [|vm_compute; reflexivity].
  exact (proj1 (silent_feed_blocks_polling
    (exampleWorld (clockUntil 4) upHalfFilled (fun _ => emptyBook))
    (exampleConfig (49 # 100) "hedge" 0 false true)
    (exampleChecked (49 # 100) Hedge) 50 examplePlaced initLocals
    eq_refl (fun _ => eq_refl)
    {| clk := O; feed := true; rtdsTriggered := false |} eq_refl eq_refl)).
Defined.

Lemma safety_loop_stops_at_deadline_witness :
  result (monitor (exampleWorld (clockUntil 30) upHalfFilled (fun _ => emptyBook))
                  (exampleConfig (49 # 100) "wait" 10 false false)
                  (exampleChecked (49 # 100) Wait) 50 examplePlaced initLocals initSt)
  <> OutOfFuel.
Proof.
  assert (Hlate : forall k, (30 <= k)%nat ->
            cancelAtMs examplePlaced
            <= inject_Z (now (exampleWorld (clockUntil 30) upHalfFilled (fun _ => emptyBook)) k)).
  { intros k Hk. simpl. unfold clockUntil.
    destruct (Nat.ltb_spec k 30); [lia | discriminate]. }
  assert (Hfuel : (30 - clk initSt + 1 <= 50)%nat) by (simpl; lia).
  exact (proj1 (safety_loop_stops_at_deadline
    (exampleWorld (clockUntil 30) upHalfFilled (fun _ => emptyBook))
    (exampleConfig (49 # 100) "wait" 10 false false)
    (exampleChecked (49 # 100) Wait) 30 examplePlaced 50 initLocals initSt Hlate Hfuel)).
Defined.

(** ** The closing sweep and failed placements *)

Lemma cancelAll_ok w ids : forall s, result (cancelAll w ids s) = Ok tt.
Proof.
  induction ids as [|id ids IH]; intros s; [reflexivity|].
  cbn [cancelAll]. unfold cancelBestEffort, log. run.
  cbn [andThen result]. apply IH.
Qed.

Lemma cancelIds_none (l : list Event) :
  Forall (fun e => isCancel e = false) l -> cancelIds l = [].
Proof.
  induction 1 as [|e l He _ IH]; [reflexivity|].
  destruct e; simpl in *; try exact IH. discriminate He.
Qed.

(** X13: the closing sweep is best effort: it requests one cancellation
    for every id on the window's list, in order, whatever the exchange
    answers to each, it submits no order, and it never fails, neither on a
    rejected cancellation nor on a failed disconnect of the feed; so a
    window whose safety loop returns always returns itself. *)
Theorem closing_sweep_is_best_effort w cfg chk pl s :
  result (closing w pl s) = Ok tt
  /\ cancelIds (events (closing w pl s)) = orderIds pl
  /\ count isPost (events (closing w pl s)) = O
  /\ (forall fuel ls ls', result (monitor w cfg chk fuel pl ls s) = Ok ls' ->
        result (finishWindow w cfg chk fuel pl ls s) = Ok tt).
Proof.
  assert (R : forall s', result (closing w pl s') = Ok tt).
  { intros s'. unfold closing, log. run.
    destruct (feed s'); run; cbn [andThen result]; apply cancelAll_ok. }
  split; [apply R|]. split; [apply closing_cancels_orderIds|].
  split; [apply (closingOnly_counts _ (closing_closingOnly w pl s))|].
  intros fuel ls ls' H. unfold finishWindow. rewrite result_bind, H. apply R.
Qed.

Section PlacementFailures.

Variable w : World.
Variable cfg : Config.
Variable chk : Checked.

Lemma placement_noCancel start :
  Emits (fun e => isCancel e = false) (placement w cfg chk start).
Proof.
  unfold placement, clientGetMarket, clientGetOrderBook, clientPost, sleep, dateNow, log.
  emits_with ltac:(simpl; reflexivity).
Qed.

(** X14: a window whose placement fails ends there: the error is the
    window's, the safety loop and the closing sweep do not run, and no
    cancellation is requested; in particular, when the exchange accepts the
    UP leg and rejects the DOWN leg, the UP order is left on the book. *)
Theorem failed_placement_leaves_orders_open fuel start s e
  (Hfail : result (placement w cfg chk start s) = Throw e) :
  result (runOneWindow w cfg chk fuel start s) = Throw e
  /\ events (runOneWindow w cfg chk fuel start s)
     = EWindow start :: events (placement w cfg chk start s)
  /\ cancelIds (events (runOneWindow w cfg chk fuel start s)) = [].
Proof.
  assert (E : events (runOneWindow w cfg chk fuel start s)
              = EWindow start :: events (placement w cfg chk start s)).
  { unfold runOneWindow. rewrite bind_emit. cbn [andThen events].
    rewrite events_bind, Hfail, app_nil_r. reflexivity. }
  split; [|split].
  - unfold runOneWindow. rewrite bind_emit. cbn [andThen result].
    rewrite result_bind, Hfail. reflexivity.
  - exact E.
  - rewrite E. cbn [cancelIds]. apply cancelIds_none. apply placement_noCancel.
Qed.

(** X15: with the override off, a best bid or ask that is present and at or
    outside (0, 1) on either book stops the window before its start is
    awaited: placement fails with the unsafe-quote refusal after the two
    book reads, without a sleep and without submitting an order. *)
Theorem weird_quotes_refused start s um dm ub db sz
  (Hkey : createOrDeriveApiKey w (clk s) = true)
  (Hum : getMarket w (S (clk s)) (UP_TOKEN_ID cfg) = Some um)
  (Hdm : getMarket w (S (S (clk s))) (DOWN_TOKEN_ID cfg) = Some dm)
  (Hreq : requestedSize cfg chk = inr (Fin sz))
  (Hsz : 0 < sz)
  (Hub : getOrderBook w (S (S (S (clk s)))) (UP_TOKEN_ID cfg) = Some ub)
  (Hdb : getOrderBook w (S (S (S (S (clk s))))) (DOWN_TOKEN_ID cfg) = Some db)
  (Hallow : ALLOW_WEIRD_QUOTES cfg = false)
  (Hweird : exists v,
      In (Some v) [bestAsk (parseOrderBookTop ub); bestBid (parseOrderBookTop ub);
                   bestAsk (parseOrderBookTop db); bestBid (parseOrderBookTop db)]
      /\ (leb v (Fin 0) = true \/ geb v (Fin 1) = true)) :
  result (placement w cfg chk start s) = Throw UnsafeQuote
  /\ events (placement w cfg chk start s)
     = [ELog LInitializing; ECreds; ELog LReinitializing; ELog LFetchingMetadata;
        EGetMarket (UP_TOKEN_ID cfg); EGetMarket (DOWN_TOKEN_ID cfg);
        EGetOrderBook (UP_TOKEN_ID cfg); EGetOrderBook (DOWN_TOKEN_ID cfg)].
Proof.
  assert (Hw : weirdQuotes (parseOrderBookTop ub) (parseOrderBookTop db) = true).
  { destruct Hweird as (v & Hin & Hv).
    assert (W : isWeird (Some v) = true).
    { simpl. apply orb_true_iff. exact Hv. }
    unfold weirdQuotes.
    destruct Hin as [E | [E | [E | [E | []]]]]; rewrite E, W;
      rewrite ?orb_true_r; reflexivity. }
  assert (Hnw : negb (ALLOW_WEIRD_QUOTES cfg)
                 && weirdQuotes (parseOrderBookTop ub) (parseOrderBookTop db) = true).
  { rewrite Hallow, Hw. reflexivity. }
  apply Qle_bool_gt in Hsz.
  unfold requestedSize in Hreq.
  unfold placement, clientGetMarket, clientGetOrderBook, clientPost, sleep, dateNow, log.
  run. rewrite Hkey. run. rewrite Hum. unfold orThrow. run.
  rewrite Hdm. unfold orThrow. run.
  assert (Hn : exists n, sharesArg cfg = Some n /\ n = Fin sz
                         \/ sharesArg cfg = None
                            /\ computeSizeShares (INVEST_PER_SIDE cfg) (Fin (price chk)) = inr sz).
  { destruct (sharesArg cfg) as [n|].
    - exists n. left. split; [reflexivity|]. injection Hreq as ->. reflexivity.
    - exists NaN. right. split; [reflexivity|].
      destruct (computeSizeShares _ _) as [e|q]; [discriminate Hreq|].
      injection Hreq as ->. reflexivity. }
  destruct Hn as (n & [[Hs ->] | [Hs Hc]]); rewrite Hs; try rewrite Hc; unfold liftE; run;
    rewrite Hsz; run; rewrite Hub; unfold orThrow; run;
    rewrite Hdb; unfold orThrow; run; rewrite Hnw; run;
    cbn [andThen result events app]; split; reflexivity.
Qed.

End PlacementFailures.

Lemma failed_placement_leaves_orders_open_witness :
  let w := rejectingOrdersFor "DOWN"
             (exampleWorld fastClock noOrders (fun _ => bookOf (48 # 100) (50 # 100))) in
  let cfg := exampleConfig (49 # 100) "hedge" 10 false false in
  let chk := exampleChecked (49 # 100) Hedge in
  result (runOneWindow w cfg chk 50 0 initSt) = Throw ClientError
  /\ count isPost (events (runOneWindow w cfg chk 50 0 initSt)) = 2%nat
  /\ cancelIds (events (runOneWindow w cfg chk 50 0 initSt)) = [].
Proof.
  cbv zeta.
  destruct (failed_placement_leaves_orders_open
              (rejectingOrdersFor "DOWN"
                 (exampleWorld fastClock noOrders (fun _ => bookOf (48 # 100) (50 # 100))))
              (exampleConfig (49 # 100) "hedge" 10 false false)
              (exampleChecked (49 # 100) Hedge) 50 0 initSt ClientError eq_refl)
    as (H1 & _ & H3).
  split; [exact H1|]. split; [vm_compute; reflexivity | exact H3].
Defined.

Lemma weird_quotes_refused_witness :
  result (placement (exampleWorld fastClock noOrders (fun _ => bookOf 0 (50 # 100)))
                    (exampleConfig (49 # 100) "hedge" 10 false false)
                    (exampleChecked (49 # 100) Hedge) 0 initSt)
  = Throw UnsafeQuote.
Proof.
  assert (Hw : exists v,
      In (Some v) [bestAsk (parseOrderBookTop (bookOf 0 (50 # 100)));
                   bestBid (parseOrderBookTop (bookOf 0 (50 # 100)));
                   bestAsk (parseOrderBookTop (bookOf 0 (50 # 100)));
                   bestBid (parseOrderBookTop (bookOf 0 (50 # 100)))]
      /\ (leb v (Fin 0) = true \/ geb v (Fin 1) = true)).
  { exists (Fin 0). split; [right; left; reflexivity | left; reflexivity]. }
  exact (proj1 (weird_quotes_refused
    (exampleWorld fastClock noOrders (fun _ => bookOf 0 (50 # 100)))
    (exampleConfig (49 # 100) "hedge" 10 false false)
    (exampleChecked (49 # 100) Hedge) 0 initSt
    {| tickSize := Fin (1 # 100); negRisk := false |}
    {| tickSize := Fin (1 # 100); negRisk := false |}
    (bookOf 0 (50 # 100)) (bookOf 0 (50 # 100)) (toFixedScale scale6 (5 / (49 # 100)))
    eq_refl eq_refl eq_refl eq_refl eq_refl eq_refl eq_refl eq_refl Hw)).
Defined.

(** ** Placement *)

Section PlacementRun.

Variable w : World.
Variable cfg : Config.
Variable chk : Checked.

(** X16: when the credentials, the metadata, the size and the quote check
    pass and the exchange accepts both legs, placement waits until the
    window start when it lies ahead, by exactly the time that is left, and
    not at all otherwise; it then submits the UP leg and the DOWN leg, in
    that order, for the same size, each at the price snapped to its own
    tick and with the configured post-only flag; it lists the two order ids
    in that order, sets the deadline [DURATION_MIN] minutes after the clock
    reading that follows the second submission, and has the feed connected
    exactly when the feed is enabled and its connection succeeds. *)
Theorem placement_in_order start s um dm ub db sz u d
  (Hkey : createOrDeriveApiKey w (clk s) = true)
  (Hum : getMarket w (S (clk s)) (UP_TOKEN_ID cfg) = Some um)
  (Hdm : getMarket w (S (S (clk s))) (DOWN_TOKEN_ID cfg) = Some dm)
  (Hreq : requestedSize cfg chk = inr (Fin sz))
  (Hsz : 0 < sz)
  (Hub : getOrderBook w (S (S (S (clk s)))) (UP_TOKEN_ID cfg) = Some ub)
  (Hdb : getOrderBook w (S (S (S (S (clk s))))) (DOWN_TOKEN_ID cfg) = Some db)
  (Hcheck : ALLOW_WEIRD_QUOTES cfg = true
            \/ weirdQuotes (parseOrderBookTop ub) (parseOrderBookTop db) = false) :
  let delay := (start - now w (5 + clk s))%Z in
  let k := (stepsToPlacing w start s + clk s)%nat in
  let upReq := {| r_tokenID := UP_TOKEN_ID cfg;
                  r_price := roundDownToTick (price chk) (tickSize um);
                  r_size := sz; r_tickSize := tickSize um; r_negRisk := negRisk um;
                  r_postOnly := POST_ONLY cfg |} in
  let downReq := {| r_tokenID := DOWN_TOKEN_ID cfg;
                    r_price := roundDownToTick (price chk) (tickSize dm);
                    r_size := sz; r_tickSize := tickSize dm; r_negRisk := negRisk dm;
                    r_postOnly := POST_ONLY cfg |} in
  let deadline := inject_Z (now w (S (S k))) + durationMin chk * 60 * 1000 in
  createAndPostOrder w k upReq = Some u ->
  createAndPostOrder w (S k) downReq = Some d ->
  events (placement w cfg chk start s)
  = ([ELog LInitializing; ECreds; ELog LReinitializing; ELog LFetchingMetadata;
      EGetMarket (UP_TOKEN_ID cfg); EGetMarket (DOWN_TOKEN_ID cfg);
      EGetOrderBook (UP_TOKEN_ID cfg); EGetOrderBook (DOWN_TOKEN_ID cfg)]
     ++ (if (0 <? delay)%Z then [ELog (LWaiting delay); ESleep (inject_Z delay)] else [])
     ++ [ELog LPlacing; EPost upReq; ELog (LUpOrder u); EPost downReq; ELog (LDownOrder d);
         ELog (LWillCancel deadline)]
     ++ (if USE_RTDS cfg
         then EConnect :: (if rtdsConnect w (S (S (S k))) then [] else [ELog LRtdsInitFailed])
         else []))%list
  /\ result (placement w cfg chk start s)
     = Ok {| upTickSize := tickSize um; downTickSize := tickSize dm;
             upNegRisk := negRisk um; downNegRisk := negRisk dm;
             size := sz; upId := u; downId := d; orderIds := [u; d];
             cancelAtMs := deadline |}
  /\ feed (final (placement w cfg chk start s))
     = USE_RTDS cfg && rtdsConnect w (S (S (S k))).
Proof.
  cbv zeta. unfold stepsToPlacing. cbn [Nat.add].
  intros Hup Hdown.
  assert (Hnw : negb (ALLOW_WEIRD_QUOTES cfg)
                 && weirdQuotes (parseOrderBookTop ub) (parseOrderBookTop db) = false).
  { destruct Hcheck as [H|H]; rewrite H; [reflexivity | apply andb_false_r]. }
  apply Qle_bool_gt in Hsz.
  unfold requestedSize in Hreq.
  assert (Hn : exists n, sharesArg cfg = Some n /\ n = Fin sz
                         \/ sharesArg cfg = None
                            /\ computeSizeShares (INVEST_PER_SIDE cfg) (Fin (price chk)) = inr sz).
  { destruct (sharesArg cfg) as [n|].
    - exists n. left. split; [reflexivity|]. injection Hreq as ->. reflexivity.
    - exists NaN. right. split; [reflexivity|].
      destruct (computeSizeShares _ _) as [e|q]; [discriminate Hreq|].
      injection Hreq as ->. reflexivity. }
  unfold placement, clientGetMarket, clientGetOrderBook, clientPost, sleep, dateNow, log.
  unfold orThrow.
  run. rewrite Hkey. run. rewrite Hum. run. rewrite Hdm. run.
  destruct Hn as (n & [[Hs ->] | [Hs Hc]]); rewrite Hs; try rewrite Hc; unfold liftE; run;
    rewrite Hsz; run; rewrite Hub; run; rewrite Hdb; run; rewrite Hnw; run.
  all: destruct (0 <? start - now w (S (S (S (S (S (clk s)))))))%Z;
    cbn [Nat.add] in Hup, Hdown; run; rewrite Hup; run; rewrite Hdown; run.
  all: destruct (USE_RTDS cfg); run;
    try destruct (rtdsConnect w _); run;
    cbn [andThen events result final feed app andb]; repeat split; reflexivity.
Qed.

Lemma computeSizeShares_error (investUsd price : num) e :
  computeSizeShares investUsd price = inl e -> e = InvalidArgument.
Proof.
  unfold computeSizeShares. intros H.
  destruct investUsd as [| | |u]; try (injection H as <-; reflexivity).
  destruct (Qle_bool u 0); [injection H as <-; reflexivity|].
  destruct price as [| | |p]; try (injection H as <-; reflexivity).
  destruct (Qle_bool p 0); [injection H as <-; reflexivity | discriminate H].
Qed.

(** What [placement] yields satisfies [P] whenever [P] holds of every way
    it can end. *)
Lemma placement_cases (P : Out Placed -> Prop) start s :
  (forall ev fs e, Forall (fun x => isPost x = false) ev -> e <> ClientError ->
     (e = InvalidArgument \/ e = UnsafeQuote) ->
     P {| events := ev; final := fs; result := Throw e |}) ->
  (forall ev fs, P {| events := ev; final := fs; result := Throw ClientError |}) ->
  (forall ev fs pl, P {| events := ev; final := fs; result := Ok pl |}) ->
  P (placement w cfg chk start s).
Proof.
  intros Hrefuse Hclient Hok.
  unfold placement, clientGetMarket, clientGetOrderBook, clientPost, sleep, dateNow, log,
    liftE.
  repeat first
    [ progress run
    | match goal with
      | |- context [orThrow ?x] => destruct x; unfold orThrow at 1
      | |- context [if ?c then _ else _] => destruct c
      | |- context [match sharesArg cfg with _ => _ end] => destruct (sharesArg cfg)
      | |- context [match computeSizeShares ?a ?b with _ => _ end] =>
          destruct (computeSizeShares a b) eqn:?
      | |- context [match ?n with Fin _ => _ | _ => _ end] => is_var n; destruct n
      end ].
  all: unfold andThen, throw, ret; cbn [events final result app].
  all: try match goal with
           | H : computeSizeShares _ _ = inl ?e |- _ =>
               rewrite (computeSizeShares_error _ _ e H)
           end.
  all: first
         [ apply Hok
         | apply Hclient
         | apply Hrefuse;
           [ repeat constructor
           | discriminate
           | first [ left; reflexivity | right; reflexivity ] ] ].
Qed.

(** X17: a refusal of placement that does not come from the exchange
    client (an invalid size, or the unsafe-quote refusal) happens before
    any order is submitted. *)
Theorem refusals_precede_orders start s e
  (Hfail : result (placement w cfg chk start s) = Throw e)
  (Hcause : e <> ClientError) :
  count isPost (events (placement w cfg chk start s)) = O
  /\ (e = InvalidArgument \/ e = UnsafeQuote).
Proof.
  revert Hfail.
  apply (placement_cases
           (fun o => result o = Throw e ->
                     count isPost (events o) = O /\ (e = InvalidArgument \/ e = UnsafeQuote))).
  - intros ev fs e' Hev _ He' H. injection H as <-.
    split; [apply count_none; exact Hev | exact He'].
  - intros ev fs H. injection H as <-. contradiction Hcause. reflexivity.
  - intros ev fs pl H. discriminate H.
Qed.

End PlacementRun.

Lemma placement_in_order_witness :
  let w := exampleWorld fastClock noOrders (fun _ => bookOf (48 # 100) (50 # 100)) in
  let cfg := exampleConfig (49 # 100) "hedge" 10 false false in
  let chk := exampleChecked (49 # 100) Hedge in
  result (placement w cfg chk 5500000 initSt)
  = Ok {| upTickSize := Fin (1 # 100); downTickSize := Fin (1 # 100);
          upNegRisk := false; downNegRisk := false;
          size := toFixedScale scale6 (5 / (49 # 100));
          upId := "U"; downId := "D"; orderIds := ["U"; "D"];
          cancelAtMs := inject_Z 9000000 + 15 * 60 * 1000 |}.
Proof.
  cbv zeta.
  exact (proj1 (proj2 (placement_in_order
    (exampleWorld fastClock noOrders (fun _ => bookOf (48 # 100) (50 # 100)))
    (exampleConfig (49 # 100) "hedge" 10 false false)
    (exampleChecked (49 # 100) Hedge) 5500000 initSt
    {| tickSize := Fin (1 # 100); negRisk := false |}
    {| tickSize := Fin (1 # 100); negRisk := false |}
    (bookOf (48 # 100) (50 # 100)) (bookOf (48 # 100) (50 # 100))
    (toFixedScale scale6 (5 / (49 # 100))) "U" "D"
    eq_refl eq_refl eq_refl eq_refl eq_refl eq_refl eq_refl (or_intror eq_refl)
    eq_refl eq_refl))).
Defined.

Lemma refusals_precede_orders_witness :
  count isPost
    (events (placement (exampleWorld fastClock noOrders (fun _ => bookOf 0 (50 # 100)))
                       (exampleConfig (49 # 100) "hedge" 10 false false)
                       (exampleChecked (49 # 100) Hedge) 0 initSt)) = O.
Proof.
  assert (C : UnsafeQuote <> ClientError) by discriminate.
  exact (proj1 (refusals_precede_orders
    (exampleWorld fastClock noOrders (fun _ => bookOf 0 (50 # 100)))
    (exampleConfig (49 # 100) "hedge" 10 false false)
    (exampleChecked (49 # 100) Hedge) 0 initSt UnsafeQuote eq_refl C)).
Defined.

(** ** Whole runs *)

Section RunFacts.

Variable w : World.
Variable cfg : Config.

Lemma runOneWindow_notDone chk fuel start :
  Emits (fun e => isDone e = false) (runOneWindow w cfg chk fuel start).
Proof.
  assert (Hm : forall pl ps, Emits (fun e => isDone e = false) (mitigate w cfg chk pl ps)).
  { intros pl ps.
    unfold mitigate, hedge, cancelBestEffort, clientGetOrderBook, clientPost, log.
    emits_with ltac:(simpl; reflexivity). }
  assert (Hi : forall pl ls, Emits (fun e => isDone e = false) (iteration w cfg chk pl ls)).
  { intros pl ls. pose proof (Hm pl) as Hm'.
    unfold iteration, singleFill, safeGetOrder, sleep, dateNow, log.
    emits_with ltac:(simpl; reflexivity). }
  assert (Hl : forall pl ls, Emits (fun e => isDone e = false) (monitor w cfg chk fuel pl ls)).
  { intros pl. induction fuel as [|fuel' IH]; intros ls; simpl; [apply Emits_outOfFuel|].
    unfold dateNow. pose proof (Hi pl ls). emits_with ltac:(simpl; reflexivity). }
  assert (Hc : forall ids, Emits (fun e => isDone e = false) (cancelAll w ids)).
  { induction ids as [|id ids IH]; simpl; [apply Emits_ret|].
    unfold cancelBestEffort, log. emits_with ltac:(simpl; reflexivity). }
  unfold runOneWindow, finishWindow, closing, placement, clientGetMarket, clientGetOrderBook,
    clientPost, sleep, dateNow, log.
  emits_with ltac:(simpl; reflexivity).
Qed.

Lemma repeatLoop_never_returns chk fuel windows : forall first s,
  result (repeatLoop w cfg chk windows fuel first s) <> Ok tt
  /\ Forall (fun e => isDone e = false) (events (repeatLoop w cfg chk windows fuel first s)).
Proof.
  induction windows as [|windows IH]; intros first s.
  - split; [discriminate | constructor].
  - cbn [repeatLoop]. cbv zeta. rewrite result_bind, events_bind.
    pose proof (runOneWindow_notDone chk fuel (first + 15 * 60 * 1000)%Z s) as D.
    destruct (result (runOneWindow w cfg chk fuel (first + 15 * 60 * 1000)%Z s)) as [[]| |].
    + destruct (IH (first + 15 * 60 * 1000)%Z
                   (final (runOneWindow w cfg chk fuel (first + 15 * 60 * 1000)%Z s)))
        as [R E].
      split; [exact R | apply Forall_app; split; assumption].
    + split; [discriminate | rewrite app_nil_r; exact D].
    + split; [discriminate | rewrite app_nil_r; exact D].
Qed.

(** X18: in repeat mode the script never finishes normally: whatever the
    exchange, the clock and the arguments are, a run does not return and
    does not log that it is done; it ends only when a window or a check
    before it fails. *)
Theorem repeat_mode_never_returns windows fuel s
  (Hrep : REPEAT cfg = true) :
  result (main w cfg windows fuel s) <> Ok tt
  /\ count isDone (events (main w cfg windows fuel s)) = O.
Proof.
  unfold main. destruct (validate cfg) as [e|chk].
  - split; [discriminate | reflexivity].
  - unfold mainChecked. rewrite Hrep. cbn [negb].
    rewrite result_bind, events_bind.
    destruct (walletOk w); cbn [ret throw result events final app];
      [|split; [discriminate | reflexivity]].
    rewrite result_bind, events_bind, resolveStart_silent. cbn [app].
    destruct (result (resolveStart w cfg s)) as [first| |];
      [|split; [discriminate | reflexivity] ..].
    destruct (repeatLoop_never_returns chk fuel windows first (final (resolveStart w cfg s)))
      as [R E].
    split; [exact R | apply count_none; exact E].
Qed.

Lemma validate_checked (chk : Checked) :
  validate cfg = inr chk ->
  PRICE cfg = Fin (price chk) /\ 0 < price chk /\ price chk < 1
  /\ MIN_EDGE cfg <= 1 - 2 * price chk
  /\ DURATION_MIN cfg = Fin (durationMin chk) /\ 0 < durationMin chk
  /\ 0 < POLL_SEC cfg /\ 0 <= PAIR_GRACE_SEC cfg
  /\ parseAction (ON_SINGLE_FILL cfg) = Some (action chk).
Proof.
  unfold validate. intros H.
  destruct (PRICE cfg) as [| | |p]; try discriminate H.
  destruct (Qle_bool p 0) eqn:P0; [discriminate H|].
  destruct (Qle_bool 1 p) eqn:P1; [discriminate H|]. cbn [orb] in H.
  destruct (DURATION_MIN cfg) as [| | |d]; try discriminate H.
  destruct (Qle_bool d 0) eqn:D0; [discriminate H|].
  destruct (Qle_bool (POLL_SEC cfg) 0) eqn:L0; [discriminate H|].
  destruct (Qltb (PAIR_GRACE_SEC cfg) 0) eqn:G0; [discriminate H|].
  destruct (parseAction (ON_SINGLE_FILL cfg)) as [a|]; [|discriminate H].
  destruct (SIGNATURE_TYPE cfg) as [| | |g]; try discriminate H.
  destruct (Qeq_bool g 0 || Qeq_bool g 1 || Qeq_bool g 2); [|discriminate H].
  destruct (Qltb (pairEdge p) (MIN_EDGE cfg)) eqn:E; [discriminate H|].
  injection H as <-. cbn [price durationMin action].
  apply Qle_bool_gt in P0, P1, D0, L0. apply Qltb_ge in G0, E. unfold pairEdge in E.
  repeat split; auto.
Qed.

(** X19: the circuit breaker holds for every run: a run of [main] that
    submits any order has passed the argument checks, so its price is a
    finite number strictly between 0 and 1 with [1 - 2 * PRICE] at least
    [MIN_EDGE], its duration and polling interval are positive, its grace
    period is not negative, and the wallet was built. *)
Theorem orders_only_with_sufficient_edge windows fuel s
  (Hpost : (0 < count isPost (events (main w cfg windows fuel s)))%nat) :
  exists p d,
    PRICE cfg = Fin p /\ 0 < p /\ p < 1 /\ MIN_EDGE cfg <= 1 - 2 * p
    /\ DURATION_MIN cfg = Fin d /\ 0 < d
    /\ 0 < POLL_SEC cfg /\ 0 <= PAIR_GRACE_SEC cfg
    /\ walletOk w = true.
Proof.
  unfold main in Hpost. destruct (validate cfg) as [e|chk] eqn:V.
  - simpl in Hpost. inversion Hpost.
  - destruct (validate_checked chk V) as (H1 & H2 & H3 & H4 & H5 & H6 & H7 & H8 & _).
    exists (price chk), (durationMin chk).
    repeat (split; [assumption|]).
    unfold mainChecked in Hpost. rewrite events_bind in Hpost.
    destruct (walletOk w); [reflexivity|].
    simpl in Hpost. inversion Hpost.
Qed.

End RunFacts.

Lemma repeat_mode_never_returns_witness :
  result (main (exampleWorld fastClock noOrders (fun _ => bookOf (48 # 100) (50 # 100)))
               (exampleConfig (49 # 100) "hedge" 10 true false) 3 5 initSt)
  <> Ok tt.
Proof.
  exact (proj1 (repeat_mode_never_returns
    (exampleWorld fastClock noOrders (fun _ => bookOf (48 # 100) (50 # 100)))
    (exampleConfig (49 # 100) "hedge" 10 true false) 3 5 initSt eq_refl)).
Defined.

Lemma orders_only_with_sufficient_edge_witness :
  exists p d,
    PRICE (exampleConfig (49 # 100) "hedge" 10 false false) = Fin p /\ 0 < p /\ p < 1
    /\ MIN_EDGE (exampleConfig (49 # 100) "hedge" 10 false false) <= 1 - 2 * p
    /\ DURATION_MIN (exampleConfig (49 # 100) "hedge" 10 false false) = Fin d /\ 0 < d
    /\ 0 < POLL_SEC (exampleConfig (49 # 100) "hedge" 10 false false)
    /\ 0 <= PAIR_GRACE_SEC (exampleConfig (49 # 100) "hedge" 10 false false)
    /\ walletOk (exampleWorld fastClock noOrders (fun _ => bookOf (48 # 100) (50 # 100)))
       = true.
Proof.
  assert (Hpost : (0 < count isPost
                         (events (main (exampleWorld fastClock noOrders
                                          (fun _ => bookOf (48 # 100) (50 # 100)))
                                       (exampleConfig (49 # 100) "hedge" 10 false false)
                                       1 5 initSt)))%nat)
    by (vm_compute; lia).
  exact (orders_only_with_sufficient_edge
    (exampleWorld fastClock noOrders (fun _ => bookOf (48 # 100) (50 # 100)))
    (exampleConfig (49 # 100) "hedge" 10 false false) 1 5 initSt Hpost).
Defined.

(** ** The first window *)

Section StartFacts.

Variable w : World.
Variable cfg : Config.

(** X20: the start of the first window is chosen in a fixed order of
    precedence.  A start time given explicitly is used as it is, whatever
    the alignment flags say; otherwise market-start alignment takes the
    start from the market slug (a whole number [n > 0] of seconds gives
    [n * 1000] ms) and fails when the slug is missing, even when 15-minute
    alignment is also asked for; otherwise 15-minute alignment gives the
    first 15-minute boundary at or after the clock reading; otherwise the
    start is the clock reading.  The clock is read in the last two cases
    only. *)
Theorem start_resolution_order s :
  (forall ms, startAtArg cfg = Some (Some ms) ->
     resolveStart w cfg s = {| events := []; final := s; result := Ok ms |})
  /\ (startAtArg cfg = None -> ALIGN_MARKET_START cfg = true ->
      (forall n, MARKET_SLUG cfg = Some (Fin (inject_Z n)) -> (0 < n)%Z ->
         resolveStart w cfg s = {| events := []; final := s; result := Ok (n * 1000)%Z |})
      /\ (MARKET_SLUG cfg = None ->
          resolveStart w cfg s = {| events := []; final := s; result := Throw MissingRequired |}))
  /\ (startAtArg cfg = None -> ALIGN_MARKET_START cfg = false -> ALIGN_15M cfg = true ->
      exists r,
        result (resolveStart w cfg s) = Ok r
        /\ (r mod (15 * 60 * 1000) = 0)%Z
        /\ (now w (clk s) <= r < now w (clk s) + 15 * 60 * 1000)%Z)
  /\ (startAtArg cfg = None -> ALIGN_MARKET_START cfg = false -> ALIGN_15M cfg = false ->
      result (resolveStart w cfg s) = Ok (now w (clk s))).
Proof.
  unfold resolveStart. split; [|split; [|split]].
  - intros ms ->. reflexivity.
  - intros -> ->. split.
    + intros n -> Hn. unfold parseMarketStartFromSlugMs, liftE.
      assert (E : Qle_bool (inject_Z n) 0 = false).
      { apply Qle_bool_gt. change 0 with (inject_Z 0). rewrite <- Zlt_Qlt. exact Hn. }
      rewrite E.
      assert (F : Qfloor (inject_Z n * 1000) = (n * 1000)%Z).
      { change 1000 with (inject_Z 1000). rewrite <- inject_Z_mult. apply Qfloor_Z. }
      rewrite F. reflexivity.
    + intros ->. reflexivity.
  - intros -> -> ->. unfold dateNow. rewrite bind_call.
    exists (ceilToWindowMs (now w (clk s)) 15). split; [reflexivity|].
    unfold ceilToWindowMs.
    set (W := (15 * 60 * 1000)%Z).
    assert (HW : (0 < W)%Z) by reflexivity.
    assert (HWq : 0 < inject_Z W) by reflexivity.
    set (t := now w (clk s)).
    set (c := Qceiling (inject_Z t / inject_Z W)).
    pose proof (Qle_ceiling (inject_Z t / inject_Z W)) as H1.
    pose proof (Qceiling_lt (inject_Z t / inject_Z W)) as H2.
    fold c in H1, H2.
    assert (E : inject_Z t / inject_Z W * inject_Z W == inject_Z t)
      by (field; discriminate).
    split; [apply Z.mod_mul; discriminate|].
    split.
    + rewrite Zle_Qle, inject_Z_mult, <- E.
      apply Qmult_le_compat_r; [exact H1 | discriminate].
    + rewrite Zlt_Qlt, inject_Z_mult, inject_Z_plus.
      assert (U' : (inject_Z c - 1) * inject_Z W < inject_Z t).
      { rewrite <- E. apply Qmult_lt_compat_r; [exact HWq|].
        unfold Z.sub in H2. rewrite inject_Z_plus, inject_Z_opp in H2.
        change (inject_Z 1) with 1 in H2. lra. }
      lra.
  - intros -> -> ->. reflexivity.
Qed.

(** X21: without repeat mode a run that gets past its checks enters exactly
    one window, the one that starts at the resolved start, and logs that it
    is done exactly when that window returns. *)
Theorem single_run_has_one_window chk windows fuel s anchor
  (Hval : validate cfg = inr chk)
  (Hrep : REPEAT cfg = false)
  (Hwal : walletOk w = true)
  (Hres : result (resolveStart w cfg s) = Ok anchor) :
  windowStarts (events (main w cfg windows fuel s)) = [anchor]
  /\ (result (main w cfg windows fuel s) = Ok tt
      <-> count isDone (events (main w cfg windows fuel s)) = 1%nat).
Proof.
  unfold main. rewrite Hval. unfold mainChecked. rewrite Hwal, Hrep. cbn [negb].
  rewrite bind_ret.
  rewrite events_bind, result_bind, Hres, resolveStart_silent. cbn [app].
  set (s1 := final (resolveStart w cfg s)).
  rewrite events_bind, result_bind.
  pose proof (runOneWindow_starts w cfg chk fuel anchor s1) as W.
  pose proof (runOneWindow_notDone w cfg chk fuel anchor s1) as D.
  apply count_none in D.
  destruct (result (runOneWindow w cfg chk fuel anchor s1)) as [[]| |].
  - rewrite windowStarts_app, count_app, W, D. cbn. split; [reflexivity|].
    split; reflexivity.
  - rewrite app_nil_r, W, D. split; [reflexivity|]. split; discriminate.
  - rewrite app_nil_r, W, D. split; [reflexivity|]. split; discriminate.
Qed.

End StartFacts.

Lemma single_run_has_one_window_witness :
  windowStarts
    (events (main (exampleWorld fastClock noOrders (fun _ => bookOf (48 # 100) (50 # 100)))
                  (exampleConfig (49 # 100) "hedge" 10 false false) 1 5 initSt))
  = [0%Z].
Proof.
  exact (proj1 (single_run_has_one_window
    (exampleWorld fastClock noOrders (fun _ => bookOf (48 # 100) (50 # 100)))
    (exampleConfig (49 # 100) "hedge" 10 false false)
    (exampleChecked (49 # 100) Hedge) 1 5 initSt 0%Z
    eq_refl eq_refl eq_refl eq_refl)).
Defined.

(** ** A rejected book read in the hedge branch *)

Section HedgeFailure.

Variable w : World.
Variable cfg : Config.
Variable chk : Checked.

(** X22: the book read of the hedge branch is not guarded: when the
    exchange rejects it, the error leaves the safety loop and the window,
    the closing sweep does not run, and both legs stay on the book with no
    cancellation requested and no hedge submitted. *)
Theorem hedge_book_failure_is_fatal fuel pl ls s
  (Hopen : Qltb (inject_Z (now w (clk s))) (cancelAtMs pl) = true)
  (Hpoll : USE_RTDS cfg && feed s && negb (rtdsTriggered s) = false)
  (Hfull : bothFull (observed w pl s) = false)
  (Hone : oneSome (observed w pl s) = true)
  (Hfresh : actedOnSingleFill ls = false)
  (Hpol : action chk = Hedge)
  (Hgrace : PAIR_GRACE_SEC cfg <= elapsedAt w ls (later 3 s))
  (Hbook : getOrderBook w (S (elapsedStep ls (later 3 s)))
                        (otherTokenOf cfg (observed w pl s)) = None) :
  result (finishWindow w cfg chk (S fuel) pl ls s) = Throw ClientError
  /\ count isPost (events (finishWindow w cfg chk (S fuel) pl ls s)) = O
  /\ cancelIds (events (finishWindow w cfg chk (S fuel) pl ls s)) = [].
Proof.
  apply Qle_bool_iff in Hgrace.
  unfold observed in *. unfold elapsedAt, elapsedStep, graceStart, later in *.
  cbn [clk Nat.add] in Hgrace, Hbook.
  set (P := fun o : Out unit =>
              result o = Throw ClientError
              /\ count isPost (events o) = O /\ cancelIds (events o) = []).
  change (P (finishWindow w cfg chk (S fuel) pl ls s)).
  unfold finishWindow. cbn [monitor]. unfold dateNow. run. rewrite Hopen.
  unfold iteration, safeGetOrder, log. run. rewrite Hpoll. run.
  destruct (USE_RTDS cfg && feed s); run; rewrite Hfull, Hone, Hfresh; cbn [andb negb];
    unfold singleFill, mitigate, hedge, clientGetOrderBook, dateNow, log; rewrite Hpol;
    fold (otherTokenOf cfg
            (readPair (size pl) (getOrder w (S (clk s)) (upId pl))
                      (getOrder w (S (S (clk s))) (downId pl))));
    destruct (firstSingleFillAtMs ls) as [t0|]; run; rewrite Hgrace; run;
    rewrite Hbook; unfold orThrow; run;
    subst P; cbn [andThen result events app]; repeat split; reflexivity.
Qed.

End HedgeFailure.

Lemma hedge_book_failure_is_fatal_witness :
  let w := withoutBooks (exampleWorld (clockUntil 30) upHalfFilled (fun _ => emptyBook)) in
  let cfg := exampleConfig (49 # 100) "hedge" 0 false false in
  let chk := exampleChecked (49 # 100) Hedge in
  result (finishWindow w cfg chk 50 examplePlaced initLocals initSt) = Throw ClientError
  /\ cancelIds (events (finishWindow w cfg chk 50 examplePlaced initLocals initSt)) = [].
Proof.
  cbv zeta.
  assert (G : PAIR_GRACE_SEC (exampleConfig (49 # 100) "hedge" 0 false false)
              <= elapsedAt
                   (withoutBooks (exampleWorld (clockUntil 30) upHalfFilled
                                    (fun _ => emptyBook)))
                   initLocals (later 3 initSt)) by (vm_compute; discriminate).
  destruct (hedge_book_failure_is_fatal
              (withoutBooks (exampleWorld (clockUntil 30) upHalfFilled (fun _ => emptyBook)))
              (exampleConfig (49 # 100) "hedge" 0 false false)
              (exampleChecked (49 # 100) Hedge) 49 examplePlaced initLocals initSt
              eq_refl eq_refl eq_refl eq_refl eq_refl eq_refl G eq_refl) as (H1 & _ & H3).
  split; [exact H1 | exact H3].
Defined.

(** ** Fills on both legs *)

Section TwoSidedFacts.

Variable w : World.
Variable cfg : Config.
Variable chk : Checked.

(** X23: the mitigation is for a fill on exactly one leg only.  A pass that
    reads matched shares on both legs, or on neither, and does not find
    both legs full, takes no action however far apart the two matched
    amounts are: it reads the two orders, sleeps for the polling interval
    and goes on, leaving the timer and the latch as they are. *)
Theorem two_sided_fill_is_not_mitigated pl ls s
  (Hpoll : USE_RTDS cfg && feed s && negb (rtdsTriggered s) = false) :
  let ps := readPair (size pl) (getOrder w (clk s) (upId pl))
                     (getOrder w (S (clk s)) (downId pl)) in
  bothFull ps = false ->
  upSome ps = downSome ps ->
  events (iteration w cfg chk pl ls s)
  = [EGetOrder (upId pl); EGetOrder (downId pl); ESleep (POLL_SEC cfg * 1000)]
  /\ result (iteration w cfg chk pl ls s) = Ok (Continue, ls).
Proof.
  cbv zeta. intros Hfull Hsame.
  assert (Hone : oneSome (readPair (size pl) (getOrder w (clk s) (upId pl))
                                   (getOrder w (S (clk s)) (downId pl))) = false).
  { unfold oneSome. rewrite Hsame. destruct (downSome _); reflexivity. }
  set (P := fun o : Out (Ctl * Locals) =>
              events o = [EGetOrder (upId pl); EGetOrder (downId pl);
                          ESleep (POLL_SEC cfg * 1000)]
              /\ result o = Ok (Continue, ls)).
  change (P (iteration w cfg chk pl ls s)).
  unfold iteration, safeGetOrder, sleep. run. rewrite Hpoll. run.
  destruct (USE_RTDS cfg && feed s); run; rewrite Hfull, Hone; cbn [andb]; run;
    subst P; cbn [andThen events result app]; split; reflexivity.
Qed.

End TwoSidedFacts.

Lemma two_sided_fill_is_not_mitigated_witness :
  let orders := fun (_ : nat) (id : string) =>
                  if String.eqb id "U" then Some (order 9 10) else Some (order 1 10) in
  events (iteration (exampleWorld (clockUntil 30) orders (fun _ => bookOf (48 # 100) (50 # 100)))
                    (exampleConfig (49 # 100) "hedge" 0 false false)
                    (exampleChecked (49 # 100) Hedge) examplePlaced initLocals initSt)
  = [EGetOrder "U"; EGetOrder "D"; ESleep (3 * 1000)].
Proof.
  cbv zeta.
  exact (proj1 (two_sided_fill_is_not_mitigated
    (exampleWorld (clockUntil 30)
       (fun (_ : nat) (id : string) =>
          if String.eqb id "U" then Some (order 9 10) else Some (order 1 10))
       (fun _ => bookOf (48 # 100) (50 # 100)))
    (exampleConfig (49 # 100) "hedge" 0 false false)
    (exampleChecked (49 # 100) Hedge) examplePlaced initLocals initSt
    eq_refl eq_refl eq_refl)).
Defined.

(** ** The repeat loop of the JavaScript variant *)

Lemma Forward_ret {A} (a : A) : Forward (ret a).
Proof. intros s. apply Nat.le_refl. Qed.

Lemma Forward_throw {A} e : Forward (@throw A e).
Proof. intros s. apply Nat.le_refl. Qed.

Lemma Forward_outOfFuel {A} : Forward (@outOfFuel A).
Proof. intros s. apply Nat.le_refl. Qed.

Lemma Forward_bind {A B} (m : M A) (f : A -> M B) :
  Forward m -> (forall a, Forward (f a)) -> Forward (bind m f).
Proof.
  intros Hm Hf s. rewrite final_bind. specialize (Hm s).
  destruct (result (m s)) as [a| |]; try exact Hm.
  specialize (Hf a (final (m s))). lia.
Qed.

Lemma Forward_steady {A} (m : M A) :
  (forall s, clk (final (m s)) = clk s) -> Forward m.
Proof. intros H s. rewrite H. apply Nat.le_refl. Qed.

Lemma Forward_call {A} (g : nat -> A) : Forward (call g).
Proof. intros s. simpl. lia. Qed.

Lemma Forward_await {A} w (g : nat -> A) : Forward (await w g).
Proof. intros s. simpl. lia. Qed.

(** Splits a computation along its binds and case distinctions. *)
Ltac forward :=
  repeat first
    [ apply Forward_ret | apply Forward_throw | apply Forward_outOfFuel
    | apply Forward_call | apply Forward_await
    | apply Forward_steady; intros; reflexivity
    | solve [ match goal with H : _ |- _ => apply H end ]
    | apply Forward_bind; [| intros ?]
    | match goal with
      | |- Forward (match ?x with _ => _ end) => destruct x
      end ].

(** The next 15-minute boundary. *)
Lemma ceilToWindowMs_15 (t : Z) :
  (ceilToWindowMs t 15 mod (15 * 60 * 1000) = 0)%Z
  /\ (t <= ceilToWindowMs t 15 < t + 15 * 60 * 1000)%Z.
Proof.
  unfold ceilToWindowMs.
  set (W := (15 * 60 * 1000)%Z).
  assert (HWq : 0 < inject_Z W) by reflexivity.
  set (c := Qceiling (inject_Z t / inject_Z W)).
  pose proof (Qle_ceiling (inject_Z t / inject_Z W)) as H1.
  pose proof (Qceiling_lt (inject_Z t / inject_Z W)) as H2.
  fold c in H1, H2.
  assert (E : inject_Z t / inject_Z W * inject_Z W == inject_Z t)
    by (field; discriminate).
  split; [apply Z.mod_mul; discriminate|].
  split.
  - rewrite Zle_Qle, inject_Z_mult, <- E.
    apply Qmult_le_compat_r; [exact H1 | discriminate].
  - rewrite Zlt_Qlt, inject_Z_mult, inject_Z_plus.
    assert (U' : (inject_Z c - 1) * inject_Z W < inject_Z t).
    { rewrite <- E. apply Qmult_lt_compat_r; [exact HWq|].
      unfold Z.sub in H2. rewrite inject_Z_plus, inject_Z_opp in H2.
      change (inject_Z 1) with 1 in H2. lra. }
    lra.
Qed.

Section AlignedRepeat.

Variable w : World.
Variable cfg : Config.
Variable chk : Checked.

Lemma runOneWindow_forward fuel start : Forward (runOneWindow w cfg chk fuel start).
Proof.
  assert (Hi : forall pl ls, Forward (iteration w cfg chk pl ls)).
  { intros pl ls.
    unfold iteration, singleFill, mitigate, hedge, safeGetOrder, cancelBestEffort,
      clientGetOrderBook, clientPost, orThrow, sleep, dateNow, log.
    forward. }
  assert (Hl : forall pl ls, Forward (monitor w cfg chk fuel pl ls)).
  { intros pl. induction fuel as [|fuel' IH]; intros ls; simpl; [apply Forward_outOfFuel|].
    unfold dateNow. pose proof (Hi pl ls). forward. }
  assert (Hc : forall ids, Forward (cancelAll w ids)).
  { induction ids as [|id ids IH]; simpl; [apply Forward_ret|].
    unfold cancelBestEffort, log. forward. }
  unfold runOneWindow, finishWindow, closing, placement, clientGetMarket, clientGetOrderBook,
    clientPost, orThrow, liftE, sleep, dateNow, log.
  forward.
Qed.

Lemma inOrderFrom_weaken lo lo' ks :
  (lo' <= lo)%nat -> inOrderFrom lo ks -> inOrderFrom lo' ks.
Proof. destruct ks as [|k ks]; simpl; [auto|]. intros H [H1 H2]. split; [lia | exact H2]. Qed.

(** The steps at which the clock is read for the window starts. *)
Lemma repeatLoopAligned_starts fuel windows : forall s,
  exists ks,
    windowStarts (events (repeatLoopAligned w cfg chk windows fuel s))
    = map (fun k => ceilToWindowMs (now w k) 15) ks
    /\ inOrderFrom (clk s) ks
    /\ (List.length ks <= windows)%nat
    /\ ((1 <= windows)%nat -> hd_error ks = Some (clk s)).
Proof.
  induction windows as [|windows IH]; intros s.
  - exists []. repeat split; try constructor. intros H. inversion H.
  - cbn [repeatLoopAligned]. unfold dateNow. rewrite bind_call. cbv zeta.
    set (s1 := {| clk := S (clk s); feed := feed s; rtdsTriggered := rtdsTriggered s |}).
    set (start := ceilToWindowMs (now w (clk s)) 15).
    rewrite events_bind, windowStarts_app, runOneWindow_starts.
    pose proof (runOneWindow_forward fuel start s1) as F. cbn [s1 clk] in F. fold s1 in F.
    destruct (result (runOneWindow w cfg chk fuel start s1)) as [[]| |].
    + destruct (IH (final (runOneWindow w cfg chk fuel start s1)))
        as (ks & E & G & L & _).
      exists (clk s :: ks). rewrite E. cbn [map app]. repeat split.
      * apply Nat.le_refl.
      * apply (inOrderFrom_weaken _ _ _ F G).
      * cbn [List.length]. lia.
    + exists [clk s]. cbn [map app List.length]. repeat split; lia.
    + exists [clk s]. cbn [map app List.length]. repeat split; lia.
Qed.

(** X24: in the repeat loop of the JavaScript variant every window start is
    taken from the clock: it is the first 15-minute boundary at or after a
    clock reading, the readings being taken one per window at successive
    steps of the run, the first of them when the loop is entered.  So every
    start is a whole multiple of 15 minutes and no start precedes the clock
    reading of its cycle. *)
Theorem aligned_repeat_follows_the_clock windows fuel s :
  exists ks,
    windowStarts (events (repeatLoopAligned w cfg chk windows fuel s))
    = map (fun k => ceilToWindowMs (now w k) 15) ks
    /\ inOrderFrom (clk s) ks
    /\ ((1 <= windows)%nat -> hd_error ks = Some (clk s))
    /\ Forall (fun k => (ceilToWindowMs (now w k) 15 mod (15 * 60 * 1000) = 0)%Z
                        /\ (now w k <= ceilToWindowMs (now w k) 15
                                      < now w k + 15 * 60 * 1000)%Z) ks.
Proof.
  destruct (repeatLoopAligned_starts fuel windows s) as (ks & E & Srt & _ & H).
  exists ks. split; [exact E|]. split; [exact Srt|]. split; [exact H|].
  apply Forall_forall. intros k _. apply ceilToWindowMs_15.
Qed.

End AlignedRepeat.

(** ** Paging through a user's activity *)

Lemma last_app_cons {A} (l1 : list A) (x : A) (l2 : list A) (d : A) :
  last (l1 ++ x :: l2) d = last (x :: l2) d.
Proof.
  induction l1 as [|a l1 IH]; [reflexivity|].
  change ((a :: l1) ++ x :: l2)%list with (a :: (l1 ++ x :: l2))%list.
  cbn [last]. destruct (l1 ++ x :: l2)%list eqn:E; [|exact IH].
  destruct l1; discriminate E.
Qed.

Lemma fetchFrom_collects api fuel : forall offset all,
  let requested := fst (UserActivity.fetchFrom api fuel offset all) in
  requested
  = map (fun i => (offset + i * UserActivity.limit)%nat) (seq 0 (List.length requested))
  /\ forall r, snd (UserActivity.fetchFrom api fuel offset all) = UserActivity.Returned r ->
       UserActivity.totalCount r = List.length (UserActivity.transactions r)
       /\ UserActivity.transactions r
          = (all ++ List.concat (map (UserActivity.pageAt api) requested))%list
       /\ (UserActivity.foundRedeem r = true ->
           UserActivity.isRedeem
             (last (UserActivity.transactions r) UserActivity.NullEntry) = true).
Proof.
  induction fuel as [|fuel IH]; intros offset all; cbv zeta.
  - simpl. split; [reflexivity|]. intros r H. discriminate H.
  - cbn [UserActivity.fetchFrom]. unfold UserActivity.pageAt.
    destruct (api offset) as [| |[|t ts]] eqn:A.
    + simpl. split; [f_equal; lia|]. intros r H. discriminate H.
    + simpl. rewrite A. split; [f_equal; lia|]. intros r H. injection H as <-. simpl.
      rewrite app_nil_r. repeat split; discriminate.
    + simpl. rewrite A. split; [f_equal; lia|]. intros r H. injection H as <-. simpl.
      rewrite app_nil_r. repeat split; discriminate.
    + set (page := (t :: ts)%list) in *.
      destruct (last page UserActivity.NullEntry) as [|ty] eqn:L.
      { simpl. split; [f_equal; lia|]. intros r H. discriminate H. }
      destruct (UserActivity.isRedeem (UserActivity.Entry ty)) eqn:R.
      { simpl. rewrite A. split; [f_equal; lia|]. intros r H. injection H as <-.
        cbn [UserActivity.totalCount UserActivity.transactions UserActivity.foundRedeem].
        rewrite app_nil_r. fold page.
        split; [reflexivity|]. split; [reflexivity|]. intros _.
        unfold page. rewrite last_app_cons. fold page. rewrite L. exact R. }
      destruct (List.length page <? UserActivity.limit)%nat.
      { simpl. rewrite A. split; [f_equal; lia|]. intros r H. injection H as <-.
        cbn [UserActivity.totalCount UserActivity.transactions UserActivity.foundRedeem].
        rewrite app_nil_r. fold page. repeat split; discriminate. }
      specialize (IH (offset + UserActivity.limit)%nat (all ++ page)%list).
      cbv zeta in IH.
      destruct (UserActivity.fetchFrom api fuel (offset + UserActivity.limit)
                  (all ++ page)) as [requested outcome].
      cbn [fst snd] in *. destruct IH as [IH1 IH2]. split.
      * cbn [List.length seq map]. f_equal; [lia|].
        rewrite IH1 at 1. rewrite <- seq_shift, map_map.
        apply map_ext. intros i. lia.
      * intros r H. destruct (IH2 r H) as (T1 & T2 & T3).
        split; [exact T1|]. split; [|exact T3].
        rewrite T2. cbn [map List.concat]. rewrite A.
        fold page. rewrite <- app_assoc. reflexivity.
Qed.

(** X25: [fetchUserActivityUntilRedeem] asks for the offsets 0, 1000, 2000,
    ... in turn, each once; what it returns is the pages it was given, put
    end to end in that order, with [totalCount] their number of
    transactions; and when it reports that it found a REDEEM, the last
    transaction it returns is a REDEEM. *)
Theorem activity_pages_are_concatenated api fuel :
  let requested := fst (UserActivity.fetchUserActivityUntilRedeem api fuel) in
  requested = map (fun i => (i * 1000)%nat) (seq 0 (List.length requested))
  /\ forall r,
       snd (UserActivity.fetchUserActivityUntilRedeem api fuel) = UserActivity.Returned r ->
       UserActivity.totalCount r = List.length (UserActivity.transactions r)
       /\ UserActivity.transactions r = List.concat (map (UserActivity.pageAt api) requested)
       /\ (UserActivity.foundRedeem r = true ->
           UserActivity.isRedeem
             (last (UserActivity.transactions r) UserActivity.NullEntry) = true).
Proof.
  exact (fetchFrom_collects api fuel 0 []).
Qed.

Lemma fetchFrom_stops api : forall k fuel offset all,
  (forall i, (i < k)%nat ->
     UserActivity.goesOn api (offset + i * UserActivity.limit) = true) ->
  UserActivity.goesOn api (offset + k * UserActivity.limit) = false ->
  (k < fuel)%nat ->
  fst (UserActivity.fetchFrom api fuel offset all)
  = map (fun i => (offset + i * UserActivity.limit)%nat) (seq 0 (S k))
  /\ snd (UserActivity.fetchFrom api fuel offset all) <> UserActivity.StillFetching.
Proof.
  induction k as [|k IH]; intros fuel offset all Hgo Hstop Hfuel.
  - destruct fuel as [|fuel]; [lia|].
    replace (offset + 0 * UserActivity.limit)%nat with offset in Hstop by lia.
    unfold UserActivity.goesOn in Hstop. cbn [UserActivity.fetchFrom].
    assert (E : (offset + 0 * UserActivity.limit)%nat = offset) by lia.
    cbn [seq map]. rewrite E.
    destruct (api offset) as [| |[|t ts]];
      try (split; [reflexivity | discriminate]).
    destruct (last (t :: ts) UserActivity.NullEntry) as [|ty];
      [split; [reflexivity | discriminate]|].
    destruct (UserActivity.isRedeem (UserActivity.Entry ty));
      [split; [reflexivity | discriminate]|].
    cbn [negb andb] in Hstop. apply Nat.leb_gt in Hstop.
    apply Nat.ltb_lt in Hstop. rewrite Hstop. split; [reflexivity | discriminate].
  - destruct fuel as [|fuel]; [lia|].
    pose proof (Hgo O ltac:(lia)) as H0.
    replace (offset + 0 * UserActivity.limit)%nat with offset in H0 by lia.
    unfold UserActivity.goesOn in H0. cbn [UserActivity.fetchFrom].
    destruct (api offset) as [| |[|t ts]]; try discriminate H0.
    destruct (last (t :: ts) UserActivity.NullEntry) as [|ty]; [discriminate H0|].
    apply andb_true_iff in H0. destruct H0 as [R Lm].
    apply negb_true_iff in R. rewrite R.
    apply Nat.leb_le in Lm.
    assert (Lt : (List.length (t :: ts) <? UserActivity.limit)%nat = false)
      by (apply Nat.ltb_ge; exact Lm).
    rewrite Lt.
    destruct (IH fuel (offset + UserActivity.limit)%nat (all ++ t :: ts)%list) as [I1 I2].
    + intros i Hi. specialize (Hgo (S i) ltac:(lia)).
      replace (offset + UserActivity.limit + i * UserActivity.limit)%nat
        with (offset + S i * UserActivity.limit)%nat by lia. exact Hgo.
    + replace (offset + UserActivity.limit + k * UserActivity.limit)%nat
        with (offset + S k * UserActivity.limit)%nat by lia. exact Hstop.
    + lia.
    + destruct (UserActivity.fetchFrom api fuel (offset + UserActivity.limit)
                  (all ++ t :: ts)) as [requested outcome].
      cbn [fst snd] in *. split; [|exact I2].
      rewrite I1. change (seq 0 (S (S k))) with (0 :: seq 1 (S k))%nat.
      cbn [map]. f_equal; [lia|].
      rewrite <- seq_shift, map_map. apply map_ext. intros i. lia.
Qed.

(** X26: the paging stops at the first page that does not make it go on: a
    rejected request, a body that is not an array, an empty page, a page of
    fewer than 1000 transactions, or a page whose last element is a REDEEM
    or null.  When the pages before page [k] are full and end with another
    transaction and page [k] is of that kind, exactly the offsets 0, 1000,
    ..., 1000 k are requested and, given that many requests, the loop has
    ended. *)
Theorem activity_paging_stops api k fuel
  (Hgo : forall i, (i < k)%nat -> UserActivity.goesOn api (i * 1000) = true)
  (Hstop : UserActivity.goesOn api (k * 1000) = false)
  (Hfuel : (k < fuel)%nat) :
  fst (UserActivity.fetchUserActivityUntilRedeem api fuel)
  = map (fun i => (i * 1000)%nat) (seq 0 (S k))
  /\ snd (UserActivity.fetchUserActivityUntilRedeem api fuel) <> UserActivity.StillFetching.
Proof.
  exact (fetchFrom_stops api k fuel 0 [] Hgo Hstop Hfuel).
Qed.

Lemma activity_paging_stops_witness :
  let api := fun offset =>
               if Nat.eqb offset 0
               then UserActivity.Batch (repeat (UserActivity.Entry (Some "TRADE")) 1000)
               else UserActivity.Batch [UserActivity.Entry (Some "TRADE");
                                        UserActivity.Entry (Some "REDEEM")] in
  fst (UserActivity.fetchUserActivityUntilRedeem api 5) = [0; 1000]%nat.
Proof.
  cbv zeta.
  assert (Hgo : forall i, (i < 1)%nat ->
            UserActivity.goesOn
              (fun offset =>
                 if Nat.eqb offset 0
                 then UserActivity.Batch (repeat (UserActivity.Entry (Some "TRADE")) 1000)
                 else UserActivity.Batch [UserActivity.Entry (Some "TRADE");
                                          UserActivity.Entry (Some "REDEEM")])
              (i * 1000) = true).
  { intros i Hi. assert (i = O) by lia. subst i. vm_compute. reflexivity. }
  assert (Hfuel : (1 < 5)%nat) by lia.
  exact (proj1 (activity_paging_stops _ 1 5 Hgo eq_refl Hfuel)).
Defined.

(** ** The summary of the fetch script *)

Lemma tally_counts reports : forall acc,
  let r := fold_left UserActivity.tally reports acc in
  (UserActivity.successful r + UserActivity.skippedCount r + UserActivity.failed r
   = UserActivity.successful acc + UserActivity.skippedCount acc + UserActivity.failed acc
     + List.length reports)%nat
  /\ UserActivity.skippedCount r
     = (UserActivity.skippedCount acc
        + List.length (filter UserActivity.skipped reports))%nat
  /\ UserActivity.failed r
     = (UserActivity.failed acc
        + List.length (filter (fun x => negb (UserActivity.skipped x)
                                        && negb (UserActivity.success x)) reports))%nat
  /\ UserActivity.details r = (UserActivity.details acc ++ reports)%list
  /\ UserActivity.total r = UserActivity.total acc.
Proof.
  induction reports as [|x reports IH]; intros acc; cbv zeta.
  - simpl. rewrite app_nil_r. repeat split; lia.
  - cbn [fold_left filter]. specialize (IH (UserActivity.tally acc x)). cbv zeta in IH.
    destruct IH as (I1 & I2 & I3 & I4 & I5).
    rewrite I1, I2, I3, I4, I5. unfold UserActivity.tally.
    destruct (UserActivity.skipped x), (UserActivity.success x);
      cbn [UserActivity.successful UserActivity.skippedCount UserActivity.failed
           UserActivity.details UserActivity.total negb andb List.length];
      rewrite <- app_assoc; repeat split; lia.
Qed.

(** X27: the summary of the fetch script accounts for every file once: the
    successful, skipped and failed counts add up to the number of files, a
    file reported as skipped counts as skipped whatever its success flag
    says, a file counts as failed exactly when it is neither skipped nor
    successful, and the details list the reports in the order of the
    files. *)
Theorem summary_counts_every_file (reports : list UserActivity.FileResult) :
  let r := UserActivity.summarize reports in
  UserActivity.total r = List.length reports
  /\ (UserActivity.successful r + UserActivity.skippedCount r + UserActivity.failed r
      = UserActivity.total r)%nat
  /\ UserActivity.skippedCount r = List.length (filter UserActivity.skipped reports)
  /\ UserActivity.failed r
     = List.length (filter (fun x => negb (UserActivity.skipped x)
                                     && negb (UserActivity.success x)) reports)
  /\ UserActivity.details r = reports.
Proof.
  cbv zeta. unfold UserActivity.summarize.
  destruct (tally_counts reports
              {| UserActivity.total := List.length reports; UserActivity.successful := 0;
                 UserActivity.skippedCount := 0; UserActivity.failed := 0;
                 UserActivity.details := [] |}) as (I1 & I2 & I3 & I4 & I5).
  cbv zeta in *. rewrite I1, I2, I3, I4, I5. simpl. repeat split; lia.
Qed.

(** ** The feed flag *)

Lemma KeepsTrigger_bind {A B} (m : M A) (f : A -> M B) :
  KeepsTrigger m -> (forall a, KeepsTrigger (f a)) -> KeepsTrigger (bind m f).
Proof.
  intros Hm Hf s H. rewrite final_bind. specialize (Hm s H).
  destruct (result (m s)) as [a| |]; try exact Hm. apply Hf. exact Hm.
Qed.

Lemma KeepsTrigger_steady {A} (m : M A) :
  (forall s, rtdsTriggered (final (m s)) = rtdsTriggered s) -> KeepsTrigger m.
Proof. intros E s H. rewrite E. exact H. Qed.

Lemma KeepsTrigger_await {A} w (g : nat -> A) : KeepsTrigger (await w g).
Proof. intros s H. simpl. rewrite H. reflexivity. Qed.

Lemma StaysIdle_bind {A B} (m : M A) (f : A -> M B) :
  StaysIdle m -> (forall a, StaysIdle (f a)) -> StaysIdle (bind m f).
Proof.
  intros Hm Hf s H. rewrite final_bind. specialize (Hm s H).
  destruct (result (m s)) as [a| |]; try exact Hm. apply Hf. exact Hm.
Qed.

Lemma StaysIdle_steady {A} (m : M A) :
  (forall s, rtdsTriggered (final (m s)) = rtdsTriggered s) -> StaysIdle m.
Proof. intros E s H. rewrite E. exact H. Qed.

Lemma StaysIdle_await {A} w (g : nat -> A) :
  (forall n, rtdsMessage w n = false) -> StaysIdle (await w g).
Proof. intros Hs s H. simpl. rewrite H, Hs, andb_false_r. reflexivity. Qed.

(** Splits a computation along its binds and case distinctions. *)
Ltac keeps :=
  repeat first
    [ apply KeepsTrigger_await
    | apply KeepsTrigger_steady; intros; reflexivity
    | solve [ match goal with H : _ |- _ => apply H end ]
    | apply KeepsTrigger_bind; [| intros ?]
    | match goal with
      | |- KeepsTrigger (match ?x with _ => _ end) => destruct x
      end ].

Ltac idle Hs :=
  repeat first
    [ apply (StaysIdle_await _ _ Hs)
    | apply StaysIdle_steady; intros; reflexivity
    | solve [ match goal with H : _ |- _ => apply H end ]
    | apply StaysIdle_bind; [| intros ?]
    | match goal with
      | |- StaysIdle (match ?x with _ => _ end) => destruct x
      end ].

Section FeedFacts.

Variable w : World.
Variable cfg : Config.
Variable chk : Checked.

(** X28: with the feed connected, a feed message wakes the loop for one
    pass.  A pass entered with the flag set reads the two orders, and it
    clears the flag before it reads: when no further message arrives the
    flag is clear at the end of the pass, however the pass ends, so the
    next pass only sleeps; and a message that arrives while the orders are
    being read is not lost, the flag being set at the end of the pass. *)
Theorem feed_message_wakes_one_pass pl ls s
  (Hrtds : USE_RTDS cfg = true)
  (Hfeed : feed s = true)
  (Htrig : rtdsTriggered s = true) :
  (exists rest,
     events (iteration w cfg chk pl ls s)
     = EGetOrder (upId pl) :: EGetOrder (downId pl) :: rest)
  /\ ((forall n, rtdsMessage w n = false) ->
      rtdsTriggered (final (iteration w cfg chk pl ls s)) = false)
  /\ (rtdsMessage w (clk s) = true \/ rtdsMessage w (S (clk s)) = true ->
      rtdsTriggered (final (iteration w cfg chk pl ls s)) = true).
Proof.
  split; [|split].
  - unfold iteration, safeGetOrder. run. rewrite Hrtds, Hfeed, Htrig. cbn [andb negb]. run.
    cbn [andThen events app]. eexists. reflexivity.
  - intros Hs.
    unfold iteration, safeGetOrder. run. rewrite Hrtds, Hfeed, Htrig. cbn [andb negb]. run.
    rewrite !Hs. cbn [andb orb andThen final].
    match goal with
    | |- rtdsTriggered (final (?X ?s')) = false =>
        assert (K : StaysIdle X);
        [ unfold singleFill, mitigate, hedge, cancelBestEffort, clientGetOrderBook,
            clientPost, orThrow, sleep, dateNow, log; idle Hs
        | apply K; cbn [rtdsTriggered]; rewrite ?andb_false_r; reflexivity ]
    end.
  - intros Hm.
    unfold iteration, safeGetOrder. run. rewrite Hrtds, Hfeed, Htrig. cbn [andb negb]. run.
    cbn [andb orb andThen final].
    match goal with
    | |- rtdsTriggered (final (?X ?s')) = true =>
        assert (K : KeepsTrigger X);
        [ unfold singleFill, mitigate, hedge, cancelBestEffort, clientGetOrderBook,
            clientPost, orThrow, sleep, dateNow, log; keeps
        | apply K; cbn [rtdsTriggered]; rewrite ?Hfeed;
          destruct Hm as [Hm|Hm]; rewrite Hm; rewrite ?orb_true_r; reflexivity ]
    end.
Qed.

End FeedFacts.

Lemma feed_message_wakes_one_pass_witness :
  rtdsTriggered
    (final (iteration (exampleWorld (clockUntil 30) upHalfFilled (fun _ => emptyBook))
                      (exampleConfig (49 # 100) "hedge" 10 false true)
                      (exampleChecked (49 # 100) Hedge) examplePlaced initLocals
                      {| clk := O; feed := true; rtdsTriggered := true |}))
  = false.
Proof.
  exact (proj1 (proj2 (feed_message_wakes_one_pass
    (exampleWorld (clockUntil 30) upHalfFilled (fun _ => emptyBook))
    (exampleConfig (49 # 100) "hedge" 10 false true)
    (exampleChecked (49 # 100) Hedge) examplePlaced initLocals
    {| clk := O; feed := true; rtdsTriggered := true |} eq_refl eq_refl eq_refl))
    (fun _ => eq_refl)).
Defined.

(** ** What a window sends to the exchange *)

Lemma count_isCancel_cancelIds (l : list Event) :
  count isCancel l = List.length (cancelIds l).
Proof.
  unfold count. induction l as [|e l IH]; [reflexivity|].
  destruct e; simpl; try exact IH. f_equal. exact IH.
Qed.

Section WindowBounds.

Variable w : World.
Variable cfg : Config.
Variable chk : Checked.

Lemma placement_posts start s :
  (count isPost (events (placement w cfg chk start s)) <= 2)%nat.
Proof.
  set (P := fun o : Out Placed => (count isPost (events o) <= 2)%nat).
  change (P (placement w cfg chk start s)).
  unfold placement, clientGetMarket, clientGetOrderBook, clientPost, sleep, dateNow, log,
    liftE.
  repeat first
    [ progress run
    | match goal with
      | |- context [orThrow ?x] => destruct x; unfold orThrow at 1
      | |- context [if ?c then _ else _] => destruct c
      | |- context [match sharesArg cfg with _ => _ end] => destruct (sharesArg cfg)
      | |- context [match computeSizeShares ?a ?b with _ => _ end] =>
          destruct (computeSizeShares a b)
      | |- context [match ?n with Fin _ => _ | _ => _ end] => is_var n; destruct n
      end ].
  all: subst P; unfold andThen, throw, ret, count;
    cbn [events app filter isPost List.length]; lia.
Qed.

(** X29: a window sends the exchange at most three orders (the two legs and
    one hedge) and at most three cancellation requests (one by the cancel
    policy and the two of the closing sweep), and at most five of the two
    together. *)
Theorem window_action_bound fuel start s :
  let evs := events (runOneWindow w cfg chk fuel start s) in
  (count isPost evs <= 3)%nat
  /\ (count isCancel evs <= 3)%nat
  /\ (count isPost evs + count isCancel evs <= 5)%nat.
Proof.
  cbv zeta. unfold runOneWindow. rewrite bind_emit. cbn [andThen events].
  change (EWindow start :: ?l)%list with ([EWindow start] ++ l)%list.
  rewrite events_bind.
  pose proof (placement_posts start s) as PP.
  pose proof (placement_noCancel w cfg chk start s) as PC. apply count_none in PC.
  pose proof (placement_orderIds w cfg chk start s) as PO.
  rewrite !count_app, !count_one. cbn [isPost isCancel].
  destruct (result (placement w cfg chk start s)) as [pl| |];
    change (count isPost []) with O; change (count isCancel []) with O; [|lia ..].
  unfold finishWindow. rewrite events_bind, !count_app.
  set (s1 := final (placement w cfg chk start s)).
  destruct (monitor_latch w cfg chk fuel pl initLocals s1) as [M1 M2].
  cbv zeta in M1, M2. unfold budget in M1. cbn [initLocals actedOnSingleFill] in M1.
  set (MG := count isGraceElapsed (events (monitor w cfg chk fuel pl initLocals s1))) in *.
  set (MP := count isPost (events (monitor w cfg chk fuel pl initLocals s1))) in *.
  set (MC := count isCancel (events (monitor w cfg chk fuel pl initLocals s1))) in *.
  destruct (result (monitor w cfg chk fuel pl initLocals s1)) as [ls'| |];
    change (count isPost []) with O; change (count isCancel []) with O; [|lia ..].
  set (s2 := final (monitor w cfg chk fuel pl initLocals s1)).
  destruct (closingOnly_counts _ (closing_closingOnly w pl s2)) as [_ CP].
  rewrite CP, (count_isCancel_cancelIds (events (closing w pl s2))),
    closing_cancels_orderIds, PO.
  cbn [List.length]. lia.
Qed.

(** X30: in a pass of the safety loop the mitigation block runs only on a
    fill on exactly one leg, with the latch unset, and once the grace
    period is over: whenever a pass logs that the grace period elapsed, the
    pair it read is not full on both legs and has matched shares on exactly
    one, the latch was not set when the pass began, and the time since the
    first detection is at least [PAIR_GRACE_SEC]. *)
Theorem mitigation_only_after_grace pl ls s
  (Hpoll : USE_RTDS cfg && feed s && negb (rtdsTriggered s) = false)
  (Hruns : (1 <= count isGraceElapsed (events (iteration w cfg chk pl ls s)))%nat) :
  let ps := readPair (size pl) (getOrder w (clk s) (upId pl))
                     (getOrder w (S (clk s)) (downId pl)) in
  bothFull ps = false
  /\ oneSome ps = true
  /\ actedOnSingleFill ls = false
  /\ PAIR_GRACE_SEC cfg <= elapsedAt w ls (later 2 s).
Proof.
  cbv zeta. revert Hruns.
  set (ps := readPair (size pl) (getOrder w (clk s) (upId pl))
                      (getOrder w (S (clk s)) (downId pl))).
  assert (E : exists s2,
            clk s2 = S (S (clk s))
            /\ iteration w cfg chk pl ls s
               = andThen [EGetOrder (upId pl); EGetOrder (downId pl)]
                   ((if bothFull ps
                     then log (LBothFull (upMatched ps) (downMatched ps)) ;; ret (Break, ls)
                     else ls' <- (if oneSome ps && negb (actedOnSingleFill ls)
                                  then singleFill w cfg chk pl ps ls
                                  else ret ls) ;;
                          sleep w (POLL_SEC cfg * 1000) ;; ret (Continue, ls')) s2)).
  { unfold iteration, safeGetOrder. run. rewrite Hpoll. run.
    destruct (USE_RTDS cfg && feed s); run; eexists; (split; [|reflexivity]); reflexivity. }
  destruct E as (s2 & Hclk & ->). cbn [andThen events].
  change ([EGetOrder (upId pl); EGetOrder (downId pl)] ++ ?l)%list
    with ([EGetOrder (upId pl)] ++ [EGetOrder (downId pl)] ++ l)%list.
  rewrite !count_app, !count_one. cbn [isGraceElapsed Nat.add].
  destruct (bothFull ps).
  { unfold log. run. unfold count. simpl. lia. }
  destruct (oneSome ps) eqn:Hone; cbn [andb];
    [|unfold sleep; run; unfold count; simpl; lia].
  destruct (actedOnSingleFill ls) eqn:Hact; cbn [negb];
    [unfold sleep; run; unfold count; simpl; lia|].
  rewrite events_bind, count_app.
  pose proof (singleFill_run w cfg chk pl ps ls s2) as R. cbv zeta in R. rewrite R.
  assert (Eq : elapsedAt w ls s2 = elapsedAt w ls (later 2 s)).
  { unfold elapsedAt, elapsedStep, graceStart, later. cbn [clk Nat.add]. rewrite Hclk.
    reflexivity. }
  rewrite Eq.
  destruct (Qle_bool (PAIR_GRACE_SEC cfg) (elapsedAt w ls (later 2 s))) eqn:G.
  { intros _. apply Qle_bool_iff in G. repeat split; assumption. }
  cbn [andThen events result ret]. rewrite app_nil_r.
  assert (T : count isGraceElapsed (timerLine ls ps) = O).
  { unfold timerLine. destruct (firstSingleFillAtMs ls); reflexivity. }
  rewrite T. unfold sleep. run. unfold count. simpl. lia.
Qed.

End WindowBounds.

Lemma mitigation_only_after_grace_witness :
  oneSome (readPair 10 (Some (order 5 10)) (Some (order 0 10))) = true
  /\ PAIR_GRACE_SEC (exampleConfig (49 # 100) "wait" 0 false false)
     <= elapsedAt (exampleWorld (clockUntil 30) upHalfFilled (fun _ => emptyBook))
                  initLocals (later 2 initSt).
Proof.
  assert (H : (1 <= count isGraceElapsed
                      (events (iteration
                                 (exampleWorld (clockUntil 30) upHalfFilled (fun _ => emptyBook))
                                 (exampleConfig (49 # 100) "wait" 0 false false)
                                 (exampleChecked (49 # 100) Wait) examplePlaced
                                 initLocals initSt)))%nat)
    by (vm_compute; lia).
  destruct (mitigation_only_after_grace
              (exampleWorld (clockUntil 30) upHalfFilled (fun _ => emptyBook))
              (exampleConfig (49 # 100) "wait" 0 false false)
              (exampleChecked (49 # 100) Wait) examplePlaced initLocals initSt
              eq_refl H) as (_ & H1 & _ & H2).
  split; [exact H1 | exact H2].
Defined.

(** * The number-sensitive parts on binary64 *)

(** ** The order of doubles *)

Lemma SFltb_above_bound (m : positive) (e : Z) (d u : SpecFloat.spec_float) :
  SpecFloat.SFltb (SpecFloat.S754_finite false m e) u = true ->
  SpecFloat.SFltb (SpecFloat.S754_finite false m e) d = false ->
  d <> SpecFloat.S754_nan ->
  SpecFloat.SFltb d u = true.
Proof.
  unfold SpecFloat.SFltb, SpecFloat.SFcompare.
  intros Hu Hd Hn.
  destruct d as [sd|sd| |sd md ed]; [| | congruence |];
    destruct u as [su|su| |su mu eu]; try destruct sd; try destruct su;
    try discriminate; try reflexivity.
  revert Hu Hd.
  change (Pos.compare_cont Eq m mu) with (Pos.compare m mu).
  change (Pos.compare_cont Eq m md) with (Pos.compare m md).
  change (Pos.compare_cont Eq md mu) with (Pos.compare md mu).
  destruct (Z.compare_spec e eu), (Z.compare_spec e ed), (Z.compare_spec ed eu);
    try discriminate; try reflexivity; try lia;
    destruct (Pos.compare_spec m mu), (Pos.compare_spec m md), (Pos.compare_spec md mu);
    try discriminate; try reflexivity; try lia.
Qed.

Lemma SFltb_trans_bound (m : positive) (e : Z) (d u : SpecFloat.spec_float) :
  SpecFloat.SFltb (SpecFloat.S754_finite false m e) d = true ->
  SpecFloat.SFltb d u = true ->
  SpecFloat.SFltb (SpecFloat.S754_finite false m e) u = true.
Proof.
  unfold SpecFloat.SFltb, SpecFloat.SFcompare.
  intros Hd Hu.
  destruct d as [sd|sd| |sd md ed];
    destruct u as [su|su| |su mu eu]; try destruct sd; try destruct su;
    try discriminate; try reflexivity.
  revert Hu Hd.
  change (Pos.compare_cont Eq m mu) with (Pos.compare m mu).
  change (Pos.compare_cont Eq m md) with (Pos.compare m md).
  change (Pos.compare_cont Eq md mu) with (Pos.compare md mu).
  destruct (Z.compare_spec e eu), (Z.compare_spec e ed), (Z.compare_spec ed eu);
    try discriminate; try reflexivity; try lia;
    destruct (Pos.compare_spec m mu), (Pos.compare_spec m md), (Pos.compare_spec md mu);
    try discriminate; try reflexivity; try lia.
Qed.

Lemma is_nan_Prim2SF (x : PrimFloat.float) :
  PrimFloat.is_nan x = false -> FloatOps.Prim2SF x <> SpecFloat.S754_nan.
Proof.
  unfold PrimFloat.is_nan. rewrite FloatAxioms.eqb_spec. intros H E.
  rewrite E in H. discriminate H.
Qed.

Lemma is_finite_not_nan (x : PrimFloat.float) :
  PrimFloat.is_finite x = true -> PrimFloat.is_nan x = false.
Proof.
  unfold PrimFloat.is_finite. destruct (PrimFloat.is_nan x); [discriminate | reflexivity].
Qed.

Lemma eps_positive :
  exists m e, FloatOps.Prim2SF Doubles.eps = SpecFloat.S754_finite false m e.
Proof. eexists. eexists. vm_compute. reflexivity. Qed.

(** A value that is not above [1e-9] lies below every value that is. *)
Lemma ltb_above_eps (d u : PrimFloat.float) :
  PrimFloat.ltb Doubles.eps u = true ->
  PrimFloat.ltb Doubles.eps d = false ->
  PrimFloat.is_nan d = false ->
  PrimFloat.ltb d u = true.
Proof.
  destruct eps_positive as (m & e & E).
  rewrite !FloatAxioms.ltb_spec, E. intros Hu Hd Hn.
  exact (SFltb_above_bound m e _ _ Hu Hd (is_nan_Prim2SF d Hn)).
Qed.

Lemma ltb_eps_trans (d u : PrimFloat.float) :
  PrimFloat.ltb Doubles.eps d = true ->
  PrimFloat.ltb d u = true ->
  PrimFloat.ltb Doubles.eps u = true.
Proof.
  destruct eps_positive as (m & e & E).
  rewrite !FloatAxioms.ltb_spec, E. apply SFltb_trans_bound.
Qed.

Lemma parseMatchedShares_not_nan (o : option OpenOrder) :
  PrimFloat.is_nan (Doubles.parseMatchedShares o) = false.
Proof.
  unfold Doubles.parseMatchedShares. destruct o as [o|]; [|reflexivity].
  cbv zeta. destruct (PrimFloat.is_finite (Doubles.ofNum (size_matched o))) eqn:F.
  - apply is_finite_not_nan. exact F.
  - reflexivity.
Qed.

(** With exactly one leg above [1e-9], the side the code calls filled is the
    one that has the fills. *)
Lemma filledSide_oneSome (up down : PrimFloat.float) :
  PrimFloat.is_nan up = false -> PrimFloat.is_nan down = false ->
  Doubles.oneSome up down = true ->
  Doubles.filledSide up down = if Doubles.someMatched up then UP else DOWN.
Proof.
  unfold Doubles.oneSome, Doubles.filledSide, Doubles.someMatched.
  intros Nu Nd H.
  destruct (PrimFloat.ltb Doubles.eps up) eqn:U;
    destruct (PrimFloat.ltb Doubles.eps down) eqn:D; try discriminate H.
  - rewrite (ltb_above_eps down up U D Nd). reflexivity.
  - destruct (PrimFloat.ltb down up) eqn:L; [|reflexivity].
    rewrite (ltb_eps_trans down up D L) in U. discriminate U.
Qed.

(** ** The pair-edge circuit breaker *)

(** C7: the circuit breaker computes [1 - 2 * PRICE] and compares it with
    [MIN_EDGE], both as doubles.  With arguments that pass the earlier checks,
    [main] refuses with InsufficientEdge exactly when that comparison holds,
    and it does so before anything else happens (no event, so no order, and
    the state untouched); otherwise the checks pass and [main] goes on to the
    wallet and the windows. *)
Theorem pair_edge_check_on_doubles
  (w : World) (c : Config) (windows fuel : nat) (s : St) (a : SingleFillAction)
  (Hprice : PrimFloat.is_finite (Doubles.ofNum (PRICE c)) = true
            /\ PrimFloat.leb (Doubles.ofNum (PRICE c)) PrimFloat.zero = false
            /\ PrimFloat.leb PrimFloat.one (Doubles.ofNum (PRICE c)) = false)
  (Hdur : PrimFloat.is_finite (Doubles.ofNum (DURATION_MIN c)) = true
          /\ PrimFloat.leb (Doubles.ofNum (DURATION_MIN c)) PrimFloat.zero = false)
  (Hpoll : PrimFloat.is_finite (Doubles.ofQ (POLL_SEC c)) = true
           /\ PrimFloat.leb (Doubles.ofQ (POLL_SEC c)) PrimFloat.zero = false)
  (Hgrace : PrimFloat.is_finite (Doubles.ofQ (PAIR_GRACE_SEC c)) = true
            /\ PrimFloat.ltb (Doubles.ofQ (PAIR_GRACE_SEC c)) PrimFloat.zero = false)
  (Hact : parseAction (ON_SINGLE_FILL c) = Some a)
  (Hsig : PrimFloat.eqb (Doubles.ofNum (SIGNATURE_TYPE c)) PrimFloat.zero
          || PrimFloat.eqb (Doubles.ofNum (SIGNATURE_TYPE c)) PrimFloat.one
          || PrimFloat.eqb (Doubles.ofNum (SIGNATURE_TYPE c)) PrimFloat.two = true) :
  let edge := PrimFloat.sub PrimFloat.one
                (PrimFloat.mul PrimFloat.two (Doubles.ofNum (PRICE c))) in
  let passed := {| price := Doubles.valueOf (Doubles.ofNum (PRICE c));
                   durationMin := Doubles.valueOf (Doubles.ofNum (DURATION_MIN c));
                   action := a |} in
  (PrimFloat.ltb edge (Doubles.ofQ (MIN_EDGE c)) = true ->
     Doubles.validate c = inl InsufficientEdge
     /\ Doubles.main w c windows fuel s
        = {| events := []; final := s; result := Throw InsufficientEdge |})
  /\ (PrimFloat.ltb edge (Doubles.ofQ (MIN_EDGE c)) = false ->
        Doubles.validate c = inr passed
        /\ Doubles.main w c windows fuel s = mainChecked w c passed windows fuel s)
  /\ (Doubles.validate c = inl InsufficientEdge ->
        PrimFloat.ltb edge (Doubles.ofQ (MIN_EDGE c)) = true).
Proof.
  cbv zeta.
  destruct Hprice as (P1 & P2 & P3), Hdur as (D1 & D2), Hpoll as (L1 & L2),
    Hgrace as (G1 & G2).
  assert (V : Doubles.validate c =
              if PrimFloat.ltb (Doubles.pairEdge (Doubles.ofNum (PRICE c)))
                               (Doubles.ofQ (MIN_EDGE c))
              then inl InsufficientEdge
              else inr {| price := Doubles.valueOf (Doubles.ofNum (PRICE c));
                          durationMin := Doubles.valueOf (Doubles.ofNum (DURATION_MIN c));
                          action := a |}).
  { unfold Doubles.validate. cbv zeta.
    rewrite P1, P2, P3, D1, D2, L1, L2, G1, G2, Hact, Hsig. reflexivity. }
  unfold Doubles.pairEdge in V.
  split; [|split].
  - intros H. rewrite H in V. split; [exact V|].
    unfold Doubles.main. rewrite V. reflexivity.
  - intros H. rewrite H in V. split; [exact V|].
    unfold Doubles.main. rewrite V. reflexivity.
  - intros H. rewrite V in H.
    destruct (PrimFloat.ltb _ (Doubles.ofQ (MIN_EDGE c))); [reflexivity | discriminate H].
Qed.

Lemma pair_edge_check_on_doubles_witness :
  (* price 0.49 with the minimum edge at 0.005 passes; the edge is 0.02 up to
     the rounding of the doubles *)
  (exists chk, Doubles.validate (hedgeConfig (49 # 100) (5 # 1000) (2 # 1000)) = inr chk)
  /\ Qabs (Doubles.valueOf (Doubles.pairEdge (Doubles.ofQ (49 # 100))) - (2 # 100))
     < 1 # 1000000000000000
  (* price 0.499 with the minimum edge at 0.005 is refused; the edge is 0.002 *)
  /\ Doubles.main (exampleWorld fastClock noOrders (fun _ => emptyBook))
                  (hedgeConfig (499 # 1000) (5 # 1000) (2 # 1000)) 1 5 initSt
     = {| events := []; final := initSt; result := Throw InsufficientEdge |}
  /\ Qabs (Doubles.valueOf (Doubles.pairEdge (Doubles.ofQ (499 # 1000))) - (2 # 1000))
     < 1 # 1000000000000000
  (* price 0.45 with the minimum edge at 0.1 is refused: the edge is the
     double just below 0.1 *)
  /\ Doubles.validate (hedgeConfig (45 # 100) (1 # 10) (2 # 1000)) = inl InsufficientEdge
  /\ Doubles.valueOf (Doubles.pairEdge (Doubles.ofQ (45 # 100))) < 1 # 10
  (* price 0.1 with the minimum edge at 0.8 passes: the edge is the double of 0.8 *)
  /\ (exists chk, Doubles.validate (hedgeConfig (1 # 10) (8 # 10) (2 # 1000)) = inr chk).
Proof.
  pose (w := exampleWorld fastClock noOrders (fun _ => emptyBook)).
  assert (T : forall p e,
            PrimFloat.is_finite (Doubles.ofQ p) = true ->
            PrimFloat.leb (Doubles.ofQ p) PrimFloat.zero = false ->
            PrimFloat.leb PrimFloat.one (Doubles.ofQ p) = false ->
            _) by
    (intros p e F1 F2 F3;
     exact (pair_edge_check_on_doubles w (hedgeConfig p e (2 # 1000)) 1 5 initSt Hedge
              (conj F1 (conj F2 F3)) (conj eq_refl eq_refl) (conj eq_refl eq_refl)
              (conj eq_refl eq_refl) eq_refl eq_refl)).
  cbv zeta in T.
  destruct (T (49 # 100) (5 # 1000) eq_refl eq_refl eq_refl) as (_ & A & _).
  destruct (T (499 # 1000) (5 # 1000) eq_refl eq_refl eq_refl) as (B & _).
  destruct (T (45 # 100) (1 # 10) eq_refl eq_refl eq_refl) as (C & _).
  destruct (T (1 # 10) (8 # 10) eq_refl eq_refl eq_refl) as (_ & D & _).
  split; [eexists; exact (proj1 (A eq_refl))|].
  split; [vm_compute; reflexivity|].
  split; [exact (proj2 (B eq_refl))|].
  split; [vm_compute; reflexivity|].
  split; [exact (proj1 (C eq_refl))|].
  split; [vm_compute; reflexivity|].
  eexists; exact (proj1 (D eq_refl)).
Defined.

(** ** Rounding to the tick *)

Lemma roundDownToTick_total (x t r : PrimFloat.float) :
  Binary64.roundDownToTick x t = Some r -> Doubles.roundDownToTick x t = r.
Proof.
  unfold Binary64.roundDownToTick, Doubles.roundDownToTick, Doubles.toFixed8, Doubles.eps.
  destruct (negb (PrimFloat.is_finite t) || PrimFloat.leb t PrimFloat.zero).
  - intros H. injection H as H. exact H.
  - cbv zeta. intros H. rewrite H. reflexivity.
Qed.





(** ** The hedge on doubles *)

Section HedgeOnDoubles.

Variable w : World.
Variable cfg : Config.
Variable chk : Checked.

(** The hedge branch from the state in which it reads the book. *)
Lemma hedge_on_doubles pl up down s :
  let otherToken := match Doubles.filledSide up down with
                    | UP => DOWN_TOKEN_ID cfg | DOWN => UP_TOKEN_ID cfg end in
  let otherTick := match Doubles.filledSide up down with
                   | UP => downTickSize pl | DOWN => upTickSize pl end in
  let otherNegRisk := match Doubles.filledSide up down with
                      | UP => downNegRisk pl | DOWN => upNegRisk pl end in
  let order := {| r_tokenID := otherToken;
                  r_price := Doubles.valueOf
                               (Doubles.roundDownToTick (Doubles.maxOtherPrice cfg)
                                                        (Doubles.ofNum otherTick));
                  r_size := Doubles.valueOf (Doubles.missingShares up down);
                  r_tickSize := otherTick;
                  r_negRisk := otherNegRisk;
                  r_postOnly := false |} in
  Doubles.hedge w cfg pl up down s
  = andThen [EGetOrderBook otherToken]
      match getOrderBook w (clk s) otherToken with
      | None => {| events := [];
                   final := {| clk := S (clk s); feed := feed s;
                               rtdsTriggered := rtdsTriggered s
                                                || (feed s && rtdsMessage w (clk s)) |};
                   result := Throw ClientError |}
      | Some book =>
          let s1 := {| clk := S (clk s); feed := feed s;
                       rtdsTriggered := rtdsTriggered s
                                        || (feed s && rtdsMessage w (clk s)) |} in
          let ask := match bestAsk (parseOrderBookTop book) with
                     | Some a => Doubles.ofNum a
                     | None => PrimFloat.nan
                     end in
          if negb (PrimFloat.is_finite ask)
          then {| events := [ELog LHedgeSkippedNoAsk]; final := s1; result := Ok tt |}
          else if PrimFloat.ltb (Doubles.maxOtherPrice cfg) ask
          then {| events := [ELog (LHedgeSkippedEdge (Doubles.valueOf ask)
                                     (Doubles.valueOf (Doubles.maxOtherPrice cfg)))];
                  final := s1; result := Ok tt |}
          else {| events := [ELog (LHedging otherToken (r_size order) (r_price order));
                             EPost order;
                             ELog match createAndPostOrder w (S (clk s)) order with
                                  | Some id => LHedgePosted id
                                  | None => LHedgeFailed
                                  end];
                  final := {| clk := S (S (clk s)); feed := feed s;
                              rtdsTriggered :=
                                rtdsTriggered s || (feed s && rtdsMessage w (clk s))
                                || (feed s && rtdsMessage w (S (clk s))) |};
                  result := Ok tt |}
      end.
Proof.
  cbv zeta. unfold Doubles.hedge. cbv zeta.
  unfold clientGetOrderBook, clientPost, log. run.
  destruct (getOrderBook w (clk s) _) as [book|]; unfold orThrow; run; [|reflexivity].
  destruct (negb (PrimFloat.is_finite _)); [reflexivity|].
  destruct (PrimFloat.ltb (Doubles.maxOtherPrice cfg) _); [reflexivity|].
  run. destruct (createAndPostOrder w (S (clk s)) _); reflexivity.
Qed.

(** The single-fill branch with the grace period over, under the hedge
    policy. *)
Lemma singleFill_on_doubles pl up down ls s :
  action chk = Hedge ->
  PrimFloat.leb (Doubles.ofQ (PAIR_GRACE_SEC cfg)) (Doubles.elapsedAt w ls s) = true ->
  let h := Doubles.hedge w cfg pl up down
             {| clk := S (elapsedStep ls s); feed := feed s;
                rtdsTriggered := rtdsTriggered s |} in
  events (Doubles.singleFill w cfg chk pl up down ls s)
  = (Doubles.timerLine ls up down
       ++ ELog (LGraceElapsed (Doubles.filledSide up down)
                  (Doubles.valueOf (Doubles.missingShares up down)) Hedge)
       :: events h)%list
  /\ result (Doubles.singleFill w cfg chk pl up down ls s)
     = match result h with
       | Ok _ => Ok {| firstSingleFillAtMs := Some (graceStart w ls s);
                       actedOnSingleFill := true |}
       | Throw e => Throw e
       | OutOfFuel => OutOfFuel
       end.
Proof.
  intros Hpol Hgrace. cbv zeta.
  unfold Doubles.singleFill, Doubles.mitigate, Doubles.elapsedAt, elapsedStep, graceStart,
    Doubles.timerLine in *.
  rewrite Hpol.
  destruct (firstSingleFillAtMs ls) as [t0|]; unfold dateNow, log; run;
    rewrite Hgrace; run; cbn [andThen events result final app];
    rewrite events_bind, result_bind;
    destruct (result (Doubles.hedge w cfg pl up down _));
    cbn [andThen events result final app ret]; rewrite ?app_nil_r; split; reflexivity.
Qed.

(** C4, amended: under the hedge policy, in a pass that finds exactly one
    leg with matched shares above 1e-9 and the grace period over, the manager
    takes [maxOtherPrice = 1 - PRICE - MIN_HEDGE_EDGE], computed on doubles
    from the configured price (not from the price the legs were submitted
    at), and reads the book of the leg that has no fills.  When that read is
    rejected the error is not caught and ends the window.  With no finite
    best ask, or with a best ask above [maxOtherPrice] as doubles compare,
    it only logs that the hedge is skipped.  Otherwise it submits one buy
    order that is not post-only on the leg that has no fills, for the
    absolute difference of the matched shares, at
    [roundDownToTick(maxOtherPrice, tick of that leg)], and logs whether
    the order was accepted. *)
Theorem hedge_policy_on_doubles pl (upOrder downOrder : option OpenOrder) ls s
  (Hone : Doubles.oneSome (Doubles.parseMatchedShares upOrder)
                          (Doubles.parseMatchedShares downOrder) = true)
  (Hpol : action chk = Hedge)
  (Hgrace : PrimFloat.leb (Doubles.ofQ (PAIR_GRACE_SEC cfg)) (Doubles.elapsedAt w ls s)
            = true) :
  let up := Doubles.parseMatchedShares upOrder in
  let down := Doubles.parseMatchedShares downOrder in
  let upFilled := PrimFloat.ltb Doubles.eps up in
  let otherToken := if upFilled then DOWN_TOKEN_ID cfg else UP_TOKEN_ID cfg in
  let otherTick := if upFilled then downTickSize pl else upTickSize pl in
  let otherNegRisk := if upFilled then downNegRisk pl else upNegRisk pl in
  let maxOther := PrimFloat.sub (PrimFloat.sub PrimFloat.one (Doubles.ofNum (PRICE cfg)))
                                (Doubles.ofQ (MIN_HEDGE_EDGE cfg)) in
  let order := {| r_tokenID := otherToken;
                  r_price := Doubles.valueOf
                               (Doubles.roundDownToTick maxOther (Doubles.ofNum otherTick));
                  r_size := Doubles.valueOf (PrimFloat.abs (PrimFloat.sub up down));
                  r_tickSize := otherTick;
                  r_negRisk := otherNegRisk;
                  r_postOnly := false |} in
  let run := Doubles.singleFill w cfg chk pl up down ls s in
  let head := (Doubles.timerLine ls up down
                 ++ [ELog (LGraceElapsed (if upFilled then UP else DOWN) (r_size order) Hedge);
                     EGetOrderBook otherToken])%list in
  (getOrderBook w (S (elapsedStep ls s)) otherToken = None ->
     events run = head /\ result run = Throw ClientError)
  /\ (forall book,
        getOrderBook w (S (elapsedStep ls s)) otherToken = Some book ->
        let ask := match bestAsk (parseOrderBookTop book) with
                   | Some a => Doubles.ofNum a
                   | None => PrimFloat.nan
                   end in
        (PrimFloat.is_finite ask = false ->
           events run = (head ++ [ELog LHedgeSkippedNoAsk])%list)
        /\ (PrimFloat.is_finite ask = true -> PrimFloat.ltb maxOther ask = true ->
              events run
              = (head ++ [ELog (LHedgeSkippedEdge (Doubles.valueOf ask)
                                  (Doubles.valueOf maxOther))])%list)
        /\ (PrimFloat.is_finite ask = true -> PrimFloat.ltb maxOther ask = false ->
              exists outcome,
                events run
                = (head ++ [ELog (LHedging otherToken (r_size order) (r_price order));
                            EPost order; ELog outcome])%list
                /\ (outcome = LHedgeFailed \/ exists id, outcome = LHedgePosted id))).
Proof.
  cbv zeta.
  set (up := Doubles.parseMatchedShares upOrder) in *.
  set (down := Doubles.parseMatchedShares downOrder) in *.
  pose proof (filledSide_oneSome up down (parseMatchedShares_not_nan upOrder)
                (parseMatchedShares_not_nan downOrder) Hone) as Hside.
  unfold Doubles.someMatched in Hside.
  destruct (singleFill_on_doubles pl up down ls s Hpol Hgrace) as [He Hr].
  cbv zeta in He, Hr. rewrite He, Hr. clear He Hr.
  rewrite (hedge_on_doubles pl up down). cbv zeta. cbn [clk feed rtdsTriggered].
  rewrite Hside. fold (Doubles.maxOtherPrice cfg). fold (Doubles.missingShares up down).
  assert (T : forall b : bool,
            match (if b then UP else DOWN) with
            | UP => DOWN_TOKEN_ID cfg | DOWN => UP_TOKEN_ID cfg end
            = if b then DOWN_TOKEN_ID cfg else UP_TOKEN_ID cfg) by (intros []; reflexivity).
  assert (K : forall b : bool,
            match (if b then UP else DOWN) with
            | UP => downTickSize pl | DOWN => upTickSize pl end
            = if b then downTickSize pl else upTickSize pl) by (intros []; reflexivity).
  assert (N : forall b : bool,
            match (if b then UP else DOWN) with
            | UP => downNegRisk pl | DOWN => upNegRisk pl end
            = if b then downNegRisk pl else upNegRisk pl) by (intros []; reflexivity).
  rewrite !T, !K, !N.
  split.
  - intros Hbook. rewrite Hbook. cbn [andThen events result final app r_size].
    split; reflexivity.
  - intros book Hbook. rewrite Hbook. cbv zeta.
    split; [|split].
    + intros F. rewrite F. cbn [negb andThen events app r_size].
      rewrite <- app_assoc. reflexivity.
    + intros F L. rewrite F, L. cbn [negb andThen events app r_size].
      rewrite <- app_assoc. reflexivity.
    + intros F L. rewrite F, L. cbn [negb andThen events app r_size].
      eexists. rewrite <- app_assoc. split; [reflexivity|].
      destruct (createAndPostOrder w _ _) as [id|];
        [right; exists id; reflexivity | left; reflexivity].
Qed.

End HedgeOnDoubles.

Lemma hedge_policy_on_doubles_witness :
  (* price 0.445, minimum hedge edge 0.005, UP half filled, DOWN asked at
     0.55: 1 - 0.445 - 0.005 is the double just below 0.55, the hedge is
     skipped *)
  events (Doubles.singleFill
            (exampleWorld (clockUntil 30) upHalfFilled (fun _ => bookOf (48 # 100) (55 # 100)))
            (hedgeConfig (445 # 1000) (5 # 1000) (5 # 1000))
            (exampleChecked (445 # 1000) Hedge) examplePlaced
            (Doubles.ofQ 5) (Doubles.ofQ 0) initLocals initSt)
  = [ELog (LSingleFill (Doubles.valueOf (Doubles.ofQ 5)) (Doubles.valueOf (Doubles.ofQ 0)));
     ELog (LGraceElapsed UP (Doubles.valueOf (Doubles.ofQ 5)) Hedge);
     EGetOrderBook "DOWN";
     ELog (LHedgeSkippedEdge
             (Doubles.valueOf (Doubles.ofQ (55 # 100)))
             (Doubles.valueOf
                (PrimFloat.sub (PrimFloat.sub PrimFloat.one (Doubles.ofQ (445 # 1000)))
                               (Doubles.ofQ (5 # 1000)))))]
  /\ Doubles.valueOf (PrimFloat.sub (PrimFloat.sub PrimFloat.one (Doubles.ofQ (445 # 1000)))
                                    (Doubles.ofQ (5 # 1000)))
     < 55 # 100
  (* price 0.49, minimum hedge edge 0.002, DOWN half filled, UP asked at
     0.50: one order on UP, for 5 shares at 0.5, not post-only *)
  /\ exists outcome,
       events (Doubles.singleFill
                 (exampleWorld (clockUntil 30) downHalfFilled
                               (fun _ => bookOf (48 # 100) (50 # 100)))
                 (hedgeConfig (49 # 100) (5 # 1000) (2 # 1000))
                 (exampleChecked (49 # 100) Hedge) examplePlaced
                 (Doubles.ofQ 0) (Doubles.ofQ 5) initLocals initSt)
       = [ELog (LSingleFill (Doubles.valueOf (Doubles.ofQ 0)) (Doubles.valueOf (Doubles.ofQ 5)));
          ELog (LGraceElapsed DOWN (Doubles.valueOf (Doubles.ofQ 5)) Hedge);
          EGetOrderBook "UP";
          ELog (LHedging "UP" (Doubles.valueOf (Doubles.ofQ 5))
                  (Doubles.valueOf (Doubles.ofQ (5 # 10))));
          EPost {| r_tokenID := "UP";
                   r_price := Doubles.valueOf (Doubles.ofQ (5 # 10));
                   r_size := Doubles.valueOf (Doubles.ofQ 5);
                   r_tickSize := Fin (1 # 100);
                   r_negRisk := false; r_postOnly := false |};
          ELog outcome].
Proof.
  destruct (proj2 (hedge_policy_on_doubles
      (exampleWorld (clockUntil 30) upHalfFilled (fun _ => bookOf (48 # 100) (55 # 100)))
      (hedgeConfig (445 # 1000) (5 # 1000) (5 # 1000))
      (exampleChecked (445 # 1000) Hedge) examplePlaced
      (Some (order 5 10)) (Some (order 0 10)) initLocals initSt
      eq_refl eq_refl eq_refl) (bookOf (48 # 100) (55 # 100)) eq_refl) as (_ & Hskip & _).
  destruct (proj2 (hedge_policy_on_doubles
      (exampleWorld (clockUntil 30) downHalfFilled (fun _ => bookOf (48 # 100) (50 # 100)))
      (hedgeConfig (49 # 100) (5 # 1000) (2 # 1000))
      (exampleChecked (49 # 100) Hedge) examplePlaced
      (Some (order 0 10)) (Some (order 5 10)) initLocals initSt
      eq_refl eq_refl eq_refl) (bookOf (48 # 100) (50 # 100)) eq_refl) as (_ & _ & Hpost).
  split; [|split].
  - pose proof (Hskip eq_refl eq_refl) as E. vm_compute in E |- *. exact E.
  - vm_compute. reflexivity.
  - destruct (Hpost eq_refl eq_refl) as (outcome & E & _).
    exists outcome. vm_compute in E |- *. exact E.
Defined.

(** C4 as stated fails: with the price 0.495 and the tick 0.01 both legs are
    submitted at 0.49, so the claim's bound is 1 - 0.49 - 0.002 = 0.508 and
    an ask of 0.505 on the other leg calls for a hedge order; the code takes
    1 - 0.495 - 0.002 = 0.503 and skips the hedge, in exact arithmetic and on
    doubles alike: the two legs are the only orders of the window. *)
Lemma hedge_bound_ignores_tick_rounding :
  (* the window in exact arithmetic: two orders, both at 0.49 and post-only,
     and the mitigation block has run *)
  List.length (posted (events (main (exampleWorld (clockUntil 30) upHalfFilled
                                       (fun _ => bookOf (48 # 100) (505 # 1000)))
                                    (exampleConfig (495 # 1000) "hedge" 0 false false)
                                    0 50 initSt))) = 2%nat
  /\ forallb (fun r => Qeq_bool (r_price r) (49 # 100) && r_postOnly r)
             (posted (events (main (exampleWorld (clockUntil 30) upHalfFilled
                                      (fun _ => bookOf (48 # 100) (505 # 1000)))
                                   (exampleConfig (495 # 1000) "hedge" 0 false false)
                                   0 50 initSt))) = true
  /\ count isGraceElapsed
       (events (main (exampleWorld (clockUntil 30) upHalfFilled
                        (fun _ => bookOf (48 # 100) (505 # 1000)))
                     (exampleConfig (495 # 1000) "hedge" 0 false false)
                     0 50 initSt)) = 1%nat
  /\ 505 # 1000 <= 1 - (49 # 100) - (2 # 1000)
  (* on doubles: the legs' price, the claim's bound, and the branch *)
  /\ Doubles.roundDownToTick (Doubles.ofQ (495 # 1000)) (Doubles.ofNum (Fin (1 # 100)))
     = Doubles.ofQ (49 # 100)
  /\ PrimFloat.ltb (PrimFloat.sub (PrimFloat.sub PrimFloat.one (Doubles.ofQ (49 # 100)))
                                  (Doubles.ofQ (2 # 1000)))
                   (Doubles.ofQ (505 # 1000)) = false
  /\ events (Doubles.singleFill
               (exampleWorld (clockUntil 30) upHalfFilled
                             (fun _ => bookOf (48 # 100) (505 # 1000)))
               (exampleConfig (495 # 1000) "hedge" 0 false false)
               (exampleChecked (495 # 1000) Hedge) examplePlaced
               (Doubles.ofQ 5) (Doubles.ofQ 0) initLocals initSt)
     = [ELog (LSingleFill (Doubles.valueOf (Doubles.ofQ 5)) (Doubles.valueOf (Doubles.ofQ 0)));
        ELog (LGraceElapsed UP (Doubles.valueOf (Doubles.ofQ 5)) Hedge);
        EGetOrderBook "DOWN";
        ELog (LHedgeSkippedEdge
                (Doubles.valueOf (Doubles.ofQ (505 # 1000)))
                (Doubles.valueOf
                   (PrimFloat.sub (PrimFloat.sub PrimFloat.one (Doubles.ofQ (495 # 1000)))
                                  (Doubles.ofQ (2 # 1000)))))].
Proof. repeat split; vm_compute; try reflexivity; discriminate. Qed.
